(** * Trading Analytics Dashboard: the analytics formulas and their properties

    A shallow embedding of the client-side analytics of the dashboard
    ([pages/index.tsx], [services/api.ts]) and the proofs of the properties
    its specification states about them.

    Modelling conventions.
    - A JavaScript [number] that holds an amount ([pnl], prices, sums, ratios)
      is modelled twice.  In [Module Views] it is an exact rational ([Q],
      equality [==]): that is where the properties are stated that concern
      which values the code selects, compares, copies or guards, and that
      hold whatever the additions round to.  In [Module Double] it is the
      IEEE-754 binary64 value itself (the kernel's primitive [float]): that
      is where the properties are stated in which the order of the additions
      and their rounding decide (the net, the equity curve, the daily
      series).
    - In [Module Views], [NaN] and the infinities appear only where the code
      itself produces them from finite data: the time value of an Invalid
      Date ([None] below) and [Math.max()] / [Math.min()] of no argument
      ([NegInfinity] / [PosInfinity]).
    - Array lengths are [nat].
    - Optional fields ([exit?], [session?], ...) are [option]s; [None] is
      [undefined].
    - The runtime ([Date], [Array.prototype.sort], [Map], promises) is modelled
      in [Module JS], the data layer in [Module Api] and [Module Store], the
      views in [Module Views], [Module Double] and [Module App]. *)

From Stdlib Require Import ZArith QArith Qminmax Qabs Lia Lqa.
From Stdlib Require Import List String Ascii Bool DecimalString.
From Stdlib Require Import Sorting.Permutation Sorting.Sorted.
From Stdlib Require Import Classes.Morphisms Setoid.
From Stdlib Require Import Qround Qpower.
From Stdlib Require PrimFloat SpecFloat FloatOps FloatAxioms.
Import ListNotations.

Local Open Scope string_scope.
Local Open Scope Q_scope.

Definition number := Q.

(* ================================================================== *)
(** * The JavaScript runtime, as far as the program uses it *)
(* ================================================================== *)

Module JS.

(** ** Truthiness *)

(** [Boolean(x)] of a number: [0] is the only falsy (finite) number. *)
Definition Boolean_number (x : number) : bool := negb (Qeq_bool x 0).

(** [Boolean(x)] of an optional number: [undefined] is falsy. *)
Definition Boolean_opt_number (x : option number) : bool :=
  match x with
  | None => false
  | Some v => Boolean_number v
  end.

(** [Boolean(x)] of an optional boolean. *)
Definition Boolean_opt_bool (x : option bool) : bool :=
  match x with
  | None => false
  | Some b => b
  end.

(** [x ?? d] *)
Definition nullish {A : Type} (x : option A) (d : A) : A :=
  match x with
  | None => d
  | Some v => v
  end.

(** ** Numbers *)

(** [x > y] and [x < y]. *)
Definition gt (x y : number) : bool := negb (Qle_bool x y).
Definition lt (x y : number) : bool := negb (Qle_bool y x).

(** An array length used as a number. *)
Definition num (n : nat) : number := inject_Z (Z.of_nat n).

(** ** Strings *)

(** [s.slice(-n)]: the last [n] characters of [s] (all of [s] when it is
    shorter). *)
Definition slice_last (n : nat) (s : string) : string :=
  substring (String.length s - n) n s.

(** [`${z}`] for an integer-valued number. *)
Definition string_of_Z (z : Z) : string :=
  NilZero.string_of_int (Z.to_int z).

(** ** Dates

    The model covers the calendar-date form [YYYY-MM-DD] of the ECMAScript
    date-time string format (what [<input type="date">] and the stored data
    hold), read as UTC midnight.  Every other string is the Invalid Date.
    The local time zone of the runtime is taken to be UTC. *)

Record Date := mkDate { year : Z; month : Z; day : Z }.

Definition digit (c : ascii) : option Z :=
  let n := Z.of_nat (nat_of_ascii c) in
  if ((48 <=? n) && (n <=? 57))%Z then Some (n - 48)%Z else None.

Definition digits2 (a b : ascii) : option Z :=
  match digit a, digit b with
  | Some x, Some y => Some (10 * x + y)%Z
  | _, _ => None
  end.

Definition digits4 (a b c d : ascii) : option Z :=
  match digits2 a b, digits2 c d with
  | Some x, Some y => Some (100 * x + y)%Z
  | _, _ => None
  end.

Definition isLeap (y : Z) : bool :=
  ((y mod 4 =? 0) && (negb (y mod 100 =? 0) || (y mod 400 =? 0)))%Z.

Definition daysInMonth (y m : Z) : Z :=
  (if m =? 2 then (if isLeap y then 29 else 28)
   else if (m =? 4) || (m =? 6) || (m =? 9) || (m =? 11) then 30
   else 31)%Z.

Definition validDate (d : Date) : bool :=
  ((0 <=? year d) && (year d <=? 9999) &&
   (1 <=? month d) && (month d <=? 12) &&
   (1 <=? day d) && (day d <=? daysInMonth (year d) (month d)))%Z.

(** The fields of a string of the form [YYYY-MM-DD]. *)
Definition dateFields (s : string) : option Date :=
  match s with
  | String y1 (String y2 (String y3 (String y4 (String "-"
    (String m1 (String m2 (String "-"
    (String d1 (String d2 EmptyString))))))))) =>
      match digits4 y1 y2 y3 y4, digits2 m1 m2, digits2 d1 d2 with
      | Some y, Some m, Some d => Some (mkDate y m d)
      | _, _, _ => None
      end
  | _ => None
  end.

(** [new Date(s)]; [None] is the Invalid Date. *)
Definition newDate (s : string) : option Date :=
  match dateFields s with
  | Some dt => if validDate dt then Some dt else None
  | None => None
  end.

(** Days between 1970-01-01 and the given civil date (proleptic Gregorian
    calendar).  The year is taken to start in March, so that the leap day
    comes last: [shiftedYear] and [shiftedMonth] (0 for March, 11 for
    February) are the coordinates of the date in that year, [yearDays] the
    days before it starts and [monthDays] the days of it before the
    month. *)
Definition shiftedYear (d : Date) : Z :=
  (if month d <=? 2 then year d - 1 else year d)%Z.

Definition shiftedMonth (d : Date) : Z :=
  (if month d <=? 2 then month d + 9 else month d - 3)%Z.

Definition yearDays (y : Z) : Z :=
  (let era := y / 400 in
   let yoe := y - era * 400 in
   era * 146097 + yoe * 365 + yoe / 4 - yoe / 100)%Z.

Definition monthDays (mp : Z) : Z := ((153 * mp + 2) / 5)%Z.

Definition daysFromCivil (d : Date) : Z :=
  (yearDays (shiftedYear d) + monthDays (shiftedMonth d) + (day d - 1)
   - 719468)%Z.

Definition msPerDay : Z := 86400000.

(** [d.getTime()]; [None] is [NaN]. *)
Definition getTime (d : option Date) : option Z :=
  match d with
  | None => None
  | Some dt => Some (daysFromCivil dt * msPerDay)%Z
  end.

(** [d.getFullYear()]; [None] is [NaN]. *)
Definition getFullYear (d : option Date) : option Z :=
  match d with
  | None => None
  | Some dt => Some (year dt)
  end.

(** [`${n}`] for the result of [getFullYear]. *)
Definition string_of_year (y : option Z) : string :=
  match y with
  | None => "NaN"
  | Some z => string_of_Z z
  end.

(** The abbreviated month names of the [en-GB] locale, as current engines
    have them (CLDR 38 and later): September is "Sept". *)
Definition monthShort (m : Z) : string :=
  match m with
  | 1%Z => "Jan" | 2%Z => "Feb" | 3%Z => "Mar" | 4%Z => "Apr"
  | 5%Z => "May" | 6%Z => "Jun" | 7%Z => "Jul" | 8%Z => "Aug"
  | 9%Z => "Sept" | 10%Z => "Oct" | 11%Z => "Nov" | _ => "Dec"
  end.

(** [d.toLocaleString("en-GB", { month: "short" })] *)
Definition toLocaleString_month_short (d : option Date) : string :=
  match d with
  | None => "Invalid Date"
  | Some dt => monthShort (month dt)
  end.

(** [a - b] on time values; [NaN] propagates. *)
Definition time_sub (a b : option Z) : option Z :=
  match a, b with
  | Some x, Some y => Some (x - y)%Z
  | _, _ => None
  end.

(** ** [Array.prototype.sort]

    The sort is stable (ECMAScript 2019).  A comparator result [v] places
    the first argument after the second only when [v > 0]; [NaN] counts as
    [+0].  For a consistent comparator every stable sort computes the same
    array, so the model is the stable insertion sort. *)

Definition after (v : option Z) : bool :=
  match v with
  | None => false
  | Some z => (0 <? z)%Z
  end.

Section Sort.
Context {A : Type} (compareFn : A -> A -> option Z).

Fixpoint insert (x : A) (l : list A) : list A :=
  match l with
  | [] => [x]
  | y :: l' =>
      if after (compareFn x y) then y :: insert x l' else x :: y :: l'
  end.

Definition sort (l : list A) : list A := fold_right insert [] l.
End Sort.

(** ** [Map<string, number>]: an insertion-ordered association list *)

Definition Map := list (string * number).

Fixpoint Map_get (m : Map) (k : string) : option number :=
  match m with
  | [] => None
  | (k', v) :: m' => if String.eqb k' k then Some v else Map_get m' k
  end.

(** [map.set(k, v)]: an existing key keeps its position, a new key goes
    last. *)
Fixpoint Map_set (m : Map) (k : string) (v : number) : Map :=
  match m with
  | [] => [(k, v)]
  | (k', v') :: m' =>
      if String.eqb k' k then (k', v) :: m' else (k', v') :: Map_set m' k v
  end.

Definition Map_entries (m : Map) : list (string * number) := m.

(** ** [Math.max(...xs)] and [Math.min(...xs)] *)

Inductive xnumber := NegInfinity | Finite (q : number) | PosInfinity.

Definition xmax (a b : xnumber) : xnumber :=
  match a, b with
  | PosInfinity, _ | _, PosInfinity => PosInfinity
  | NegInfinity, x | x, NegInfinity => x
  | Finite x, Finite y => Finite (Qmax x y)
  end.

Definition xmin (a b : xnumber) : xnumber :=
  match a, b with
  | NegInfinity, _ | _, NegInfinity => NegInfinity
  | PosInfinity, x | x, PosInfinity => x
  | Finite x, Finite y => Finite (Qmin x y)
  end.

Definition Math_max (xs : list number) : xnumber :=
  fold_left (fun acc x => xmax acc (Finite x)) xs NegInfinity.

Definition Math_min (xs : list number) : xnumber :=
  fold_left (fun acc x => xmin acc (Finite x)) xs PosInfinity.

(** ** Promises: a settled promise either resolves or rejects *)

Inductive Promise (A : Type) : Type :=
| Resolved (a : A)
| Rejected (reason : string).
Arguments Resolved {A} a.
Arguments Rejected {A} reason.

(** [await p; k]: a rejection propagates to the caller. *)
Definition await {A B : Type} (p : Promise A) (k : A -> Promise B)
  : Promise B :=
  match p with
  | Resolved a => k a
  | Rejected r => Rejected r
  end.

(** [try { body } catch (_err) { handler }] around an async body. *)
Definition try_catch {A : Type} (body : Promise A) (handler : Promise A)
  : Promise A :=
  match body with
  | Resolved a => Resolved a
  | Rejected _ => handler
  end.

End JS.

Notation "x <- p ;; k" := (JS.await p (fun x => k))
  (at level 61, p at next level, right associativity).


(* ================================================================== *)
(** * [services/api.ts]: the data layer *)
(* ================================================================== *)

Module Api.

Inductive Direction := Long | Short.

Record Trade := mkTrade {
  id : string;
  date : string;
  symbol : string;
  direction : Direction;
  entry : number;
  exit : option number;
  size : number;
  pnl : number;
  session : option string;
  notes : option string;
  isExitRecord : option bool
}.

(** [{ ...t, session }] *)
Definition with_session (t : Trade) (s : string) : Trade :=
  {| id := id t; date := date t; symbol := symbol t;
     direction := direction t; entry := entry t; exit := exit t;
     size := size t; pnl := pnl t; session := Some s; notes := notes t;
     isExitRecord := isExitRecord t |}.

(** The part of [RequestInit] the program sets. *)
Record RequestInit := mkInit { method : string; body : string }.

(** What [fetch] hands back: the status flag and the outcome of reading the
    body as JSON at the type the caller expects. *)
Module Response.
Record t (T : Type) := mk { ok : bool; json : JS.Promise T }.
Arguments mk {T} ok json.
Arguments ok {T} _.
Arguments json {T} _.
End Response.

(** The network as [fetch] sees it. *)
Definition Fetch (T : Type) : Type :=
  string -> option RequestInit -> JS.Promise (Response.t T).

Definition tryApi {T : Type} (fetch : Fetch T) (path : string)
    (init : option RequestInit) : JS.Promise (option T) :=
  JS.try_catch
    (res <- fetch path init ;;
     if negb (Response.ok res) then JS.Resolved None
     else (v <- Response.json res ;; JS.Resolved (Some v)))
    (JS.Resolved None).

(** The body of [/api/health] at its declared type [{ ok: boolean }]. *)
Module HealthBody.
Record t := mk { ok : bool }.
End HealthBody.

Inductive Source := api | local.

Module Health.
Record t := mk { ok : bool; source : Source }.
End Health.

(** [apiHealth?.ok] *)
Definition optional_ok (apiHealth : option HealthBody.t) : option bool :=
  match apiHealth with
  | None => None
  | Some b => Some (HealthBody.ok b)
  end.

Definition health (fetch : Fetch HealthBody.t) : JS.Promise Health.t :=
  apiHealth <- tryApi fetch "/api/health" None ;;
  if JS.Boolean_opt_bool (optional_ok apiHealth)
  then JS.Resolved (Health.mk true api)
  else JS.Resolved (Health.mk true local).

End Api.

(* ================================================================== *)
(** * [pages/index.tsx]: the views *)
(* ================================================================== *)

Module Views.
Import Api.

(** [xs.reduce((acc, t) => acc + t.pnl, 0)] *)
Definition sum_pnl (xs : list Trade) : number :=
  fold_left (fun acc t => acc + pnl t) xs 0.

Definition monthFromDate (date : string) : string :=
  let d := JS.newDate date in
  let shortYear := JS.slice_last 2 (JS.string_of_year (JS.getFullYear d)) in
  (JS.toLocaleString_month_short d ++ shortYear)%string.

(** ** [computeDrawdown] *)

(** The three local variables the loop updates. *)
Module Dd.
Record t := mk { peak : number; maxDd : number; equity : number }.
End Dd.

Definition computeDrawdown_step (s : Dd.t) (p : Trade) : Dd.t :=
  let equity := Dd.equity s + pnl p in
  let peak := Qmax (Dd.peak s) equity in
  let maxDd := Qmin (Dd.maxDd s) (equity - peak) in
  Dd.mk peak maxDd equity.

(** The state of the locals after the [forEach] over [series]. *)
Definition computeDrawdown_loop (series : list Trade) : Dd.t :=
  fold_left computeDrawdown_step series (Dd.mk 0 0 0).

Definition computeDrawdown (series : list Trade) : number :=
  Dd.maxDd (computeDrawdown_loop series).

(** ** [DashboardView] *)

Definition filtered (trades : list Trade) (activeMonth : string)
    (exitsOnly : bool) : list Trade :=
  filter
    (fun t =>
       if exitsOnly
       then JS.Boolean_opt_number (exit t)
            || JS.Boolean_opt_bool (isExitRecord t)
       else true)
    (filter (fun t => String.eqb (monthFromDate (date t)) activeMonth)
       trades).

Module Stats.
Record t := mk {
  net : number;
  winRate : number;
  avgWin : number;
  avgLoss : number;
  totalTrades : nat;
  drawdown : number
}.
End Stats.

Definition stats (filtered : list Trade) : Stats.t :=
  let net := sum_pnl filtered in
  let wins := filter (fun t => JS.gt (pnl t) 0) filtered in
  let losses := filter (fun t => JS.lt (pnl t) 0) filtered in
  let winRate :=
    match List.length filtered with
    | O => 0
    | _ => (JS.num (List.length wins) / JS.num (List.length filtered)) * 100
    end in
  let avgWin :=
    match List.length wins with
    | O => 0
    | _ => sum_pnl wins / JS.num (List.length wins)
    end in
  let avgLoss :=
    match List.length losses with
    | O => 0
    | _ => sum_pnl losses / JS.num (List.length losses)
    end in
  let drawdown := computeDrawdown filtered in
  Stats.mk net winRate avgWin avgLoss (List.length filtered) drawdown.

(** A [map] whose callback updates a captured local variable: the variable
    is threaded through the traversal. *)
Fixpoint map_with {S A B : Type} (f : S -> A -> S * B) (s : S) (l : list A)
  : list B :=
  match l with
  | [] => []
  | a :: l' => let (s', b) := f s a in b :: map_with f s' l'
  end.

Module EquityPoint.
Record t := mk { date : string; equity : number; pnl : number }.
End EquityPoint.

(** [new Date(a).getTime() - new Date(b).getTime()] *)
Definition compareDates (a b : string) : option Z :=
  JS.time_sub (JS.getTime (JS.newDate a)) (JS.getTime (JS.newDate b)).

Definition equityCurve (filtered : list Trade) : list EquityPoint.t :=
  map_with
    (fun running trade =>
       let running := running + pnl trade in
       (running, EquityPoint.mk (date trade) running (pnl trade)))
    0
    (JS.sort (fun a b => compareDates (date a) (date b)) filtered).

Module DailyPoint.
Record t := mk { date : string; pnl : number }.
End DailyPoint.

(** The body of the [forEach] of [dailyPnL], and the map it builds. *)
Definition dailyPnL_step (map : JS.Map) (t : Trade) : JS.Map :=
  JS.Map_set map (date t) (JS.nullish (JS.Map_get map (date t)) 0 + pnl t).

Definition dailyMap (filtered : list Trade) : JS.Map :=
  fold_left dailyPnL_step filtered [].

Definition dailyPnL (filtered : list Trade) : list DailyPoint.t :=
  map (fun e => DailyPoint.mk (fst e) (snd e))
    (JS.sort (fun a b => compareDates (fst a) (fst b))
       (JS.Map_entries (dailyMap filtered))).

(** ** [ReportsView] *)

Definition profitFactor (trades : list Trade) : number :=
  let wins :=
    fold_left (fun a b => a + pnl b)
      (filter (fun t => JS.gt (pnl t) 0) trades) 0 in
  let losses :=
    fold_left (fun a b => a + Qabs (pnl b))
      (filter (fun t => JS.lt (pnl t) 0) trades) 0 in
  if JS.Boolean_number losses then wins / losses else wins.

Definition expectancy (trades : list Trade) : number :=
  sum_pnl trades /
  JS.num (match List.length trades with O => 1%nat | n => n end).

Definition best (trades : list Trade) : JS.xnumber :=
  JS.Math_max (map pnl trades).

Definition worst (trades : list Trade) : JS.xnumber :=
  JS.Math_min (map pnl trades).

(** ** [TradingAnalyticsDashboard] *)

(** The state update [assignSession] passes to [setTrades]. *)
Definition assignSession (tradeId : string) (session : string)
    (prev : list Trade) : list Trade :=
  map (fun t => if String.eqb (id t) tradeId then with_session t session else t)
    prev.

End Views.


(* ================================================================== *)
(** * Reference notions the properties are stated against *)
(* ================================================================== *)

Module Ref.
Import Api.

(** The arithmetic sum of the [pnl] of the trades. *)
Fixpoint total (l : list Trade) : number :=
  match l with
  | [] => 0
  | t :: l' => pnl t + total l'
  end.

(** The sum of the positive [pnl]. *)
Fixpoint gross_wins (l : list Trade) : number :=
  match l with
  | [] => 0
  | t :: l' =>
      if Qlt_le_dec 0 (pnl t) then pnl t + gross_wins l' else gross_wins l'
  end.

(** The sum of the absolute values of the negative [pnl]. *)
Fixpoint gross_losses (l : list Trade) : number :=
  match l with
  | [] => 0
  | t :: l' =>
      if Qlt_le_dec (pnl t) 0 then Qabs (pnl t) + gross_losses l'
      else gross_losses l'
  end.

(** The values the running equity takes after each trade, from the value
    [e] it has before the first one. *)
Fixpoint running_from (e : number) (l : list Trade) : list number :=
  match l with
  | [] => []
  | t :: l' => (e + pnl t) :: running_from (e + pnl t) l'
  end.

(** The equity after each trade, as the equity curve plots it. *)
Definition running_equity (l : list Trade) : list number :=
  running_from 0 l.



(** [b] is the greatest, [w] the least, of the amounts [xs]. *)
Definition is_maximum (b : number) (xs : list number) : Prop :=
  In b xs /\ forall x, In x xs -> x <= b.

Definition is_minimum (w : number) (xs : list number) : Prop :=
  In w xs /\ forall x, In x xs -> w <= x.

(** [t'] is [t] up to its [session]. *)
Definition same_but_session (t t' : Trade) : Prop :=
  id t' = id t /\ date t' = date t /\ symbol t' = symbol t /\
  direction t' = direction t /\ entry t' = entry t /\ exit t' = exit t /\
  size t' = size t /\ pnl t' = pnl t /\ notes t' = notes t /\
  isExitRecord t' = isExitRecord t.

(** The string is a calendar date. *)
Definition valid_date (s : string) : bool :=
  match JS.newDate s with
  | Some _ => true
  | None => false
  end.

(** The order of the calendar: by year, then month, then day. *)
Definition calendar_lt (a b : JS.Date) : Prop :=
  (JS.year a < JS.year b \/
   (JS.year a = JS.year b /\
    (JS.month a < JS.month b \/
     (JS.month a = JS.month b /\ JS.day a < JS.day b))))%Z.

Definition calendar_le (a b : JS.Date) : Prop := calendar_lt a b \/ a = b.

(** Both strings are calendar dates and the first is not later than the
    second. *)
Definition date_le (a b : string) : Prop :=
  exists da db,
    JS.newDate a = Some da /\ JS.newDate b = Some db /\ calendar_le da db.

(** The time value of a calendar date (0 for any other string). *)
Definition time_of (s : string) : Z :=
  match JS.getTime (JS.newDate s) with
  | Some z => z
  | None => 0%Z
  end.

(** Ascending order of an integer key. *)
Definition by_key {A : Type} (key : A -> Z) (a b : A) : Prop :=
  (key a <= key b)%Z.

(** Every trade of the sequence is dated by a calendar date. *)
Definition dated (l : list Trade) : bool :=
  forallb (fun t => valid_date (date t)) l.

(** The trades dated [d]. *)
Definition on_date (d : string) (l : list Trade) : list Trade :=
  filter (fun t => String.eqb (date t) d) l.

(** The keys of a map, in insertion order. *)
Definition keys (m : JS.Map) : list string := map fst m.


End Ref.

(* ================================================================== *)
(** * The data of the specification's scenarios *)
(* ================================================================== *)

Module Scenario.
Import Api.

Definition december : list Trade :=
  [mkTrade "T-1004" "2025-12-05" "NAS100" Short 16012 (Some 15870) 2 284
     (Some "London") (Some "Intraday fade") (Some true);
   mkTrade "T-1005" "2025-12-12" "EUR/JPY" Long (1631 # 10) (Some (1624 # 10))
     4 (-280) (Some "Tokyo") (Some "News whipsaw") (Some true);
   mkTrade "T-1006" "2025-12-18" "GBP/USD" Long (1257 # 1000)
     (Some (1262 # 1000)) 5 250 (Some "New York")
     (Some "Trend continuation") (Some true)].

Definition report : list Trade :=
  map (fun p => mkTrade "T" "2024-06-03" "AAPL" Long 1 (Some 2) 1 p
                  None None None)
    [390; 210; -378; 520; -308; 540].

End Scenario.

(* ================================================================== *)
(** * [services/api.ts]: the local store and the fetch-with-fallback calls *)
(* ================================================================== *)

Module Store.
Import Api.

Module Session.
Record t := mk { name : string; region : string; open : string; close : string }.
End Session.

Module Symbol.
Record t := mk { symbol : string; description : string }.
End Symbol.

Inductive Currency := GBP | USD.

Module Settings.
Record t := mk { currency : Currency; timezone : string; defaultMonth : string }.
End Settings.

Record StoredData := mkStored {
  trades : list Trade;
  sessions : list Session.t;
  symbols : list Symbol.t;
  settings : Settings.t
}.

Definition seedData : StoredData :=
  {| trades :=
       [mkTrade "T-1001" "2025-09-04" "NAS100" Long 15432 (Some 15580) 2 296
          (Some "London") (Some "Breakout after CPI") (Some true);
        mkTrade "T-1002" "2025-10-11" "GBP/USD" Short (1245 # 1000)
          (Some (1238 # 1000)) 3 420 (Some "New York")
          (Some "NY open momentum") (Some true);
        mkTrade "T-1003" "2025-11-02" "Gold" Long 1988 (Some 1980) 1 (-160)
          (Some "Tokyo") (Some "Reversal failed") (Some true);
        mkTrade "T-1004" "2025-12-05" "NAS100" Short 16012 (Some 15870) 2 284
          (Some "London") (Some "Intraday fade") (Some true);
        mkTrade "T-1005" "2025-12-12" "EUR/JPY" Long (1631 # 10)
          (Some (1624 # 10)) 4 (-280) (Some "Tokyo") (Some "News whipsaw")
          (Some true);
        mkTrade "T-1006" "2025-12-18" "GBP/USD" Long (1257 # 1000)
          (Some (1262 # 1000)) 5 250 (Some "New York")
          (Some "Trend continuation") (Some true);
        mkTrade "T-1007" "2025-12-22" "Gold" Short 2012 (Some 2002) 2 200
          (Some "London") (Some "Mean reversion") (Some true)];
     sessions :=
       [Session.mk "London" "Europe" "08:00" "16:30";
        Session.mk "New York" "Americas" "13:30" "21:00";
        Session.mk "Tokyo" "Asia" "00:00" "08:00"];
     symbols :=
       [Symbol.mk "NAS100" "US Tech 100 CFD";
        Symbol.mk "GBP/USD" "British Pound / US Dollar";
        Symbol.mk "Gold" "Spot Gold";
        Symbol.mk "EUR/JPY" "Euro / Japanese Yen"];
     settings := Settings.mk GBP "UTC" "Dec25" |}.

(** ** The state the module works on

    [memoryStore] is the module variable.  [window.localStorage] is seen
    through the one key the program uses: the string under it is absent
    ([None]), a string [JSON.parse] reads at the declared type
    ([Encoded d], which is also what [JSON.stringify(d)] stores), or any
    other string ([Unreadable]: the empty string, which [if (raw)] skips,
    or one [JSON.parse] throws on).  [setItem] throws when the quota is
    exhausted ([writable] false); reads do not throw.  [localStorage] is
    [None] when there is no [window] or no [window.localStorage]. *)

Inductive Item := Unreadable | Encoded (d : StoredData).

Record Storage := mkStorage { item : option Item; writable : bool }.

Record World := mkWorld {
  memoryStore : option StoredData;
  localStorage : option Storage
}.

(** A computation on the world that returns or throws; for an [async]
    function, that resolves or rejects. *)
Definition Eff (A : Type) : Type := World -> JS.Promise A * World.

Definition ret {A : Type} (a : A) : Eff A := fun w => (JS.Resolved a, w).

Definition bind {A B : Type} (m : Eff A) (k : A -> Eff B) : Eff B :=
  fun w =>
    match m w with
    | (JS.Resolved a, w') => k a w'
    | (JS.Rejected r, w') => (JS.Rejected r, w')
    end.

(** A call that does not touch the world (a [fetch] whose outcome is
    given). *)
Definition lift {A : Type} (p : JS.Promise A) : Eff A := fun w => (p, w).

Definition set_memoryStore (data : StoredData) : Eff unit :=
  fun w => (JS.Resolved tt, mkWorld (Some data) (localStorage w)).

(** [window.localStorage.setItem(STORAGE_KEY, JSON.stringify(data))], the
    storage being there. *)
Definition setItem (st : Storage) (data : StoredData) : Eff unit :=
  fun w =>
    if writable st
    then (JS.Resolved tt,
          mkWorld (memoryStore w)
            (Some (mkStorage (Some (Encoded data)) (writable st))))
    else (JS.Rejected "QuotaExceededError", w).

Definition getLocal : Eff StoredData :=
  fun w =>
    match memoryStore w with
    | Some m => ret m w
    | None =>
        match localStorage w with
        | None => bind (set_memoryStore seedData) (fun _ => ret seedData) w
        | Some st =>
            match item st with
            | Some (Encoded d) =>
                bind (set_memoryStore d) (fun _ => ret d) w
            | _ =>
                bind (set_memoryStore seedData) (fun _ =>
                bind (setItem st seedData) (fun _ =>
                ret seedData)) w
            end
        end
    end.

Definition persist (data : StoredData) : Eff unit :=
  bind (set_memoryStore data) (fun _ =>
  fun w =>
    match localStorage w with
    | Some st => setItem st data w
    | None => ret tt w
    end).

Definition listTrades (fetch : Fetch (list Trade)) : Eff (list Trade) :=
  bind (lift (tryApi fetch "/api/trades" None)) (fun apiTrades =>
  match apiTrades with
  | Some l => ret l
  | None => bind getLocal (fun store => ret (trades store))
  end).

Definition listSessions (fetch : Fetch (list Session.t))
  : Eff (list Session.t) :=
  bind (lift (tryApi fetch "/api/sessions" None)) (fun apiSessions =>
  match apiSessions with
  | Some l => ret l
  | None => bind getLocal (fun store => ret (sessions store))
  end).

Definition listSymbols (fetch : Fetch (list Symbol.t))
  : Eff (list Symbol.t) :=
  bind (lift (tryApi fetch "/api/symbols" None)) (fun apiSymbols =>
  match apiSymbols with
  | Some l => ret l
  | None => bind getLocal (fun store => ret (symbols store))
  end).

(** [NewTrade = Omit<Trade, "id">] *)
Record NewTrade := mkNew {
  new_date : string;
  new_symbol : string;
  new_direction : Direction;
  new_entry : number;
  new_exit : option number;
  new_size : number;
  new_pnl : number;
  new_session : option string;
  new_notes : option string;
  new_isExitRecord : option bool
}.

(** [{ ...input, id }] *)
Definition with_id (input : NewTrade) (i : string) : Trade :=
  mkTrade i (new_date input) (new_symbol input) (new_direction input)
    (new_entry input) (new_exit input) (new_size input) (new_pnl input)
    (new_session input) (new_notes input) (new_isExitRecord input).

(** [`T-${Date.now()}`], [now] being what [Date.now()] returns. *)
Definition fresh_id (now : Z) : string := ("T-" ++ JS.string_of_Z now)%string.

(** [createTrade]; [stringify] is [JSON.stringify] on a trade and [now]
    the clock reading. *)
Definition createTrade (stringify : Trade -> string) (now : Z)
    (fetch : Fetch Trade) (input : NewTrade) : Eff Trade :=
  let payload := with_id input (fresh_id now) in
  bind (lift (tryApi fetch "/api/trades"
                (Some (mkInit "POST" (stringify payload))))) (fun apiTrade =>
  match apiTrade with
  | Some t => ret t
  | None =>
      bind getLocal (fun store =>
      let updated :=
        mkStored (payload :: trades store) (sessions store) (symbols store)
          (settings store) in
      bind (persist updated) (fun _ => ret payload))
  end).

Definition updateSettings (stringify : Settings.t -> string)
    (fetch : Fetch Settings.t) (new_settings : Settings.t)
  : Eff Settings.t :=
  bind (lift (tryApi fetch "/api/settings"
                (Some (mkInit "POST" (stringify new_settings)))))
    (fun apiSettings =>
  match apiSettings with
  | Some s => ret s
  | None =>
      bind getLocal (fun store =>
      let updated :=
        mkStored (trades store) (sessions store) (symbols store)
          new_settings in
      bind (persist updated) (fun _ => ret new_settings))
  end).

(** A page load: the module variable starts out [null], the browser
    storage is what the last visit left. *)
Definition reload (w : World) : World := mkWorld None (localStorage w).

End Store.

(* ================================================================== *)
(** * [pages/index.tsx]: the report curve and the list updates *)
(* ================================================================== *)

Module App.
Import Api.

Definition monthOptions : list string := ["Sep25"; "Oct25"; "Nov25"; "Dec25"].

(** [ReportsView]'s [curve]: the running sum in the order given. *)
Module CurvePoint.
Record t := mk { date : string; equity : number }.
End CurvePoint.

Definition curve (trades : list Trade) : list CurvePoint.t :=
  Views.map_with
    (fun run t =>
       let run := run + pnl t in
       (run, CurvePoint.mk (date t) run))
    0 trades.

(** The update [handleAddTrade] passes to [setTrades]. *)
Definition addTrade (newTrade : Trade) (prev : list Trade) : list Trade :=
  newTrade :: prev.

(** The updates [addSymbol] and [removeSymbol] pass to [setSymbols]. *)
Definition addSymbol (symbol : Store.Symbol.t) (prev : list Store.Symbol.t)
  : list Store.Symbol.t :=
  prev ++ [symbol].

Definition removeSymbol (sym : string) (prev : list Store.Symbol.t)
  : list Store.Symbol.t :=
  filter (fun s => negb (String.eqb (Store.Symbol.symbol s) sym)) prev.

End App.

(* ================================================================== *)
(** * Further notions, for the properties beyond the specification *)
(* ================================================================== *)

Module Notion.
Import Api.



(** The winning and the losing trades. *)
Definition winners (l : list Trade) : list Trade :=
  filter (fun t => JS.gt (pnl t) 0) l.

Definition losers (l : list Trade) : list Trade :=
  filter (fun t => JS.lt (pnl t) 0) l.

(** The month token of a date. *)
Definition token (d : JS.Date) : string :=
  (JS.monthShort (JS.month d)
   ++ JS.slice_last 2 (JS.string_of_Z (JS.year d)))%string.

(** Both strings are calendar dates and the first is earlier than the
    second. *)
Definition date_lt (a b : string) : Prop :=
  exists da db,
    JS.newDate a = Some da /\ JS.newDate b = Some db /\
    Ref.calendar_lt da db.

(** The browser storage, where there is one, accepts writes. *)
Definition storage_ok (w : Store.World) : bool :=
  match Store.localStorage w with
  | None => true
  | Some st => Store.writable st
  end.

End Notion.

(* ================================================================== *)
(** * [pages/index.tsx]: the dashboard's figures in double precision

    [computeDrawdown] and [DashboardView]'s [stats], [equityCurve] and
    [dailyPnL] once more, with a JavaScript [number] as the IEEE-754
    binary64 value it is: the kernel's primitive [float], whose [+], [-],
    [*], [/] and [<] are the processor's, rounding to nearest, ties to
    even.  The statements in which the order of the additions matters are
    made on these definitions. *)
(* ================================================================== *)

Module Double.
Import PrimFloat SpecFloat FloatOps.
Local Open Scope float_scope.

Definition number := float.

(** ** The runtime on numbers *)

(** [x > y] and [x < y]; false when either is [NaN]. *)
Definition gt (x y : number) : bool := y <? x.
Definition lt (x y : number) : bool := x <? y.

(** An array length used as a number. *)
Definition num (n : nat) : number :=
  SF2Prim (binary_normalize prec emax (Z.of_nat n) 0 false).

(** [Math.max(x, y)] and [Math.min(x, y)]: [NaN] when either is [NaN];
    [+0] counts as greater than [-0]. *)
Definition Math_max (x y : number) : number :=
  if is_nan x || is_nan y then nan
  else if x <? y then y
  else if y <? x then x
  else if get_sign x then y else x.

Definition Math_min (x y : number) : number :=
  if is_nan x || is_nan y then nan
  else if x <? y then x
  else if y <? x then y
  else if get_sign x then x else y.

(** [Map<string, number>]: an insertion-ordered association list. *)
Definition Map := list (string * number).

Fixpoint Map_get (m : Map) (k : string) : option number :=
  match m with
  | [] => None
  | (k', v) :: m' => if String.eqb k' k then Some v else Map_get m' k
  end.

Fixpoint Map_set (m : Map) (k : string) (v : number) : Map :=
  match m with
  | [] => [(k, v)]
  | (k', v') :: m' =>
      if String.eqb k' k then (k', v) :: m' else (k', v') :: Map_set m' k v
  end.

Definition Map_entries (m : Map) : list (string * number) := m.

(** ** The data *)

Record Trade := mkTrade {
  id : string;
  date : string;
  symbol : string;
  direction : Api.Direction;
  entry : number;
  exit : option number;
  size : number;
  pnl : number;
  session : option string;
  notes : option string;
  isExitRecord : option bool
}.

(** ** [computeDrawdown] *)

Module Dd.
Record t := mk { peak : number; maxDd : number; equity : number }.
End Dd.

Definition computeDrawdown_step (s : Dd.t) (p : Trade) : Dd.t :=
  let equity := Dd.equity s + pnl p in
  let peak := Math_max (Dd.peak s) equity in
  let maxDd := Math_min (Dd.maxDd s) (equity - peak) in
  Dd.mk peak maxDd equity.

Definition computeDrawdown (series : list Trade) : number :=
  Dd.maxDd (fold_left computeDrawdown_step series (Dd.mk 0 0 0)).

(** ** [DashboardView] *)

(** [xs.reduce((acc, t) => acc + t.pnl, 0)] *)
Definition sum_pnl (xs : list Trade) : number :=
  fold_left (fun acc t => acc + pnl t) xs 0.

Module Stats.
Record t := mk {
  net : number;
  winRate : number;
  avgWin : number;
  avgLoss : number;
  totalTrades : nat;
  drawdown : number
}.
End Stats.

Definition stats (filtered : list Trade) : Stats.t :=
  let net := sum_pnl filtered in
  let wins := filter (fun t => gt (pnl t) 0) filtered in
  let losses := filter (fun t => lt (pnl t) 0) filtered in
  let winRate :=
    match List.length filtered with
    | O => 0
    | _ => (num (List.length wins) / num (List.length filtered)) * 100
    end in
  let avgWin :=
    match List.length wins with
    | O => 0
    | _ => sum_pnl wins / num (List.length wins)
    end in
  let avgLoss :=
    match List.length losses with
    | O => 0
    | _ => sum_pnl losses / num (List.length losses)
    end in
  let drawdown := computeDrawdown filtered in
  Stats.mk net winRate avgWin avgLoss (List.length filtered) drawdown.

Module EquityPoint.
Record t := mk { date : string; equity : number; pnl : number }.
End EquityPoint.

Definition equityCurve (filtered : list Trade) : list EquityPoint.t :=
  Views.map_with
    (fun running trade =>
       let running := running + pnl trade in
       (running, EquityPoint.mk (date trade) running (pnl trade)))
    0
    (JS.sort (fun a b => Views.compareDates (date a) (date b)) filtered).

Module DailyPoint.
Record t := mk { date : string; pnl : number }.
End DailyPoint.

(** [x ?? 0] on what [map.get] returns. *)
Definition or_zero (x : option number) : number :=
  match x with
  | None => 0
  | Some v => v
  end.

Definition dailyPnL_step (map : Map) (t : Trade) : Map :=
  Map_set map (date t) (or_zero (Map_get map (date t)) + pnl t).

Definition dailyMap (filtered : list Trade) : Map :=
  fold_left dailyPnL_step filtered [].

Definition dailyPnL (filtered : list Trade) : list DailyPoint.t :=
  map (fun e => DailyPoint.mk (fst e) (snd e))
    (JS.sort (fun a b => Views.compareDates (fst a) (fst b))
       (Map_entries (dailyMap filtered))).

(** ** Reference notions

    The real number a double stands for, and what it means for the code's
    additions not to round. *)

(** The value of a finite double, read off its sign, mantissa and
    exponent; [None] for [NaN] and the infinities. *)
Definition spec_value (f : spec_float) : option Q :=
  match f with
  | S754_zero _ => Some 0%Q
  | S754_finite s m e =>
      Some ((if s then -1 else 1) * inject_Z (Zpos m) * Qpower 2 e)%Q
  | S754_infinity _ | S754_nan => None
  end.

Definition value (x : number) : option Q := spec_value (Prim2SF x).

Definition amount (x : number) : Q :=
  match value x with
  | Some q => q
  | None => 0%Q
  end.

(** The double [x] is finite and stands for the real number [q]. *)
Definition has_value (x : number) (q : Q) : Prop :=
  exists q', value x = Some q' /\ (q' == q)%Q.

(** [x + y], as the machine computes it, is the sum of [x] and [y]: both
    are finite and the addition does not round. *)
Definition adds_exactly (x y : number) : bool :=
  match value x, value y, value (x + y) with
  | Some a, Some b, Some c => Qeq_bool (a + b) c
  | _, _, _ => false
  end.

(** Adding the amounts [ps] one after the other to [acc] never rounds. *)
Fixpoint sums_exactly_from (acc : number) (ps : list number) : bool :=
  match ps with
  | [] => true
  | p :: ps' => adds_exactly acc p && sums_exactly_from (acc + p) ps'
  end.

Definition sums_exactly (ps : list number) : bool := sums_exactly_from 0 ps.

(** The arithmetic sum of amounts, and of the [pnl] of trades. *)
Fixpoint sum_amounts (ps : list number) : Q :=
  match ps with
  | [] => 0%Q
  | p :: ps' => (amount p + sum_amounts ps')%Q
  end.

Definition total (l : list Trade) : Q := sum_amounts (map pnl l).

(** The values the running equity takes after each trade, from the value
    [e] it has before the first one. *)
Fixpoint running_from (e : number) (l : list Trade) : list number :=
  match l with
  | [] => []
  | t :: l' => (e + pnl t) :: running_from (e + pnl t) l'
  end.

(** Every trade of the sequence is dated by a calendar date. *)
Definition dated (l : list Trade) : bool :=
  forallb (fun t => Ref.valid_date (date t)) l.

(** The trades dated [d]. *)
Definition on_date (d : string) (l : list Trade) : list Trade :=
  filter (fun t => String.eqb (date t) d) l.

(** The additions [dailyPnL] makes for each date of the input never
    round. *)
Definition days_sum_exactly (l : list Trade) : bool :=
  forallb (fun d => sums_exactly (map pnl (on_date d l))) (map date l).

(** The arithmetic sum of the [pnl] of the emitted daily entries. *)
Definition daily_total (out : list DailyPoint.t) : Q :=
  sum_amounts (map DailyPoint.pnl out).

Definition keys (m : Map) : list string := map fst m.

(** 2^53, the first whole number past which not every whole number is a
    double. *)
Definition two53 : number := 9007199254740992.

(** The double is finite and a whole number. *)
Definition whole_number (x : number) : bool :=
  match value x with
  | Some q => Qeq_bool q (inject_Z (Qfloor q))
  | None => false
  end.

(** The sum of the absolute values of the [pnl]. *)
Fixpoint gross (l : list Trade) : Q :=
  match l with
  | [] => 0%Q
  | t :: l' => (Qabs (amount (pnl t)) + gross l')%Q
  end.

(** The mantissa [m] at the exponent [e] stands for the whole number [z]. *)
Definition represents (m : positive) (e z : Z) : Prop :=
  ((0 <= e)%Z /\ (Zpos m * 2 ^ e)%Z = z) \/
  ((e < 0)%Z /\ Zpos m = (z * 2 ^ (- e))%Z).

End Double.

(* ================================================================== *)
(** * Properties *)
(* ================================================================== *)

Import Api Views.

(** ** Amounts *)

Lemma Qmax_cases (x y : Q) :
  (x <= y /\ Qmax x y == y) \/ (y <= x /\ Qmax x y == x).
Proof.
  destruct (Q.max_spec x y) as [[H E] | [H E]]; [left | right];
    (split; [| exact E]).
  - apply Qlt_le_weak, H.
  - exact H.
Qed.

Lemma Qmin_cases (x y : Q) :
  (x <= y /\ Qmin x y == x) \/ (y <= x /\ Qmin x y == y).
Proof.
  destruct (Q.min_spec x y) as [[H E] | [H E]]; [left | right];
    (split; [| exact E]).
  - apply Qlt_le_weak, H.
  - exact H.
Qed.

Lemma gt_true (x y : Q) : JS.gt x y = true <-> y < x.
Proof.
  unfold JS.gt. rewrite negb_true_iff, <- not_true_iff_false, Qle_bool_iff.
  split; [apply Qnot_le_lt | apply Qlt_not_le].
Qed.

Lemma lt_true (x y : Q) : JS.lt x y = true <-> x < y.
Proof. unfold JS.lt. apply (gt_true y x). Qed.

Lemma gt_false (x y : Q) : JS.gt x y = false <-> x <= y.
Proof. unfold JS.gt. rewrite negb_false_iff. apply Qle_bool_iff. Qed.

Lemma lt_false (x y : Q) : JS.lt x y = false <-> y <= x.
Proof. unfold JS.lt. apply (gt_false y x). Qed.

(** ** Sums *)

Section Sums.

(** A [reduce] that adds [f t] to the accumulator, from any start. *)
Lemma fold_add_acc (f : Trade -> number) (l : list Trade) : forall a,
  fold_left (fun acc t => acc + f t) l a ==
  a + fold_left (fun acc t => acc + f t) l 0.
Proof.
  induction l as [| t l IH]; intros a; simpl.
  - lra.
  - rewrite (IH (a + f t)), (IH (0 + f t)). lra.
Qed.

Lemma sum_pnl_cons t l : sum_pnl (t :: l) == pnl t + sum_pnl l.
Proof. unfold sum_pnl; simpl. rewrite fold_add_acc. lra. Qed.

Lemma sum_pnl_total l : sum_pnl l == Ref.total l.
Proof.
  induction l as [| t l IH]; [reflexivity |].
  rewrite sum_pnl_cons, IH. reflexivity.
Qed.

End Sums.

(** ** Maximum drawdown *)

Section Drawdown.







End Drawdown.


(** ** Summary statistics *)

(** C4.  On the empty trade sequence [stats] fails nowhere and returns the
    record whose net, win rate, average win, average loss, trade count and
    drawdown are all 0. *)
Theorem stats_empty_all_zero :
  stats [] = Stats.mk 0 0 0 0 0%nat 0.
Proof. reflexivity. Qed.

(** ** Reporting metrics *)

Section Reports.

Lemma wins_gross l :
  fold_left (fun a b => a + pnl b) (filter (fun t => JS.gt (pnl t) 0) l) 0 ==
  Ref.gross_wins l.
Proof.
  induction l as [| t l IH]; [reflexivity |].
  cbn [filter Ref.gross_wins].
  destruct (Qlt_le_dec 0 (pnl t)) as [Hpos | Hle].
  - rewrite (proj2 (gt_true _ _) Hpos). cbn [fold_left].
    rewrite fold_add_acc, IH. lra.
  - rewrite (proj2 (gt_false _ _) Hle). exact IH.
Qed.

Lemma losses_gross l :
  fold_left (fun a b => a + Qabs (pnl b))
    (filter (fun t => JS.lt (pnl t) 0) l) 0 ==
  Ref.gross_losses l.
Proof.
  induction l as [| t l IH]; [reflexivity |].
  cbn [filter Ref.gross_losses].
  destruct (Qlt_le_dec (pnl t) 0) as [Hneg | Hle].
  - rewrite (proj2 (lt_true _ _) Hneg). cbn [fold_left].
    rewrite (fold_add_acc (fun b => Qabs (pnl b))), IH. lra.
  - rewrite (proj2 (lt_false _ _) Hle). exact IH.
Qed.

Lemma Qmax_either (x y : Q) : Qmax x y = x \/ Qmax x y = y.
Proof.
  unfold Qmax, GenericMinMax.gmax. destruct (x ?= y); auto.
Qed.

Lemma Qmin_either (x y : Q) : Qmin x y = x \/ Qmin x y = y.
Proof.
  unfold Qmin, GenericMinMax.gmin. destruct (x ?= y); auto.
Qed.

Lemma Math_max_from (xs : list number) : forall a,
  exists b,
    fold_left (fun acc x => JS.xmax acc (JS.Finite x)) xs (JS.Finite a)
    = JS.Finite b /\ Ref.is_maximum b (a :: xs).
Proof.
  induction xs as [| x xs IH]; intros a.
  - exists a. split; [reflexivity |]. split; [left; reflexivity |].
    intros y [<- | []]. lra.
  - destruct (IH (Qmax a x)) as (b & Hb & Hin & Hub).
    exists b. split; [exact Hb |]. split.
    + destruct Hin as [<- | Hin].
      * destruct (Qmax_either a x) as [-> | ->]; simpl; auto.
      * right; right; exact Hin.
    + assert (Hm : Qmax a x <= b) by (apply Hub; left; reflexivity).
      destruct (Qmax_cases a x) as [[H1 H2] | [H1 H2]];
        intros y [<- | [<- | Hy]]; try lra; apply Hub; right; exact Hy.
Qed.

Lemma Math_min_from (xs : list number) : forall a,
  exists w,
    fold_left (fun acc x => JS.xmin acc (JS.Finite x)) xs (JS.Finite a)
    = JS.Finite w /\ Ref.is_minimum w (a :: xs).
Proof.
  induction xs as [| x xs IH]; intros a.
  - exists a. split; [reflexivity |]. split; [left; reflexivity |].
    intros y [<- | []]. lra.
  - destruct (IH (Qmin a x)) as (w & Hw & Hin & Hlb).
    exists w. split; [exact Hw |]. split.
    + destruct Hin as [<- | Hin].
      * destruct (Qmin_either a x) as [-> | ->]; simpl; auto.
      * right; right; exact Hin.
    + assert (Hm : w <= Qmin a x) by (apply Hlb; left; reflexivity).
      destruct (Qmin_cases a x) as [[H1 H2] | [H1 H2]];
        intros y [<- | [<- | Hy]]; try lra; apply Hlb; right; exact Hy.
Qed.

End Reports.



(** C7.  On a non-empty trade sequence [best] is the greatest [pnl] of the
    trades and [worst] the least. *)
Theorem best_is_maximum_worst_is_minimum
    (trades : list Trade) (Hne : trades <> []) :
  exists b w,
    best trades = JS.Finite b /\ worst trades = JS.Finite w /\
    Ref.is_maximum b (map pnl trades) /\ Ref.is_minimum w (map pnl trades).
Proof.
  destruct trades as [| t l]; [contradiction |].
  unfold best, worst, JS.Math_max, JS.Math_min. cbn [map fold_left].
  destruct (Math_max_from (map pnl l) (pnl t)) as (b & Hb & Hmax).
  destruct (Math_min_from (map pnl l) (pnl t)) as (w & Hw & Hmin).
  exists b, w. cbn [JS.xmax JS.xmin]. auto.
Qed.

Lemma best_is_maximum_worst_is_minimum_witness :
  let t p := mkTrade "T" "2024-06-03" "AAPL" Long 1 (Some 2) 1 p
               None None None in
  let trades := map t [390; 210; -378; 520; -308; 540] in
  trades <> [] /\
  exists b w,
    best trades = JS.Finite b /\ worst trades = JS.Finite w /\
    Ref.is_maximum b (map pnl trades) /\ Ref.is_minimum w (map pnl trades).
Proof.
  intros t trades.
  assert (H : trades <> []) by discriminate.
  split; [exact H |].
  exact (best_is_maximum_worst_is_minimum trades H).
Defined.

(** ** Assigning a session *)

Section Assign.

Lemma with_session_same t s : Ref.same_but_session t (with_session t s).
Proof. unfold Ref.same_but_session; simpl; repeat split. Qed.

Lemma assignSession_absent tradeId s prev :
  (forall t, In t prev -> id t <> tradeId) ->
  assignSession tradeId s prev = prev.
Proof.
  unfold assignSession.
  induction prev as [| t l IH]; intros H; [reflexivity |].
  cbn [map].
  destruct (String.eqb_spec (id t) tradeId) as [E | _].
  - exfalso. apply (H t); [left; reflexivity | exact E].
  - f_equal. apply IH. intros u Hu. apply H. right; exact Hu.
Qed.

End Assign.

(** C10.  [assignSession tradeId session] keeps the length and the order of
    the trade list: position by position, a trade whose [id] is [tradeId]
    gets [session] as its session and keeps every other field, and any
    other trade is left as it is.  When no trade has that [id] the list is
    unchanged. *)
Theorem assignSession_changes_only_the_session
    (tradeId session : string) (prev : list Trade) :
  List.length (assignSession tradeId session prev) = List.length prev /\
  (forall i t, nth_error prev i = Some t ->
     exists t', nth_error (assignSession tradeId session prev) i = Some t' /\
       (id t = tradeId ->
        Api.session t' = Some session /\ Ref.same_but_session t t') /\
       (id t <> tradeId -> t' = t)) /\
  ((forall t, In t prev -> id t <> tradeId) ->
   assignSession tradeId session prev = prev).
Proof.
  split; [apply length_map |].
  split; [| apply assignSession_absent].
  intros i t Hi. unfold assignSession.
  rewrite nth_error_map, Hi. cbn [option_map].
  eexists; split; [reflexivity |].
  destruct (String.eqb_spec (id t) tradeId) as [E | E]; split; intros H;
    try contradiction; try reflexivity.
  split; [reflexivity | apply with_session_same].
Qed.

Lemma assignSession_changes_only_the_session_witness :
  let t i s := mkTrade i "2025-12-05" "NAS100" Long 1 (Some 2) 1 284
                 (Some s) None None in
  let prev := [t "T-1004" "London"; t "T-1005" "Tokyo"] in
  (forall u, In u prev -> id u <> "T-9999") /\
  assignSession "T-9999" "New York" prev = prev /\
  assignSession "T-1005" "New York" prev
  = [t "T-1004" "London"; t "T-1005" "New York"].
Proof.
  intros t prev.
  assert (H : forall u, In u prev -> id u <> "T-9999").
  { intros u [<- | [<- | []]]; discriminate. }
  split; [exact H |].
  split; [| reflexivity].
  exact (proj2 (proj2
    (assignSession_changes_only_the_session "T-9999" "New York" prev)) H).
Defined.

(** ** The health probe *)

Section HealthProbe.

(** [tryApi] never rejects. *)
Lemma tryApi_resolves {T : Type} (fetch : Fetch T) path init :
  exists r, tryApi fetch path init = JS.Resolved r.
Proof.
  unfold tryApi.
  destruct (fetch path init) as [res | e]; cbn; [| eauto].
  destruct (Response.ok res); cbn; [| eauto].
  destruct (Response.json res); cbn; eauto.
Qed.

(** [tryApi] hands back a body exactly when the fetch resolved with a
    success status and the body was read. *)
Lemma tryApi_some {T : Type} (fetch : Fetch T) path init (v : T) :
  tryApi fetch path init = JS.Resolved (Some v) <->
  exists res, fetch path init = JS.Resolved res /\
    Response.ok res = true /\ Response.json res = JS.Resolved v.
Proof.
  unfold tryApi. split.
  - destruct (fetch path init) as [res | e]; cbn; [| discriminate].
    destruct (Response.ok res) eqn:Eok; cbn; [| discriminate].
    destruct (Response.json res) as [b | e] eqn:Ej; cbn; [| discriminate].
    intros H; injection H as <-. exists res. auto.
  - intros (res & -> & Hok & Hj); cbn. rewrite Hok, Hj. reflexivity.
Qed.

End HealthProbe.

(** C9.  [health] always resolves, with [ok] true, and never rejects.  Its
    source is [api] exactly when the fetch of [/api/health] resolved with a
    success status and a body whose [ok] is true, and [local] in every
    other case. *)
Theorem health_always_ok (fetch : Fetch HealthBody.t) :
  let backend_ok :=
    exists res, fetch "/api/health" None = JS.Resolved res /\
      Response.ok res = true /\
      Response.json res = JS.Resolved (HealthBody.mk true) in
  exists src,
    health fetch = JS.Resolved (Health.mk true src) /\
    (src = api <-> backend_ok) /\
    (src = local <-> ~ backend_ok).
Proof.
  cbv zeta. unfold health.
  pose proof (tryApi_some fetch "/api/health" None (HealthBody.mk true))
    as Hsome.
  destruct (tryApi fetch "/api/health" None) as [[[[|]] |] | e] eqn:E;
    try (destruct (tryApi_resolves fetch "/api/health" None) as [r Hr];
         congruence);
    cbn.
  - assert (HB : exists res, fetch "/api/health" None = JS.Resolved res /\
      Response.ok res = true /\
      Response.json res = JS.Resolved (HealthBody.mk true))
      by (apply Hsome; reflexivity).
    exists api. split; [reflexivity |].
    split; split; intros H; try reflexivity; try discriminate;
      [exact HB | contradiction].
  - assert (HnB : ~ exists res, fetch "/api/health" None = JS.Resolved res /\
      Response.ok res = true /\
      Response.json res = JS.Resolved (HealthBody.mk true))
      by (intros H; apply Hsome in H; discriminate H).
    exists local. split; [reflexivity |].
    split; split; intros H; try reflexivity; try discriminate;
      [contradiction | exact HnB].
  - assert (HnB : ~ exists res, fetch "/api/health" None = JS.Resolved res /\
      Response.ok res = true /\
      Response.json res = JS.Resolved (HealthBody.mk true))
      by (intros H; apply Hsome in H; discriminate H).
    exists local. split; [reflexivity |].
    split; split; intros H; try reflexivity; try discriminate;
      [contradiction | exact HnB].
Qed.

(** ** Filtering by month and by exit *)

Section Filtering.

(** The test the second [filter] of [filtered] applies when [exitsOnly] is
    set: the exit price is truthy, or the record is flagged as an exit. *)
Lemma exit_test_true (t : Trade) :
  JS.Boolean_opt_number (exit t) || JS.Boolean_opt_bool (isExitRecord t)
  = true <->
  (exists v, exit t = Some v /\ ~ v == 0) \/ isExitRecord t = Some true.
Proof.
  unfold JS.Boolean_opt_number, JS.Boolean_opt_bool, JS.Boolean_number.
  rewrite orb_true_iff. split.
  - intros [H | H].
    + destruct (exit t) as [v |]; [| discriminate].
      left. exists v. split; [reflexivity |].
      apply Qeq_bool_neq, negb_true_iff, H.
    + destruct (isExitRecord t) as [[|] |]; try discriminate. right; reflexivity.
  - intros [(v & -> & Hv) | ->]; [left | right; reflexivity].
    apply negb_true_iff, not_true_iff_false. rewrite Qeq_bool_iff. exact Hv.
Qed.

(** What [filtered] keeps. *)
Lemma filtered_keeps trades activeMonth exitsOnly t :
  In t (filtered trades activeMonth exitsOnly) <->
  In t trades /\ monthFromDate (date t) = activeMonth /\
  (exitsOnly = true ->
   (exists v, exit t = Some v /\ ~ v == 0) \/ isExitRecord t = Some true).
Proof.
  unfold filtered. rewrite !filter_In, String.eqb_eq.
  destruct exitsOnly.
  - rewrite exit_test_true. tauto.
  - intuition discriminate.
Qed.

(** [filtered] is one pass that keeps the survivors in their order. *)
Lemma filtered_one_pass trades activeMonth exitsOnly :
  filtered trades activeMonth exitsOnly =
  filter
    (fun t =>
       String.eqb (monthFromDate (date t)) activeMonth &&
       (if exitsOnly
        then JS.Boolean_opt_number (exit t)
             || JS.Boolean_opt_bool (isExitRecord t)
        else true))
    trades.
Proof.
  unfold filtered.
  induction trades as [| t l IH]; [reflexivity |].
  cbn [filter].
  destruct (String.eqb (monthFromDate (date t)) activeMonth); cbn [andb filter].
  - rewrite IH. reflexivity.
  - exact IH.
Qed.

End Filtering.

(** C2.  A December 2025 trade whose exit price is present and equal to 0,
    and which is not flagged as an exit record, is dropped by [filtered]
    when [exitsOnly] is set: the test on the exit is its truthiness, not
    its presence.  The same trade with any non-zero exit price is kept. *)
Theorem filtered_drops_present_zero_exit :
  let t x := mkTrade "T-2001" "2025-12-18" "WTI" Short 1 (Some x) 1 1
               (Some "London") None (Some false) in
  monthFromDate (date (t 0)) = "Dec25" /\
  exit (t 0) = Some 0 /\
  filtered [t 0] "Dec25" true = [] /\
  filtered [t 0] "Dec25" false = [t 0] /\
  filtered [t (1 # 2)] "Dec25" true = [t (1 # 2)].
Proof. cbv zeta. repeat split; reflexivity. Qed.

(** ** Sorting *)

Section SortFacts.

Context {A : Type} (compareFn : A -> A -> option Z).

Lemma insert_perm x l : Permutation (JS.insert compareFn x l) (x :: l).
Proof.
  induction l as [| y l IH]; cbn [JS.insert]; [reflexivity |].
  destruct (JS.after (compareFn x y)); [| reflexivity].
  rewrite IH. apply perm_swap.
Qed.

Lemma sort_perm l : Permutation (JS.sort compareFn l) l.
Proof.
  induction l as [| x l IH]; cbn [JS.sort fold_right]; [reflexivity |].
  rewrite insert_perm. constructor. exact IH.
Qed.

(** When the comparator is the difference of an integer key on the elements
    at hand, the result is in ascending key order. *)
Context (key : A -> Z).

Lemma insert_sorted x l :
  (forall y, In y l -> JS.after (compareFn x y) = (key y <? key x)%Z) ->
  StronglySorted (Ref.by_key key) l ->
  StronglySorted (Ref.by_key key) (JS.insert compareFn x l).
Proof.
  intros Hc Hs. induction Hs as [| y l Hs IH Hy]; cbn [JS.insert].
  - repeat constructor.
  - rewrite (Hc y (or_introl eq_refl)).
    destruct (Z.ltb_spec (key y) (key x)) as [Hlt | Hge].
    + constructor.
      * apply IH. intros z Hz. apply Hc. right; exact Hz.
      * apply (Permutation_Forall (Permutation_sym (insert_perm x l))).
        constructor; [unfold Ref.by_key; lia | exact Hy].
    + constructor; [constructor; assumption |].
      constructor; [exact Hge |].
      apply (Forall_impl _ (P := (Ref.by_key key) y)); [| exact Hy].
      unfold Ref.by_key; intros; lia.
Qed.

Lemma sort_sorted l :
  (forall x y, In x l -> In y l ->
     JS.after (compareFn x y) = (key y <? key x)%Z) ->
  StronglySorted (Ref.by_key key) (JS.sort compareFn l).
Proof.
  induction l as [| x l IH]; intros Hc; cbn [JS.sort fold_right].
  - constructor.
  - apply insert_sorted.
    + intros y Hy. apply Hc; [left; reflexivity |].
      right. apply (Permutation_in _ (sort_perm l)), Hy.
    + apply IH. intros a b Ha Hb. apply Hc; right; assumption.
Qed.

(** The sort is stable: the elements of any one key keep their order. *)
Lemma insert_same_key x l k :
  (forall y, In y l -> JS.after (compareFn x y) = (key y <? key x)%Z) ->
  filter (fun a => (key a =? k)%Z) (JS.insert compareFn x l)
  = filter (fun a => (key a =? k)%Z) (x :: l).
Proof.
  induction l as [| y l IH]; intros Hc; cbn [JS.insert]; [reflexivity |].
  rewrite (Hc y (or_introl eq_refl)).
  destruct (Z.ltb_spec (key y) (key x)) as [Hlt | _]; [| reflexivity].
  cbn [filter]. rewrite IH by (intros z Hz; apply Hc; right; exact Hz).
  cbn [filter].
  destruct (Z.eqb_spec (key x) k); destruct (Z.eqb_spec (key y) k);
    try reflexivity; lia.
Qed.

Lemma sort_stable l k :
  (forall x y, In x l -> In y l ->
     JS.after (compareFn x y) = (key y <? key x)%Z) ->
  filter (fun a => (key a =? k)%Z) (JS.sort compareFn l)
  = filter (fun a => (key a =? k)%Z) l.
Proof.
  induction l as [| x l IH]; intros Hc; cbn [JS.sort fold_right];
    [reflexivity |].
  rewrite insert_same_key.
  - cbn [filter]. fold (JS.sort compareFn l).
    rewrite IH by (intros a b Ha Hb; apply Hc; right; assumption).
    reflexivity.
  - intros y Hy. apply Hc; [left; reflexivity |].
    right. apply (Permutation_in _ (sort_perm l)), Hy.
Qed.

(** Two arrangements in ascending key order that keep the elements of
    each key in the same order are the same list: any stable sort
    computes what [JS.sort] computes. *)
Lemma stable_sorted_unique l1 : forall l2,
  StronglySorted (Ref.by_key key) l1 ->
  StronglySorted (Ref.by_key key) l2 ->
  (forall k, filter (fun a => (key a =? k)%Z) l1
             = filter (fun a => (key a =? k)%Z) l2) ->
  l1 = l2.
Proof.
  induction l1 as [| x l1 IH]; intros l2 Hs1 Hs2 Hf.
  - destruct l2 as [| y l2]; [reflexivity |].
    specialize (Hf (key y)). cbn [filter] in Hf.
    rewrite Z.eqb_refl in Hf. discriminate Hf.
  - destruct l2 as [| y l2].
    { specialize (Hf (key x)). cbn [filter] in Hf.
      rewrite Z.eqb_refl in Hf. discriminate Hf. }
    inversion Hs1 as [| ? ? Hs1' Hx]; subst.
    inversion Hs2 as [| ? ? Hs2' Hy]; subst.
    rewrite Forall_forall in Hx, Hy. unfold Ref.by_key in Hx, Hy.
    assert (Hk : key x = key y).
    { pose proof (Hf (key x)) as Fx. pose proof (Hf (key y)) as Fy.
      cbn [filter] in Fx, Fy. rewrite Z.eqb_refl in Fx, Fy.
      destruct (Z.eqb_spec (key y) (key x)) as [E | Ne]; [congruence |].
      destruct (Z.eqb_spec (key x) (key y)) as [E | _]; [congruence |].
      assert (Hin2 : In x l2).
      { eapply (proj1 (filter_In _ x l2)). rewrite <- Fx. left; reflexivity. }
      assert (Hin1 : In y l1).
      { eapply (proj1 (filter_In _ y l1)). rewrite Fy. left; reflexivity. }
      specialize (Hx y Hin1). specialize (Hy x Hin2). lia. }
    assert (Hxy : x = y).
    { specialize (Hf (key x)). cbn [filter] in Hf.
      rewrite <- Hk, Z.eqb_refl in Hf. congruence. }
    subst y. f_equal. apply IH; [assumption | assumption |].
    intros k. specialize (Hf k). cbn [filter] in Hf.
    destruct (key x =? k)%Z; congruence.
Qed.

End SortFacts.

(** ** The calendar and the day count *)

Section Calendar.

Local Open Scope Z_scope.

Lemma yearDays_succ y :
  JS.yearDays (y + 1)
  = JS.yearDays y + 365 + (if JS.isLeap (y + 1) then 1 else 0).
Proof.
  unfold JS.yearDays, JS.isLeap.
  destruct (Z.eqb_spec ((y + 1) mod 4) 0);
    destruct (Z.eqb_spec ((y + 1) mod 100) 0);
    destruct (Z.eqb_spec ((y + 1) mod 400) 0); cbn [negb andb orb];
    Z.div_mod_to_equations; lia.
Qed.

Lemma yearDays_mono y1 y2 : y1 <= y2 -> JS.yearDays y1 <= JS.yearDays y2.
Proof.
  intros H. replace y2 with (y1 + Z.of_nat (Z.to_nat (y2 - y1))) by lia.
  induction (Z.to_nat (y2 - y1)) as [| n IH].
  - rewrite Z.add_0_r. lia.
  - rewrite Nat2Z.inj_succ, <- Z.add_1_r, Z.add_assoc, yearDays_succ.
    destruct (JS.isLeap _); lia.
Qed.

Lemma valid_fields d :
  JS.validDate d = true ->
  0 <= JS.year d <= 9999 /\ 1 <= JS.month d <= 12 /\
  1 <= JS.day d <= JS.daysInMonth (JS.year d) (JS.month d).
Proof. unfold JS.validDate. rewrite !andb_true_iff, !Z.leb_le. lia. Qed.

Lemma month_cases m :
  1 <= m <= 12 ->
  m = 1 \/ m = 2 \/ m = 3 \/ m = 4 \/ m = 5 \/ m = 6 \/
  m = 7 \/ m = 8 \/ m = 9 \/ m = 10 \/ m = 11 \/ m = 12.
Proof. lia. Qed.

(** The days a valid date lies into its shifted year. *)
Lemma inYear_bounds d :
  JS.validDate d = true ->
  0 <= JS.monthDays (JS.shiftedMonth d) + (JS.day d - 1)
    <= 364 + (if JS.isLeap (JS.shiftedYear d + 1) then 1 else 0).
Proof.
  intros Hv. destruct (valid_fields d Hv) as (_ & Hm & Hd).
  destruct d as [y m dd]; cbn [JS.year JS.month JS.day] in *.
  unfold JS.shiftedMonth, JS.shiftedYear, JS.monthDays; cbn [JS.month JS.year].
  destruct (Z.leb_spec m 2);
  destruct (month_cases m Hm)
    as [-> | [-> | [-> | [-> | [-> | [-> | [-> | [-> | [-> | [-> | [-> | ->]]]]]]]]]]];
    try lia; cbn in Hd; rewrite ?Z.sub_add;
    destruct (JS.isLeap _); Z.div_mod_to_equations; lia.
Qed.

(** Within a shifted year, an earlier month ends before a later one starts. *)
Lemma month_ends_before d1 d2 :
  JS.validDate d1 = true -> JS.validDate d2 = true ->
  JS.shiftedMonth d1 < JS.shiftedMonth d2 ->
  JS.monthDays (JS.shiftedMonth d1) + (JS.day d1 - 1)
  < JS.monthDays (JS.shiftedMonth d2).
Proof.
  intros Hv1 Hv2.
  destruct (valid_fields d1 Hv1) as (_ & Hm1 & Hd1).
  destruct (valid_fields d2 Hv2) as (_ & Hm2 & _).
  destruct d1 as [y1 m1 dd1], d2 as [y2 m2 dd2];
    cbn [JS.year JS.month JS.day] in *.
  unfold JS.shiftedMonth, JS.monthDays; cbn [JS.month].
  destruct (Z.leb_spec m2 2); destruct (Z.leb_spec m1 2);
  destruct (month_cases m1 Hm1)
    as [-> | [-> | [-> | [-> | [-> | [-> | [-> | [-> | [-> | [-> | [-> | ->]]]]]]]]]]];
    try lia; cbn in Hd1; intros Hlt; try lia;
    try (destruct (JS.isLeap y1)); Z.div_mod_to_equations; lia.
Qed.

(** The shift to years that start in March keeps the order of the
    calendar. *)
Lemma shifted_order a b :
  JS.validDate a = true -> JS.validDate b = true ->
  Ref.calendar_lt a b ->
  JS.shiftedYear a < JS.shiftedYear b \/
  (JS.shiftedYear a = JS.shiftedYear b /\
   (JS.shiftedMonth a < JS.shiftedMonth b \/
    (JS.shiftedMonth a = JS.shiftedMonth b /\ JS.day a < JS.day b))).
Proof.
  intros Ha Hb.
  destruct (valid_fields a Ha) as (_ & Hma & _).
  destruct (valid_fields b Hb) as (_ & Hmb & _).
  unfold Ref.calendar_lt, JS.shiftedYear, JS.shiftedMonth.
  destruct (Z.leb_spec (JS.month a) 2); destruct (Z.leb_spec (JS.month b) 2);
    lia.
Qed.

(** A later calendar date has a greater day count. *)
Lemma daysFromCivil_lt a b :
  JS.validDate a = true -> JS.validDate b = true ->
  Ref.calendar_lt a b -> JS.daysFromCivil a < JS.daysFromCivil b.
Proof.
  intros Ha Hb Hlt. unfold JS.daysFromCivil.
  pose proof (inYear_bounds a Ha) as Ba.
  pose proof (inYear_bounds b Hb) as Bb.
  destruct (shifted_order a b Ha Hb Hlt) as [Hy | [Hy [Hm | [Hm Hd]]]].
  - pose proof (yearDays_succ (JS.shiftedYear a)) as Hs.
    pose proof (yearDays_mono (JS.shiftedYear a + 1) (JS.shiftedYear b)) as Hmono.
    destruct (JS.isLeap (JS.shiftedYear a + 1)); lia.
  - pose proof (month_ends_before a b Ha Hb Hm).
    destruct (valid_fields b Hb) as (_ & _ & Hdb). rewrite Hy. lia.
  - rewrite Hy, Hm. lia.
Qed.

Lemma calendar_trichotomy a b :
  Ref.calendar_lt a b \/ a = b \/ Ref.calendar_lt b a.
Proof.
  destruct a as [y1 m1 d1], b as [y2 m2 d2].
  unfold Ref.calendar_lt; cbn [JS.year JS.month JS.day].
  destruct (Z.lt_trichotomy y1 y2) as [? | [-> | ?]];
    [left; lia | | right; right; lia].
  destruct (Z.lt_trichotomy m1 m2) as [? | [-> | ?]];
    [left; lia | | right; right; lia].
  destruct (Z.lt_trichotomy d1 d2) as [? | [-> | ?]];
    [left; lia | | right; right; lia].
  right; left; reflexivity.
Qed.

(** The day count orders valid dates as the calendar does. *)
Lemma daysFromCivil_le a b :
  JS.validDate a = true -> JS.validDate b = true ->
  (JS.daysFromCivil a <= JS.daysFromCivil b <-> Ref.calendar_le a b).
Proof.
  intros Ha Hb. unfold Ref.calendar_le. split.
  - intros Hle.
    destruct (calendar_trichotomy a b) as [H | [H | H]]; auto.
    pose proof (daysFromCivil_lt b a Hb Ha H). lia.
  - intros [H | ->]; [| lia].
    pose proof (daysFromCivil_lt a b Ha Hb H). lia.
Qed.

Lemma newDate_valid s d : JS.newDate s = Some d -> JS.validDate d = true.
Proof.
  unfold JS.newDate. destruct (JS.dateFields s) as [dt |]; [| discriminate].
  destruct (JS.validDate dt) eqn:E; [| discriminate].
  intros H; injection H as <-. exact E.
Qed.

End Calendar.

(** ** Dates as sort keys *)

Section DateKeys.

Lemma valid_date_time s :
  Ref.valid_date s = true ->
  JS.getTime (JS.newDate s) = Some (Ref.time_of s).
Proof.
  unfold Ref.valid_date, Ref.time_of.
  destruct (JS.newDate s); [reflexivity | discriminate].
Qed.

Lemma compareDates_valid a b :
  Ref.valid_date a = true -> Ref.valid_date b = true ->
  JS.after (compareDates a b) = (Ref.time_of b <? Ref.time_of a)%Z.
Proof.
  intros Ha Hb. unfold compareDates.
  rewrite (valid_date_time a Ha), (valid_date_time b Hb). cbn.
  destruct (Z.ltb_spec 0 (Ref.time_of a - Ref.time_of b));
    destruct (Z.ltb_spec (Ref.time_of b) (Ref.time_of a)); lia || reflexivity.
Qed.

(** On calendar dates the order of the time values is the order of the
    calendar. *)
Lemma by_time_date_le a b :
  Ref.valid_date a = true -> Ref.valid_date b = true ->
  Ref.by_key Ref.time_of a b -> Ref.date_le a b.
Proof.
  unfold Ref.valid_date, Ref.by_key, Ref.time_of, Ref.date_le.
  destruct (JS.newDate a) as [da |] eqn:Ea; [| discriminate].
  destruct (JS.newDate b) as [db |] eqn:Eb; [| discriminate].
  intros _ _ H. exists da, db. split; [reflexivity |]. split; [reflexivity |].
  apply daysFromCivil_le; eauto using newDate_valid.
  cbn [JS.getTime] in H. unfold JS.msPerDay in H. lia.
Qed.

(** A list sorted on the time of a date field whose dates are all calendar
    dates is sorted by date. *)
Lemma sorted_by_time_date_le {A : Type} (f : A -> string) (l : list A) :
  Forall (fun a => Ref.valid_date (f a) = true) l ->
  StronglySorted (Ref.by_key (fun a => Ref.time_of (f a))) l ->
  StronglySorted (fun a b => Ref.date_le (f a) (f b)) l.
Proof.
  intros Hv Hs. induction Hs as [| x l Hs IH Hx]; [constructor |].
  inversion Hv as [| ? ? Hvx Hvl]; subst.
  constructor; [apply IH, Hvl |].
  rewrite Forall_forall in *. intros y Hy.
  apply by_time_date_le; auto. apply (Hx y Hy).
Qed.

(** Sorting records on a date field, all dates being calendar dates. *)
Lemma sort_by_date_sorted {A : Type} (f : A -> string) (l : list A) :
  Forall (fun a => Ref.valid_date (f a) = true) l ->
  StronglySorted (fun a b => Ref.date_le (f a) (f b))
    (JS.sort (fun a b => compareDates (f a) (f b)) l).
Proof.
  intros Hv. apply sorted_by_time_date_le.
  - apply (Permutation_Forall (Permutation_sym (sort_perm _ l))), Hv.
  - apply sort_sorted. rewrite Forall_forall in Hv.
    intros x y Hx Hy. apply compareDates_valid; auto.
Qed.

End DateKeys.

(** ** The equity curve *)

Section Curve.

Lemma StronglySorted_map {A B : Type} (R : B -> B -> Prop) (f : A -> B) l :
  StronglySorted (fun a b => R (f a) (f b)) l <-> StronglySorted R (map f l).
Proof.
  induction l as [| x l IH]; cbn [map].
  - split; constructor.
  - split; intros H; inversion H as [| ? ? Hs Hx]; subst;
      (constructor; [apply IH, Hs |]).
    + apply (proj2 (Forall_map f (R (f x)) l)), Hx.
    + apply (proj1 (Forall_map f (R (f x)) l)), Hx.
Qed.

Lemma last_cons_default {A : Type} (l : list A) : forall d d',
  last (d :: l) d' = last l d.
Proof.
  induction l as [| x l IH]; intros d d'; [reflexivity |].
  change (last (d :: x :: l) d') with (last (x :: l) d').
  rewrite (IH x d'), (IH x d). reflexivity.
Qed.

(** The traversal of [equityCurve], from any value of [running]. *)
Lemma curve_dates l : forall e,
  map EquityPoint.date
    (map_with
       (fun running trade =>
          let running := running + pnl trade in
          (running, EquityPoint.mk (date trade) running (pnl trade)))
       e l)
  = map date l.
Proof.
  induction l as [| t l' IH]; intros e; [reflexivity |].
  cbn [map_with map EquityPoint.date]. f_equal. apply IH.
Qed.

Lemma curve_pnls l : forall e,
  map EquityPoint.pnl
    (map_with
       (fun running trade =>
          let running := running + pnl trade in
          (running, EquityPoint.mk (date trade) running (pnl trade)))
       e l)
  = map pnl l.
Proof.
  induction l as [| t l' IH]; intros e; [reflexivity |].
  cbn [map_with map EquityPoint.pnl]. f_equal. apply IH.
Qed.

Lemma curve_equities l : forall e,
  map EquityPoint.equity
    (map_with
       (fun running trade =>
          let running := running + pnl trade in
          (running, EquityPoint.mk (date trade) running (pnl trade)))
       e l)
  = Ref.running_from e l.
Proof.
  induction l as [| t l' IH]; intros e; [reflexivity |].
  cbn [map_with map EquityPoint.equity Ref.running_from]. f_equal. apply IH.
Qed.

End Curve.

Lemma dated_Forall trades :
  Ref.dated trades = true ->
  Forall (fun t => Ref.valid_date (date t) = true) trades.
Proof. unfold Ref.dated. rewrite forallb_forall, Forall_forall. auto. Qed.

(** ** The daily profit-and-loss series *)

Section Daily.

Lemma Map_set_keys m k v k0 :
  In k0 (Ref.keys (JS.Map_set m k v)) <-> In k0 (Ref.keys m) \/ k0 = k.
Proof.
  unfold Ref.keys.
  induction m as [| [k' v'] m IH]; cbn [JS.Map_set map fst In].
  - intuition congruence.
  - destruct (String.eqb_spec k' k) as [-> | Hne]; cbn [map fst In].
    + intuition congruence.
    + rewrite IH. tauto.
Qed.

Lemma Map_set_nodup m k v :
  NoDup (Ref.keys m) -> NoDup (Ref.keys (JS.Map_set m k v)).
Proof.
  induction m as [| [k' v'] m IH]; cbn [JS.Map_set]; intros H.
  - repeat constructor. intros [].
  - inversion H as [| ? ? Hnin Hnd]; subst.
    destruct (String.eqb_spec k' k) as [-> | Hne].
    + constructor; assumption.
    + change (NoDup (k' :: Ref.keys (JS.Map_set m k v))).
      constructor; [| apply IH, Hnd].
      rewrite Map_set_keys. intros [Hin | ->]; [apply Hnin, Hin | apply Hne; reflexivity].
Qed.

Lemma daily_fold_keys l : forall m k,
  In k (Ref.keys (fold_left dailyPnL_step l m)) <->
  In k (Ref.keys m) \/ In k (map date l).
Proof.
  induction l as [| t l IH]; intros m k; cbn [fold_left map In].
  - tauto.
  - rewrite IH. unfold dailyPnL_step. rewrite Map_set_keys.
    intuition congruence.
Qed.

Lemma daily_fold_nodup l : forall m,
  NoDup (Ref.keys m) -> NoDup (Ref.keys (fold_left dailyPnL_step l m)).
Proof.
  induction l as [| t l IH]; intros m H; cbn [fold_left]; [exact H |].
  apply IH, Map_set_nodup, H.
Qed.

Lemma daily_dates_points m :
  map DailyPoint.date (map (fun e => DailyPoint.mk (fst e) (snd e)) m)
  = Ref.keys m.
Proof. unfold Ref.keys. rewrite map_map. reflexivity. Qed.

End Daily.

Section DailySeries.

Variable trades : list Trade.

Lemma dailyMap_nodup : NoDup (Ref.keys (dailyMap trades)).
Proof. apply daily_fold_nodup. constructor. Qed.

Lemma dailyMap_keys k :
  In k (Ref.keys (dailyMap trades)) <-> In k (map date trades).
Proof.
  unfold dailyMap. rewrite daily_fold_keys. cbn. tauto.
Qed.

Lemma dailyPnL_entries_perm :
  Permutation
    (JS.sort (fun a b => compareDates (fst a) (fst b))
       (JS.Map_entries (dailyMap trades)))
    (dailyMap trades).
Proof. apply sort_perm. Qed.

Lemma dailyPnL_dates_perm :
  Permutation (map DailyPoint.date (dailyPnL trades))
    (Ref.keys (dailyMap trades)).
Proof.
  unfold dailyPnL. rewrite daily_dates_points.
  apply Permutation_map, dailyPnL_entries_perm.
Qed.

End DailySeries.

(* ================================================================== *)
(** * The scenarios of the specification, evaluated *)
(* ================================================================== *)

Section Scenarios.

Import Scenario.

Example december_month_tokens :
  map (fun t => monthFromDate (date t)) december = ["Dec25"; "Dec25"; "Dec25"]
  /\ monthFromDate "2025-09-04" = "Sept25"
  /\ monthFromDate "not a date" = "Invalid DateaN".
Proof. repeat split. Qed.

Example december_stats :
  let s := stats (filtered december "Dec25" true) in
  Stats.net s == 254 /\ Stats.totalTrades s = 3%nat /\
  Stats.winRate s == 200 # 3 /\ Stats.avgWin s == 267 /\
  Stats.avgLoss s == -280 /\ Stats.drawdown s == -280.
Proof. cbv zeta. repeat split; reflexivity. Qed.

Example december_curve :
  equityCurve december
  = [EquityPoint.mk "2025-12-05" 284 284;
     EquityPoint.mk "2025-12-12" 4 (-280);
     EquityPoint.mk "2025-12-18" 254 250].
Proof. reflexivity. Qed.

Example report_metrics :
  profitFactor report == 1660 # 686 /\ expectancy report == 974 # 6 /\
  best report = JS.Finite 540 /\ worst report = JS.Finite (-378) /\
  best [] = JS.NegInfinity /\ worst [] = JS.PosInfinity.
Proof. repeat split; reflexivity. Qed.

End Scenarios.

(* ================================================================== *)
(** * Properties beyond the specification *)
(* ================================================================== *)

(** ** The drawdown as the deepest fall *)

Section DrawdownFall.







End DrawdownFall.


(** ** Bounds on the drawdown *)

Section DrawdownBounds.


Lemma gross_losses_nonneg l : 0 <= Ref.gross_losses l.
Proof.
  induction l as [| t l IH]; cbn [Ref.gross_losses]; [lra |].
  destruct (Qlt_le_dec (pnl t) 0); [| exact IH].
  pose proof (Qabs_nonneg (pnl t)). lra.
Qed.

Lemma gross_wins_nonneg l : 0 <= Ref.gross_wins l.
Proof.
  induction l as [| t l IH]; cbn [Ref.gross_wins]; [lra |].
  destruct (Qlt_le_dec 0 (pnl t)); lra.
Qed.

End DrawdownBounds.


(** ** Rates, averages and ratios *)

Section Ratios.

Lemma num_succ n : JS.num (S n) == JS.num n + 1.
Proof.
  unfold JS.num. rewrite Nat2Z.inj_succ, <- Z.add_1_r, inject_Z_plus.
  reflexivity.
Qed.

Lemma num_zero : JS.num 0 == 0.
Proof. reflexivity. Qed.

Lemma num_nonneg n : 0 <= JS.num n.
Proof.
  induction n as [| n IH]; [rewrite num_zero; lra |].
  rewrite num_succ. lra.
Qed.

Lemma num_pos n : 0 < JS.num (S n).
Proof. rewrite num_succ. pose proof (num_nonneg n). lra. Qed.

Lemma num_le n m : (n <= m)%nat -> JS.num n <= JS.num m.
Proof.
  induction 1 as [| m _ IH]; [apply Qle_refl |]. rewrite num_succ. lra.
Qed.

Lemma num_eq n m : JS.num n == JS.num m -> n = m.
Proof.
  unfold JS.num. intros H.
  apply Nat2Z.inj, (proj1 (inject_Z_injective _ _)), H.
Qed.



Lemma total_wins_losses l :
  Ref.total l == Ref.gross_wins l - Ref.gross_losses l.
Proof.
  induction l as [| t l IH]; cbn [Ref.total Ref.gross_wins Ref.gross_losses];
    [lra |].
  destruct (Qlt_le_dec 0 (pnl t)); destruct (Qlt_le_dec (pnl t) 0);
    try (rewrite (Qabs_neg (pnl t)) by lra); lra.
Qed.

Lemma winners_losers_length l :
  (List.length (Notion.winners l) + List.length (Notion.losers l)
   <= List.length l)%nat.
Proof.
  unfold Notion.winners, Notion.losers.
  induction l as [| t l IH]; cbn [filter List.length]; [lia |].
  destruct (JS.gt (pnl t) 0) eqn:Eg; destruct (JS.lt (pnl t) 0) eqn:El;
    cbn [List.length]; try lia.
  apply gt_true in Eg. apply lt_true in El. lra.
Qed.

Lemma filter_all_length {A : Type} (p : A -> bool) l :
  List.length (filter p l) = List.length l <->
  (forall x, In x l -> p x = true).
Proof.
  induction l as [| a l IH]; cbn [filter List.length].
  - split; [intros _ x [] | reflexivity].
  - pose proof (filter_length_le p l) as Hle.
    destruct (p a) eqn:E; cbn [List.length].
    + split.
      * intros H x [<- | Hx]; [exact E |].
        apply IH; [lia | exact Hx].
      * intros H. f_equal. apply IH. intros x Hx. apply H. right; exact Hx.
    + split; [lia |].
      intros H. specialize (H a (or_introl eq_refl)). congruence.
Qed.

End Ratios.

(** X4.  The win rate lies between 0 and 100; winners and losers together
    are at most all the trades (a trade with [pnl] 0 is neither); and on a
    non-empty sequence the win rate is 100 exactly when every trade has a
    positive [pnl]. *)
Theorem stats_winRate_range (trades : list Trade) :
  0 <= Stats.winRate (stats trades) <= 100 /\
  (List.length (Notion.winners trades) + List.length (Notion.losers trades)
   <= Stats.totalTrades (stats trades))%nat /\
  (trades <> [] ->
   (Stats.winRate (stats trades) == 100 <->
    forall t, In t trades -> 0 < pnl t)).
Proof.
  cbn [stats Stats.winRate Stats.totalTrades].
  fold (Notion.winners trades).
  pose proof (winners_losers_length trades) as Hlen.
  split; [| split; [exact Hlen |]].
  - destruct trades as [| t l]; cbn [List.length]; [lra |].
    set (n := List.length l) in *.
    set (w := List.length (Notion.winners (t :: l))) in *.
    assert (Hw : JS.num w <= JS.num (S n)).
    { apply num_le. change (List.length (t :: l)) with (S n) in Hlen. lia. }
    pose proof (num_pos n) as Hn. pose proof (num_nonneg w) as Hw0.
    assert (H1 : 0 <= JS.num w / JS.num (S n))
      by (apply Qle_shift_div_l; [exact Hn | lra]).
    assert (H2 : JS.num w / JS.num (S n) <= 1)
      by (apply Qle_shift_div_r; [exact Hn | lra]).
    lra.
  - intros Hne. destruct trades as [| t l]; [contradiction |].
    cbn [List.length].
    set (n := List.length l) in *.
    set (w := List.length (Notion.winners (t :: l))) in *.
    pose proof (num_pos n) as Hn.
    assert (Hiff : JS.num w / JS.num (S n) * 100 == 100 <-> w = S n).
    { split.
      - intros H. apply num_eq.
        assert (H1 : JS.num w / JS.num (S n) == 1) by lra.
        rewrite <- (Qmult_div_r (JS.num w) (JS.num (S n))) by lra.
        rewrite H1. lra.
      - intros ->. field. intros H. rewrite H in Hn. discriminate Hn. }
    rewrite Hiff. unfold w, n, Notion.winners.
    change (S (List.length l)) with (List.length (t :: l)).
    rewrite filter_all_length. split; intros H x Hx.
    + apply gt_true, H, Hx.
    + apply gt_true, H, Hx.
Qed.

Lemma stats_winRate_range_witness :
  Scenario.december <> [] /\
  (Stats.winRate (stats Scenario.december) == 100 <->
   forall t, In t Scenario.december -> 0 < pnl t).
Proof.
  assert (H : Scenario.december <> []) by discriminate.
  split; [exact H |].
  exact (proj2 (proj2 (stats_winRate_range Scenario.december)) H).
Defined.



(** X6.  The profit factor is never negative, and on a sequence without a
    losing trade it is the net: both then add up the winning [pnl], in the
    same order. *)
Theorem profitFactor_without_losses (trades : list Trade) :
  0 <= profitFactor trades /\
  ((forall t, In t trades -> 0 <= pnl t) ->
   profitFactor trades == Stats.net (stats trades)).
Proof.
  cbn [stats Stats.net].
  pose proof (gross_wins_nonneg trades) as Hw0.
  pose proof (gross_losses_nonneg trades) as Hl0.
  assert (Hnet : sum_pnl trades
                 == Ref.gross_wins trades - Ref.gross_losses trades)
    by (rewrite sum_pnl_total; apply total_wins_losses).
  assert (Hpf :
    (Ref.gross_losses trades == 0 ->
     profitFactor trades == Ref.gross_wins trades) /\
    (~ Ref.gross_losses trades == 0 ->
     profitFactor trades == Ref.gross_wins trades / Ref.gross_losses trades)).
  { unfold profitFactor, JS.Boolean_number.
    pose proof (wins_gross trades) as Hw. pose proof (losses_gross trades) as Hl.
    set (wins := fold_left _ (filter (fun t => JS.gt (pnl t) 0) trades) 0) in *.
    set (losses := fold_left _ (filter (fun t => JS.lt (pnl t) 0) trades) 0)
      in *.
    destruct (Qeq_bool losses 0) eqn:E; cbn [negb].
    - apply Qeq_bool_iff in E. split; intros H; [exact Hw |].
      exfalso. apply H. rewrite <- Hl. exact E.
    - apply Qeq_bool_neq in E. split; intros H.
      + exfalso. apply E. rewrite Hl. exact H.
      + rewrite Hw, Hl. reflexivity. }
  destruct Hpf as [Hpf0 Hpf1].
  split.
  - destruct (Qeq_dec (Ref.gross_losses trades) 0) as [Hz | Hnz].
    + rewrite (Hpf0 Hz). exact Hw0.
    + rewrite (Hpf1 Hnz).
      assert (Hpos : 0 < Ref.gross_losses trades).
      { destruct (Qlt_le_dec 0 (Ref.gross_losses trades)) as [H | H];
          [exact H |]. exfalso. apply Hnz. lra. }
      apply Qle_shift_div_l; [exact Hpos | lra].
  - intros Hall.
    assert (Hz : Ref.gross_losses trades == 0).
    { clear - Hall. induction trades as [| t l IH]; [reflexivity |].
      cbn [Ref.gross_losses].
      destruct (Qlt_le_dec (pnl t) 0) as [Hneg | _].
      - specialize (Hall t (or_introl eq_refl)). lra.
      - apply IH. intros x Hx. apply Hall. right; exact Hx. }
    rewrite (Hpf0 Hz), Hnet. lra.
Qed.

Lemma profitFactor_without_losses_witness :
  let t p := mkTrade "T" "2025-12-05" "NAS100" Long 1 (Some 2) 1 p
               None None None in
  let trades := [t 284; t 0; t 250] in
  (forall x, In x trades -> 0 <= pnl x) /\
  profitFactor trades == Stats.net (stats trades).
Proof.
  intros t trades.
  assert (H : forall x, In x trades -> 0 <= pnl x).
  { intros x [<- | [<- | [<- | []]]]; cbn; lra. }
  split; [exact H |].
  exact (proj2 (profitFactor_without_losses trades) H).
Defined.

(** ** Date strings *)

Section DateStrings.

Local Open Scope Z_scope.

Lemma digit_ascii c x :
  JS.digit c = Some x -> 0 <= x <= 9 /\ c = ascii_of_nat (Z.to_nat (x + 48)).
Proof.
  unfold JS.digit.
  destruct ((48 <=? Z.of_nat (nat_of_ascii c)) && (Z.of_nat (nat_of_ascii c) <=? 57)) eqn:E;
    [| discriminate].
  apply andb_true_iff in E. destruct E as [E1 E2].
  apply Z.leb_le in E1, E2.
  intros H; injection H as <-. split; [lia |].
  replace (Z.of_nat (nat_of_ascii c) - 48 + 48) with (Z.of_nat (nat_of_ascii c)) by lia.
  rewrite Nat2Z.id, ascii_nat_embedding. reflexivity.
Qed.

Lemma digits2_inj a b a' b' n :
  JS.digits2 a b = Some n -> JS.digits2 a' b' = Some n -> a = a' /\ b = b'.
Proof.
  unfold JS.digits2.
  destruct (JS.digit a) as [x |] eqn:Ea; [| discriminate].
  destruct (JS.digit b) as [y |] eqn:Eb; [| discriminate].
  destruct (JS.digit a') as [x' |] eqn:Ea'; [| discriminate].
  destruct (JS.digit b') as [y' |] eqn:Eb'; [| discriminate].
  apply digit_ascii in Ea, Eb, Ea', Eb'.
  destruct Ea as [Rx ->], Eb as [Ry ->], Ea' as [Rx' ->], Eb' as [Ry' ->].
  intros G1 G2.
  assert (G : 10 * x + y = 10 * x' + y') by congruence.
  assert (x = x' /\ y = y') as [-> ->] by lia. auto.
Qed.

Lemma digits2_range a b n : JS.digits2 a b = Some n -> 0 <= n <= 99.
Proof.
  unfold JS.digits2.
  destruct (JS.digit a) as [x |] eqn:Ea; [| discriminate].
  destruct (JS.digit b) as [y |] eqn:Eb; [| discriminate].
  apply digit_ascii in Ea, Eb. intros H.
  assert (G : 10 * x + y = n) by congruence. lia.
Qed.

Lemma digits4_inj a b c d a' b' c' d' n :
  JS.digits4 a b c d = Some n -> JS.digits4 a' b' c' d' = Some n ->
  a = a' /\ b = b' /\ c = c' /\ d = d'.
Proof.
  unfold JS.digits4.
  destruct (JS.digits2 a b) as [x |] eqn:E1; [| discriminate].
  destruct (JS.digits2 c d) as [y |] eqn:E2; [| discriminate].
  destruct (JS.digits2 a' b') as [x' |] eqn:E1'; [| discriminate].
  destruct (JS.digits2 c' d') as [y' |] eqn:E2'; [| discriminate].
  pose proof (digits2_range _ _ _ E1). pose proof (digits2_range _ _ _ E2).
  pose proof (digits2_range _ _ _ E1'). pose proof (digits2_range _ _ _ E2').
  intros G1 G2.
  assert (G : 100 * x + y = 100 * x' + y') by congruence.
  assert (x = x' /\ y = y') as [-> ->] by lia.
  destruct (digits2_inj _ _ _ _ _ E1 E1') as [-> ->].
  destruct (digits2_inj _ _ _ _ _ E2 E2') as [-> ->]. auto.
Qed.

(** The shape of a string [dateFields] reads. *)
Lemma dateFields_shape s d :
  JS.dateFields s = Some d ->
  exists y1 y2 y3 y4 m1 m2 d1 d2,
    s = String y1 (String y2 (String y3 (String y4 (String "-"
        (String m1 (String m2 (String "-"
        (String d1 (String d2 EmptyString))))))))) /\
    JS.digits4 y1 y2 y3 y4 = Some (JS.year d) /\
    JS.digits2 m1 m2 = Some (JS.month d) /\
    JS.digits2 d1 d2 = Some (JS.day d).
Proof.
  unfold JS.dateFields. intros H.
  destruct s as [| y1 [| y2 [| y3 [| y4 [| c5 [| m1 [| m2 [| c8 [| d1 [| d2 [| ? ?]]]]]]]]]]];
    try discriminate H.
  all: destruct c5 as [[] [] [] [] [] [] [] []]; try discriminate H.
  all: destruct c8 as [[] [] [] [] [] [] [] []]; try discriminate H.
  destruct (JS.digits4 y1 y2 y3 y4) as [y |] eqn:Ey; [| discriminate H].
  destruct (JS.digits2 m1 m2) as [m |] eqn:Em; [| discriminate H].
  destruct (JS.digits2 d1 d2) as [dd |] eqn:Ed; [| discriminate H].
  injection H as <-. cbn [JS.year JS.month JS.day].
  exists y1, y2, y3, y4, m1, m2, d1, d2. auto.
Qed.

Lemma dateFields_inj s s' d :
  JS.dateFields s = Some d -> JS.dateFields s' = Some d -> s = s'.
Proof.
  intros H H'.
  destruct (dateFields_shape s d H)
    as (y1 & y2 & y3 & y4 & m1 & m2 & d1 & d2 & -> & Hy & Hm & Hd).
  destruct (dateFields_shape s' d H')
    as (y1' & y2' & y3' & y4' & m1' & m2' & d1' & d2' & -> & Hy' & Hm' & Hd').
  destruct (digits4_inj _ _ _ _ _ _ _ _ _ Hy Hy') as (-> & -> & -> & ->).
  destruct (digits2_inj _ _ _ _ _ Hm Hm') as (-> & ->).
  destruct (digits2_inj _ _ _ _ _ Hd Hd') as (-> & ->).
  reflexivity.
Qed.

Lemma newDate_inj s s' d :
  JS.newDate s = Some d -> JS.newDate s' = Some d -> s = s'.
Proof.
  unfold JS.newDate.
  destruct (JS.dateFields s) as [dt |] eqn:E; [| discriminate].
  destruct (JS.dateFields s') as [dt' |] eqn:E'; [| discriminate].
  destruct (JS.validDate dt); [| discriminate].
  destruct (JS.validDate dt'); [| discriminate].
  intros H H'. injection H as ->. injection H' as ->.
  exact (dateFields_inj _ _ _ E E').
Qed.

(** Two calendar dates with the same time value are the same string. *)
Lemma time_of_inj a b :
  Ref.valid_date a = true -> Ref.valid_date b = true ->
  Ref.time_of a = Ref.time_of b -> a = b.
Proof.
  unfold Ref.valid_date, Ref.time_of.
  destruct (JS.newDate a) as [da |] eqn:Ea; [| discriminate].
  destruct (JS.newDate b) as [db |] eqn:Eb; [| discriminate].
  intros _ _ H. cbn [JS.getTime] in H. unfold JS.msPerDay in H.
  assert (Hd : JS.daysFromCivil da = JS.daysFromCivil db) by lia.
  pose proof (newDate_valid _ _ Ea) as Va.
  pose proof (newDate_valid _ _ Eb) as Vb.
  destruct (calendar_trichotomy da db) as [Hlt | [Heq | Hlt]].
  - pose proof (daysFromCivil_lt _ _ Va Vb Hlt). lia.
  - subst db. exact (newDate_inj _ _ _ Ea Eb).
  - pose proof (daysFromCivil_lt _ _ Vb Va Hlt). lia.
Qed.

Lemma date_le_by_time a b :
  Ref.date_le a b -> Ref.by_key Ref.time_of a b.
Proof.
  intros (da & db & Ea & Eb & Hle).
  unfold Ref.by_key, Ref.time_of. rewrite Ea, Eb. cbn [JS.getTime].
  pose proof (newDate_valid a da Ea) as Va.
  pose proof (newDate_valid b db Eb) as Vb.
  apply (daysFromCivil_le da db Va Vb) in Hle.
  unfold JS.msPerDay. lia.
Qed.

Lemma date_le_valid a b :
  Ref.date_le a b -> Ref.valid_date a = true /\ Ref.valid_date b = true.
Proof.
  intros (da & db & Ea & Eb & _). unfold Ref.valid_date.
  rewrite Ea, Eb. auto.
Qed.

End DateStrings.

(** ** The curves on ordered input, and ties *)

Section CurveOrder.

Lemma compareDates_date_le a b :
  Ref.date_le a b -> JS.after (compareDates a b) = false.
Proof.
  intros H. destruct (date_le_valid a b H) as [Va Vb].
  rewrite (compareDates_valid a b Va Vb).
  apply Z.ltb_ge. apply (date_le_by_time a b H).
Qed.

(** Sorting by date leaves a list already in date order as it is. *)
Lemma sort_by_date_id {A : Type} (f : A -> string) (l : list A) :
  StronglySorted (fun a b => Ref.date_le (f a) (f b)) l ->
  JS.sort (fun a b => compareDates (f a) (f b)) l = l.
Proof.
  induction 1 as [| x l Hs IH Hx]; [reflexivity |].
  cbn [JS.sort fold_right]. fold (JS.sort (fun a b => compareDates (f a) (f b)) l).
  rewrite IH. destruct l as [| y l']; [reflexivity |].
  cbn [JS.insert].
  rewrite compareDates_date_le; [reflexivity |].
  apply (Forall_inv Hx).
Qed.

Lemma report_curve_equities l : forall e,
  map App.CurvePoint.equity
    (map_with
       (fun run t =>
          let run := run + pnl t in (run, App.CurvePoint.mk (date t) run))
       e l)
  = Ref.running_from e l.
Proof.
  induction l as [| t l' IH]; intros e; [reflexivity |].
  cbn [map_with map App.CurvePoint.equity Ref.running_from]. f_equal. apply IH.
Qed.

(** The [pnl] of the curve points of one date are the [pnl] of the trades
    of that date, in the order of the traversed list. *)
Lemma curve_pnls_on_date d l : forall e,
  map EquityPoint.pnl
    (filter (fun p => String.eqb (EquityPoint.date p) d)
       (map_with
          (fun running trade =>
             let running := running + pnl trade in
             (running, EquityPoint.mk (date trade) running (pnl trade)))
          e l))
  = map pnl (Ref.on_date d l).
Proof.
  unfold Ref.on_date.
  induction l as [| t l' IH]; intros e; [reflexivity |].
  cbn [map_with filter EquityPoint.date].
  destruct (String.eqb (date t) d); cbn [map EquityPoint.pnl];
    rewrite IH; reflexivity.
Qed.

(** On calendar dates, sorting by date keeps the records of one date in
    their order. *)
Lemma sort_by_date_ties {A : Type} (f : A -> string) (l : list A) d :
  Forall (fun a => Ref.valid_date (f a) = true) l ->
  filter (fun a => String.eqb (f a) d)
    (JS.sort (fun a b => compareDates (f a) (f b)) l)
  = filter (fun a => String.eqb (f a) d) l.
Proof.
  intros Hv.
  set (sorted := JS.sort (fun a b => compareDates (f a) (f b)) l).
  assert (Hvs : Forall (fun a => Ref.valid_date (f a) = true) sorted)
    by (apply (Permutation_Forall (Permutation_sym (sort_perm _ l))), Hv).
  rewrite Forall_forall in Hv, Hvs.
  destruct (Ref.valid_date d) eqn:Vd.
  - assert (Hext : forall l',
      (forall a, In a l' -> Ref.valid_date (f a) = true) ->
      filter (fun a => String.eqb (f a) d) l'
      = filter (fun a => (Ref.time_of (f a) =? Ref.time_of d)%Z) l').
    { intros l' Hl'. apply filter_ext_in. intros a Ha.
      destruct (String.eqb_spec (f a) d) as [-> | Hne].
      - symmetry. apply Z.eqb_refl.
      - symmetry. apply Z.eqb_neq. intros Heq. apply Hne.
        apply time_of_inj; auto. }
    rewrite (Hext sorted Hvs), (Hext l Hv).
    apply (sort_stable _ (fun a => Ref.time_of (f a))).
    intros x y Hx Hy. apply compareDates_valid; auto.
  - assert (Hnone : forall l',
      (forall a, In a l' -> Ref.valid_date (f a) = true) ->
      filter (fun a => String.eqb (f a) d) l' = []).
    { intros l' Hl'. induction l' as [| a l' IH]; [reflexivity |].
      cbn [filter].
      destruct (String.eqb_spec (f a) d) as [E | _].
      - specialize (Hl' a (or_introl eq_refl)). congruence.
      - apply IH. intros b Hb. apply Hl'. right; exact Hb. }
    rewrite (Hnone sorted Hvs), (Hnone l Hv). reflexivity.
Qed.

(** A list in date order without two equal dates is in strict date
    order. *)
Lemma sorted_nodup_strict (l : list string) :
  StronglySorted Ref.date_le l -> NoDup l ->
  StronglySorted Notion.date_lt l.
Proof.
  induction 1 as [| x l Hs IH Hx]; intros Hnd; [constructor |].
  inversion Hnd as [| ? ? Hnin Hnd']; subst.
  constructor; [apply IH, Hnd' |].
  rewrite Forall_forall in *. intros y Hy.
  destruct (Hx y Hy) as (da & db & Ea & Eb & [Hlt | Heq]).
  - exists da, db. auto.
  - exfalso. subst db. apply Hnin.
    rewrite (newDate_inj _ _ _ Ea Eb). exact Hy.
Qed.

End CurveOrder.

(** X8.  On trades already in date order the sort of [equityCurve]
    changes nothing: the curve has the trades' dates and [pnl] in the
    order given, and its equity values are those of the report curve and
    the running equity [computeDrawdown] scans. *)
Theorem equityCurve_of_date_ordered_trades (trades : list Trade)
    (Hsorted : StronglySorted
                 (fun a b => Ref.date_le (date a) (date b)) trades) :
  map EquityPoint.date (equityCurve trades) = map date trades /\
  map EquityPoint.pnl (equityCurve trades) = map pnl trades /\
  map EquityPoint.equity (equityCurve trades)
  = map App.CurvePoint.equity (App.curve trades) /\
  map EquityPoint.equity (equityCurve trades) = Ref.running_equity trades.
Proof.
  unfold equityCurve, App.curve, Ref.running_equity.
  rewrite (sort_by_date_id date trades Hsorted).
  rewrite curve_dates, curve_pnls, curve_equities, report_curve_equities.
  auto.
Qed.

Lemma equityCurve_of_date_ordered_trades_witness :
  StronglySorted (fun a b => Ref.date_le (date a) (date b))
    Scenario.december /\
  map EquityPoint.equity (equityCurve Scenario.december)
  = Ref.running_equity Scenario.december.
Proof.
  assert (H : StronglySorted (fun a b => Ref.date_le (date a) (date b))
                Scenario.december).
  { apply (sorted_by_time_date_le date).
    - repeat constructor.
    - repeat constructor; unfold Ref.by_key; vm_compute; discriminate. }
  split; [exact H |].
  exact (proj2 (proj2 (proj2
    (equityCurve_of_date_ordered_trades Scenario.december H)))).
Defined.

(** X9.  Trades of the same date keep their order in the equity curve:
    for trades dated by calendar dates, the [pnl] of the curve points of a
    date are the [pnl] of the trades of that date in input order. *)
Theorem equityCurve_keeps_same_date_order (trades : list Trade) (d : string)
    (Hdated : Ref.dated trades = true) :
  map EquityPoint.pnl
    (filter (fun p => String.eqb (EquityPoint.date p) d) (equityCurve trades))
  = map pnl (Ref.on_date d trades).
Proof.
  unfold equityCurve. rewrite curve_pnls_on_date. unfold Ref.on_date.
  rewrite (sort_by_date_ties date trades d (dated_Forall trades Hdated)).
  reflexivity.
Qed.

Lemma equityCurve_keeps_same_date_order_witness :
  let t d p := mkTrade "T" d "NAS100" Long 1 (Some 2) 1 p None None None in
  let trades :=
    [t "2025-12-18" 250; t "2025-12-05" 284; t "2025-12-18" (-30);
     t "2025-12-05" 16] in
  Ref.dated trades = true /\
  map EquityPoint.pnl
    (filter (fun p => String.eqb (EquityPoint.date p) "2025-12-05")
       (equityCurve trades))
  = [284; 16].
Proof.
  intros t trades.
  assert (H : Ref.dated trades = true) by reflexivity.
  split; [exact H |].
  exact (equityCurve_keeps_same_date_order trades "2025-12-05" H).
Defined.

(** X10.  For trades dated by calendar dates the entries of [dailyPnL] are
    in strictly ascending date order: no two entries fall on the same
    day. *)
Theorem dailyPnL_strictly_ascending (trades : list Trade)
    (Hdated : Ref.dated trades = true) :
  StronglySorted
    (fun p q => Notion.date_lt (DailyPoint.date p) (DailyPoint.date q))
    (dailyPnL trades).
Proof.
  apply (proj2 (StronglySorted_map Notion.date_lt DailyPoint.date _)).
  apply sorted_nodup_strict.
  - unfold dailyPnL. rewrite daily_dates_points.
    apply (proj1 (StronglySorted_map Ref.date_le fst _)).
    apply (sort_by_date_sorted fst).
    apply Forall_forall. intros [k v] Hkv. cbn [fst].
    assert (Hk : In k (map date trades)).
    { apply dailyMap_keys. apply (in_map fst _ _ Hkv). }
    apply in_map_iff in Hk. destruct Hk as (t & <- & Ht).
    pose proof (dated_Forall trades Hdated) as Hall.
    rewrite Forall_forall in Hall. apply Hall, Ht.
  - apply (Permutation_NoDup (Permutation_sym (dailyPnL_dates_perm trades))).
    apply dailyMap_nodup.
Qed.

Lemma dailyPnL_strictly_ascending_witness :
  Ref.dated Scenario.december = true /\
  StronglySorted
    (fun p q => Notion.date_lt (DailyPoint.date p) (DailyPoint.date q))
    (dailyPnL Scenario.december).
Proof.
  assert (H : Ref.dated Scenario.december = true) by reflexivity.
  split; [exact H |].
  exact (dailyPnL_strictly_ascending Scenario.december H).
Defined.

(** ** Filters, composed *)

Section FilterAlgebra.

Lemma filter_twice {A : Type} (p : A -> bool) l :
  filter p (filter p l) = filter p l.
Proof.
  induction l as [| a l IH]; [reflexivity |].
  cbn [filter]. destruct (p a) eqn:E; cbn [filter]; rewrite ?E, IH; reflexivity.
Qed.

Lemma filter_and {A : Type} (p q : A -> bool) l :
  filter p (filter q l) = filter (fun a => q a && p a) l.
Proof.
  induction l as [| a l IH]; [reflexivity |].
  cbn [filter]. destruct (q a); cbn [filter andb]; rewrite IH; reflexivity.
Qed.

Lemma filter_none {A : Type} (p : A -> bool) l :
  (forall a, In a l -> p a = false) -> filter p l = [].
Proof.
  induction l as [| a l IH]; intros H; [reflexivity |].
  cbn [filter]. rewrite (H a (or_introl eq_refl)).
  apply IH. intros b Hb. apply H. right; exact Hb.
Qed.

End FilterAlgebra.

(** X11.  Filtering composes as a user of the month chips and the exits
    switch expects: filtering a filtered list again with the same
    settings changes nothing; the exits-only view is the exits-only
    filter of the month view, hence a part of it; and a list filtered for
    one month holds nothing of another month. *)
Theorem filtered_composes (trades : list Trade) (m m' : string)
    (e e' : bool) :
  filtered (filtered trades m e) m e = filtered trades m e /\
  filtered (filtered trades m false) m true = filtered trades m true /\
  (forall t, In t (filtered trades m true) ->
             In t (filtered trades m false)) /\
  (List.length (filtered trades m true)
   <= List.length (filtered trades m false) <= List.length trades)%nat /\
  (m <> m' -> filtered (filtered trades m e) m' e' = []).
Proof.
  assert (Hsub : filtered (filtered trades m false) m true
                 = filtered trades m true).
  { rewrite !filtered_one_pass, filter_and. apply filter_ext.
    intros t. destruct (String.eqb _ m); reflexivity. }
  split; [| split; [exact Hsub | split; [| split]]].
  - rewrite !filtered_one_pass. apply filter_twice.
  - intros t. rewrite !filtered_keeps. intuition discriminate.
  - split.
    + rewrite <- Hsub. rewrite (filtered_one_pass (filtered trades m false)).
      apply filter_length_le.
    + rewrite filtered_one_pass. apply filter_length_le.
  - intros Hne. rewrite (filtered_one_pass (filtered trades m e)).
    apply filter_none. intros t Ht.
    apply filtered_keeps in Ht. destruct Ht as (_ & Hm & _).
    rewrite Hm. apply String.eqb_neq in Hne. rewrite Hne. reflexivity.
Qed.

Lemma filtered_composes_witness :
  "Dec25" <> "Nov25" /\
  filtered (filtered (Store.trades Store.seedData) "Dec25" true)
    "Nov25" false = [].
Proof.
  assert (H : "Dec25" <> "Nov25") by discriminate.
  split; [exact H |].
  exact (proj2 (proj2 (proj2 (proj2
    (filtered_composes (Store.trades Store.seedData) "Dec25" "Nov25"
       true false)))) H).
Defined.

(** ** Relabelling trades *)

Section Relabel.

(** A change of the trades that keeps date, profit and the exit data. *)
Variable f : Trade -> Trade.
Hypothesis f_pnl : forall t, pnl (f t) = pnl t.
Hypothesis f_date : forall t, date (f t) = date t.
Hypothesis f_exit : forall t, exit (f t) = exit t.
Hypothesis f_flag : forall t, isExitRecord (f t) = isExitRecord t.

Lemma relabel_filter (p : Trade -> bool) l :
  (forall t, p (f t) = p t) -> filter p (map f l) = map f (filter p l).
Proof.
  intros Hp. induction l as [| t l IH]; [reflexivity |].
  cbn [map filter]. rewrite Hp.
  destruct (p t); cbn [map]; rewrite IH; reflexivity.
Qed.

Lemma relabel_fold {B : Type} (g : B -> number -> B) l : forall a,
  fold_left (fun acc t => g acc (pnl t)) (map f l) a
  = fold_left (fun acc t => g acc (pnl t)) l a.
Proof.
  induction l as [| t l IH]; intros a; [reflexivity |].
  cbn [map fold_left]. rewrite f_pnl. apply IH.
Qed.

Lemma relabel_sum l : sum_pnl (map f l) = sum_pnl l.
Proof. apply (relabel_fold (fun acc x => acc + x)). Qed.

Lemma relabel_drawdown l : computeDrawdown (map f l) = computeDrawdown l.
Proof.
  unfold computeDrawdown, computeDrawdown_loop. f_equal.
  apply (relabel_fold
           (fun s x =>
              Dd.mk (Qmax (Dd.peak s) (Dd.equity s + x))
                (Qmin (Dd.maxDd s)
                   (Dd.equity s + x - Qmax (Dd.peak s) (Dd.equity s + x)))
                (Dd.equity s + x))).
Qed.

Lemma relabel_filtered l m e :
  filtered (map f l) m e = map f (filtered l m e).
Proof.
  unfold filtered.
  rewrite !relabel_filter
    by (intros t; rewrite ?f_date, ?f_exit, ?f_flag; reflexivity).
  reflexivity.
Qed.

Lemma relabel_stats l : stats (map f l) = stats l.
Proof.
  unfold stats.
  rewrite !relabel_filter by (intros t; rewrite f_pnl; reflexivity).
  rewrite !relabel_sum, !length_map, relabel_drawdown. reflexivity.
Qed.

Lemma relabel_insert x l :
  JS.insert (fun a b => compareDates (date a) (date b)) (f x) (map f l)
  = map f (JS.insert (fun a b => compareDates (date a) (date b)) x l).
Proof.
  induction l as [| y l IH]; [reflexivity |].
  cbn [map JS.insert]. rewrite !f_date.
  destruct (JS.after (compareDates (date x) (date y))); cbn [map];
    [rewrite IH |]; reflexivity.
Qed.

Lemma relabel_sort l :
  JS.sort (fun a b => compareDates (date a) (date b)) (map f l)
  = map f (JS.sort (fun a b => compareDates (date a) (date b)) l).
Proof.
  induction l as [| x l IH]; [reflexivity |].
  cbn [map JS.sort fold_right].
  fold (JS.sort (fun a b => compareDates (date a) (date b)) (map f l)).
  fold (JS.sort (fun a b => compareDates (date a) (date b)) l).
  rewrite IH. apply relabel_insert.
Qed.

Lemma relabel_curve_from l : forall e,
  map_with
    (fun running trade =>
       let running := running + pnl trade in
       (running, EquityPoint.mk (date trade) running (pnl trade)))
    e (map f l)
  = map_with
      (fun running trade =>
         let running := running + pnl trade in
         (running, EquityPoint.mk (date trade) running (pnl trade)))
      e l.
Proof.
  induction l as [| t l IH]; intros e; [reflexivity |].
  cbn [map map_with]. rewrite f_pnl, f_date, IH. reflexivity.
Qed.

Lemma relabel_equityCurve l : equityCurve (map f l) = equityCurve l.
Proof. unfold equityCurve. rewrite relabel_sort. apply relabel_curve_from. Qed.

Lemma relabel_dailyMap l : forall m,
  fold_left dailyPnL_step (map f l) m = fold_left dailyPnL_step l m.
Proof.
  induction l as [| t l IH]; intros m; [reflexivity |].
  cbn [map fold_left]. unfold dailyPnL_step at 2 4.
  rewrite f_pnl, f_date. apply IH.
Qed.

Lemma relabel_dailyPnL l : dailyPnL (map f l) = dailyPnL l.
Proof. unfold dailyPnL, dailyMap. rewrite relabel_dailyMap. reflexivity. Qed.

Lemma relabel_profitFactor l : profitFactor (map f l) = profitFactor l.
Proof.
  unfold profitFactor.
  rewrite !relabel_filter by (intros t; rewrite f_pnl; reflexivity).
  rewrite (relabel_fold (fun a x => a + x)).
  rewrite (relabel_fold (fun a x => a + Qabs x)). reflexivity.
Qed.

End Relabel.

(** X12.  Assigning a session changes no figure and commutes with the
    filter: the statistics, the equity curve, the daily series and the
    profit factor of the updated list are those of the list before, and
    filtering the updated list is updating the filtered list. *)
Theorem assignSession_preserves_analytics
    (tradeId session : string) (trades : list Trade) (m : string) (e : bool) :
  filtered (assignSession tradeId session trades) m e
  = assignSession tradeId session (filtered trades m e) /\
  stats (assignSession tradeId session trades) = stats trades /\
  equityCurve (assignSession tradeId session trades) = equityCurve trades /\
  dailyPnL (assignSession tradeId session trades) = dailyPnL trades /\
  profitFactor (assignSession tradeId session trades) = profitFactor trades.
Proof.
  unfold assignSession.
  set (f := fun t : Trade =>
              if String.eqb (id t) tradeId then with_session t session else t).
  assert (Hp : forall t, pnl (f t) = pnl t)
    by (intros t; unfold f; destruct (String.eqb _ _); reflexivity).
  assert (Hd : forall t, date (f t) = date t)
    by (intros t; unfold f; destruct (String.eqb _ _); reflexivity).
  assert (Hx : forall t, exit (f t) = exit t)
    by (intros t; unfold f; destruct (String.eqb _ _); reflexivity).
  assert (Hf : forall t, isExitRecord (f t) = isExitRecord t)
    by (intros t; unfold f; destruct (String.eqb _ _); reflexivity).
  split; [apply relabel_filtered; assumption |].
  split; [apply relabel_stats; assumption |].
  split; [apply relabel_equityCurve; assumption |].
  split; [apply relabel_dailyPnL; assumption |].
  apply relabel_profitFactor; assumption.
Qed.

(** X13.  Assigning twice to the same trade keeps the last session, and
    assigning the same session twice is assigning it once. *)
Theorem assignSession_last_wins
    (tradeId s1 s2 : string) (trades : list Trade) :
  assignSession tradeId s2 (assignSession tradeId s1 trades)
  = assignSession tradeId s2 trades.
Proof.
  unfold assignSession. rewrite map_map. apply map_ext. intros t.
  destruct (String.eqb (id t) tradeId) eqn:E.
  - cbn [with_session id]. rewrite E. reflexivity.
  - rewrite E. reflexivity.
Qed.

(** ** The symbol list *)

Lemma filter_all {A : Type} (p : A -> bool) l :
  (forall a, In a l -> p a = true) -> filter p l = l.
Proof.
  induction l as [| a l IH]; intros H; [reflexivity |].
  cbn [filter]. rewrite (H a (or_introl eq_refl)). f_equal.
  apply IH. intros b Hb. apply H. right; exact Hb.
Qed.

(** X14.  [removeSymbol] keeps, in their order, exactly the rows whose
    symbol differs from the given one: a single row is kept or dropped by
    its symbol, and the result on a concatenation is the concatenation of
    the results.  [addSymbol] puts the new row after the rows there were,
    which all stay in place, whether or not the symbol is already listed.
    Removing a symbol just added gives the list without that symbol, which
    is the list before when the symbol was new. *)
Theorem symbols_add_then_remove
    (sym description : string) (prev : list Store.Symbol.t) :
  (forall x, In x (App.removeSymbol sym prev) <->
             In x prev /\ Store.Symbol.symbol x <> sym) /\
  (forall l1 l2,
     App.removeSymbol sym (l1 ++ l2)
     = (App.removeSymbol sym l1 ++ App.removeSymbol sym l2)%list) /\
  (forall x,
     (Store.Symbol.symbol x = sym -> App.removeSymbol sym [x] = []) /\
     (Store.Symbol.symbol x <> sym -> App.removeSymbol sym [x] = [x])) /\
  (forall s,
     List.length (App.addSymbol s prev) = S (List.length prev) /\
     (forall i, (i < List.length prev)%nat ->
                nth_error (App.addSymbol s prev) i = nth_error prev i) /\
     nth_error (App.addSymbol s prev) (List.length prev) = Some s) /\
  App.removeSymbol sym
    (App.addSymbol (Store.Symbol.mk sym description) prev)
  = App.removeSymbol sym prev /\
  ((forall x, In x prev -> Store.Symbol.symbol x <> sym) ->
   App.removeSymbol sym
     (App.addSymbol (Store.Symbol.mk sym description) prev)
   = prev).
Proof.
  unfold App.removeSymbol, App.addSymbol.
  assert (Hrm : filter (fun s => negb (String.eqb (Store.Symbol.symbol s) sym))
                  (prev ++ [Store.Symbol.mk sym description])
                = filter
                    (fun s => negb (String.eqb (Store.Symbol.symbol s) sym))
                    prev).
  { rewrite filter_app. cbn [filter Store.Symbol.symbol].
    rewrite String.eqb_refl. cbn [negb]. apply app_nil_r. }
  split; [| split; [| split; [| split; [| split; [exact Hrm |]]]]].
  - intros x. rewrite filter_In, negb_true_iff, String.eqb_neq. reflexivity.
  - intros l1 l2. apply filter_app.
  - intros x. cbn [filter]. split; intros H.
    + rewrite (proj2 (String.eqb_eq _ _) H). reflexivity.
    + rewrite (proj2 (String.eqb_neq _ _) H). reflexivity.
  - intros s. split; [| split].
    + rewrite length_app. cbn [List.length]. lia.
    + intros i Hi. apply nth_error_app1, Hi.
    + rewrite nth_error_app2 by lia. rewrite Nat.sub_diag. reflexivity.
  - intros Hnew. rewrite Hrm. apply filter_all. intros x Hx.
    apply negb_true_iff, String.eqb_neq, Hnew, Hx.
Qed.

Lemma symbols_add_then_remove_witness :
  (forall x, In x (Store.symbols Store.seedData) ->
             Store.Symbol.symbol x <> "BTC/USD") /\
  App.removeSymbol "BTC/USD"
    (App.addSymbol (Store.Symbol.mk "BTC/USD" "Bitcoin")
       (Store.symbols Store.seedData))
  = Store.symbols Store.seedData.
Proof.
  assert (H : forall x, In x (Store.symbols Store.seedData) ->
                        Store.Symbol.symbol x <> "BTC/USD").
  { intros x [<- | [<- | [<- | [<- | []]]]]; discriminate. }
  split; [exact H |].
  exact (proj2 (proj2 (proj2 (proj2 (proj2
    (symbols_add_then_remove "BTC/USD" "Bitcoin"
       (Store.symbols Store.seedData)))))) H).
Defined.

(** ** The month chips *)

Section MonthChips.

Local Open Scope Z_scope.

Lemma monthFromDate_token s d :
  JS.newDate s = Some d -> monthFromDate s = Notion.token d.
Proof. intros H. unfold monthFromDate, Notion.token. rewrite H. reflexivity. Qed.

Lemma monthFromDate_invalid s :
  JS.newDate s = None -> monthFromDate s = "Invalid DateaN"%string.
Proof. intros H. unfold monthFromDate. rewrite H. reflexivity. Qed.

End MonthChips.

(** X15.  With the month abbreviations the [en-GB] locale has in current
    engines ("Sept" for September), [monthFromDate] never yields the token
    "Sep25", which is the first of the month chips: that chip lists no
    trade, whatever the trades and the exits switch, and a September date
    comes under no chip at all. *)
Theorem Sep25_chip_lists_nothing (trades : list Trade) (exitsOnly : bool) :
  In "Sep25" App.monthOptions /\
  (forall s, monthFromDate s <> "Sep25") /\
  filtered trades "Sep25" exitsOnly = [] /\
  (forall s d,
     JS.newDate s = Some d -> JS.month d = 9%Z ->
     ~ In (monthFromDate s) App.monthOptions).
Proof.
  assert (Hne : forall s, monthFromDate s <> "Sep25").
  { intros s. destruct (JS.newDate s) as [d |] eqn:E.
    - rewrite (monthFromDate_token s d E). unfold Notion.token.
      destruct (valid_fields d (newDate_valid s d E)) as (_ & Hm & _).
      destruct (month_cases (JS.month d) Hm)
        as [M | [M | [M | [M | [M | [M | [M | [M | [M | [M | [M | M]]]]]]]]]]];
        rewrite M; cbn [JS.monthShort String.append]; discriminate.
    - rewrite (monthFromDate_invalid s E). discriminate. }
  split; [left; reflexivity |]. split; [exact Hne |]. split.
  - rewrite filtered_one_pass. apply filter_none. intros t _.
    apply andb_false_intro1. apply String.eqb_neq, Hne.
  - intros s d E M.
    rewrite (monthFromDate_token s d E). unfold Notion.token.
    rewrite M. cbn [JS.monthShort String.append App.monthOptions In].
    intros [G | [G | [G | [G | []]]]]; discriminate G.
Qed.

(** ** The fetch wrapper *)

(** X16.  [tryApi] never rejects: whatever [fetch] does, it resolves, and
    it resolves with a body exactly when [fetch] resolved with a success
    status and the body could be read; a rejected fetch, another status
    or an unreadable body all give [null]. *)
Theorem tryApi_never_rejects {T : Type} (fetch : Fetch T) (path : string)
    (init : option RequestInit) :
  exists r,
    tryApi fetch path init = JS.Resolved r /\
    (forall v,
       r = Some v <->
       exists res, fetch path init = JS.Resolved res /\
                   Response.ok res = true /\ Response.json res = JS.Resolved v).
Proof.
  destruct (tryApi_resolves fetch path init) as [r Hr].
  exists r. split; [exact Hr |].
  intros v. rewrite <- tryApi_some, Hr.
  split; [intros -> | intros H; injection H as ->]; reflexivity.
Qed.

(** ** The local store *)

Section LocalStore.

Import Store.

Lemma getLocal_cases w :
  (exists m, memoryStore w = Some m /\ getLocal w = (JS.Resolved m, w)) \/
  (memoryStore w = None /\ localStorage w = None /\
   getLocal w = (JS.Resolved seedData, mkWorld (Some seedData) None)) \/
  (exists st d,
     memoryStore w = None /\ localStorage w = Some st /\
     item st = Some (Encoded d) /\
     getLocal w = (JS.Resolved d, mkWorld (Some d) (Some st))) \/
  (exists st,
     memoryStore w = None /\ localStorage w = Some st /\
     (item st = None \/ item st = Some Unreadable) /\ writable st = true /\
     getLocal w
     = (JS.Resolved seedData,
        mkWorld (Some seedData)
          (Some (mkStorage (Some (Encoded seedData)) true)))) \/
  (exists st,
     memoryStore w = None /\ localStorage w = Some st /\
     (item st = None \/ item st = Some Unreadable) /\ writable st = false /\
     getLocal w
     = (JS.Rejected "QuotaExceededError",
        mkWorld (Some seedData) (Some st))).
Proof.
  destruct w as [[m |] [[it wr] |]].
  - left. exists m. auto.
  - left. exists m. auto.
  - right; right.
    destruct it as [[| d] |].
    + right. destruct wr; [left | right].
      * exists (mkStorage (Some Unreadable) true). cbn. auto 10.
      * exists (mkStorage (Some Unreadable) false). cbn. auto 10.
    + left. exists (mkStorage (Some (Encoded d)) wr), d. cbn. auto.
    + right. destruct wr; [left | right].
      * exists (mkStorage None true). cbn. auto 10.
      * exists (mkStorage None false). cbn. auto 10.
  - right; left. cbn. auto.
Qed.

End LocalStore.

(** X17.  A successful [getLocal] leaves the data it returns in the memory
    store, so that every later call returns the same data and changes
    nothing; and it never replaces a readable item of the browser
    storage. *)
Theorem getLocal_settles (w w' : Store.World) (d : Store.StoredData)
    (H : Store.getLocal w = (JS.Resolved d, w')) :
  Store.memoryStore w' = Some d /\
  Store.getLocal w' = (JS.Resolved d, w') /\
  (forall st d0,
     Store.localStorage w = Some st ->
     Store.item st = Some (Store.Encoded d0) ->
     Store.localStorage w' = Some st).
Proof.
  destruct (getLocal_cases w)
    as [(m & Hm & E) | [(Hm & Hl & E) | [(st & d1 & Hm & Hl & Hi & E)
        | [(st & Hm & Hl & Hi & Hw & E) | (st & Hm & Hl & Hi & Hw & E)]]]];
    rewrite E in H; try discriminate H; injection H as <- <-.
  - split; [exact Hm |]. split; [exact E |]. intros st d0 Hs _. exact Hs.
  - split; [reflexivity |]. split; [reflexivity |].
    intros st d0 Hs. congruence.
  - split; [reflexivity |]. split; [reflexivity |].
    intros st0 d0 Hs _. cbn. congruence.
  - split; [reflexivity |]. split; [reflexivity |].
    intros st0 d0 Hs Hd0. assert (st0 = st) by congruence. subst st0.
    destruct Hi as [Hi | Hi]; congruence.
Qed.

Lemma getLocal_settles_witness :
  let w := Store.mkWorld None (Some (Store.mkStorage None true)) in
  let w' := Store.mkWorld (Some Store.seedData)
              (Some (Store.mkStorage (Some (Store.Encoded Store.seedData))
                       true)) in
  Store.getLocal w = (JS.Resolved Store.seedData, w') /\
  Store.getLocal w' = (JS.Resolved Store.seedData, w').
Proof.
  intros w w'.
  assert (H : Store.getLocal w = (JS.Resolved Store.seedData, w'))
    by reflexivity.
  split; [exact H |].
  exact (proj1 (proj2 (getLocal_settles w w' Store.seedData H))).
Defined.

(** X18.  [getLocal] throws only on a first call that finds a browser
    storage holding no readable item and refusing the write of the seed
    data; the memory store is seeded all the same, so that the next call
    returns the seed data. *)
Theorem getLocal_throws_once (w w' : Store.World) (r : string)
    (H : Store.getLocal w = (JS.Rejected r, w')) :
  Store.memoryStore w = None /\
  (exists st,
     Store.localStorage w = Some st /\ Store.writable st = false /\
     (Store.item st = None \/ Store.item st = Some Store.Unreadable)) /\
  w' = Store.mkWorld (Some Store.seedData) (Store.localStorage w) /\
  Store.getLocal w' = (JS.Resolved Store.seedData, w').
Proof.
  destruct (getLocal_cases w)
    as [(m & Hm & E) | [(Hm & Hl & E) | [(st & d1 & Hm & Hl & Hi & E)
        | [(st & Hm & Hl & Hi & Hw & E) | (st & Hm & Hl & Hi & Hw & E)]]]];
    rewrite E in H; try discriminate H; injection H as <- <-.
  split; [exact Hm |]. split; [exists st; auto |].
  rewrite Hl. split; reflexivity.
Qed.

Lemma getLocal_throws_once_witness :
  let w := Store.mkWorld None
             (Some (Store.mkStorage (Some Store.Unreadable) false)) in
  let w' := Store.mkWorld (Some Store.seedData)
              (Some (Store.mkStorage (Some Store.Unreadable) false)) in
  Store.getLocal w = (JS.Rejected "QuotaExceededError", w') /\
  Store.getLocal w' = (JS.Resolved Store.seedData, w').
Proof.
  intros w w'.
  assert (H : Store.getLocal w = (JS.Rejected "QuotaExceededError", w'))
    by reflexivity.
  split; [exact H |].
  exact (proj2 (proj2 (proj2
    (getLocal_throws_once w w' "QuotaExceededError" H)))).
Defined.

Section Fallback.

Import Store.

Lemma persist_cases data w :
  match localStorage w with
  | None => persist data w = (JS.Resolved tt, mkWorld (Some data) None)
  | Some st =>
      if writable st
      then persist data w
           = (JS.Resolved tt,
              mkWorld (Some data)
                (Some (mkStorage (Some (Encoded data)) true)))
      else persist data w
           = (JS.Rejected "QuotaExceededError",
              mkWorld (Some data) (Some st))
  end.
Proof.
  destruct w as [m [[it [|]] |]]; reflexivity.
Qed.

(** The storage a successful [getLocal] leaves accepts writes when the one
    it found did. *)
Lemma getLocal_storage_ok w d w' :
  getLocal w = (JS.Resolved d, w') ->
  Notion.storage_ok w' = Notion.storage_ok w /\
  (localStorage w' = None <-> localStorage w = None).
Proof.
  intros H.
  destruct (getLocal_cases w)
    as [(m & Hm & E) | [(Hm & Hl & E) | [(st & d1 & Hm & Hl & Hi & E)
        | [(st & Hm & Hl & Hi & Hw & E) | (st & Hm & Hl & Hi & Hw & E)]]]];
    rewrite E in H; try discriminate H; injection H as <- <-;
    unfold Notion.storage_ok; try rewrite Hl; cbn; try rewrite Hw;
    split; try reflexivity; split; intros; congruence.
Qed.

Lemma getLocal_rejects_not_ok w r w' :
  getLocal w = (JS.Rejected r, w') -> Notion.storage_ok w = false.
Proof.
  intros H.
  destruct (getLocal_cases w)
    as [(m & Hm & E) | [(Hm & Hl & E) | [(st & d1 & Hm & Hl & Hi & E)
        | [(st & Hm & Hl & Hi & Hw & E) | (st & Hm & Hl & Hi & Hw & E)]]]];
    rewrite E in H; try discriminate H.
  unfold Notion.storage_ok. rewrite Hl. exact Hw.
Qed.

Lemma listTrades_local (fetch : Fetch (list Trade)) w m :
  tryApi fetch "/api/trades" None = JS.Resolved None ->
  memoryStore w = Some m ->
  listTrades fetch w = (JS.Resolved (trades m), w).
Proof.
  intros Hdown Hm. unfold listTrades, bind, lift. rewrite Hdown.
  destruct w as [ms ls]. cbn in Hm. subst ms. reflexivity.
Qed.

Lemma createTrade_local stringify now (fetch : Fetch Trade) input w store w1 :
  tryApi fetch "/api/trades"
    (Some (mkInit "POST" (stringify (with_id input (fresh_id now)))))
  = JS.Resolved None ->
  getLocal w = (JS.Resolved store, w1) ->
  createTrade stringify now fetch input w
  = match persist
            (mkStored (with_id input (fresh_id now) :: trades store)
               (sessions store) (symbols store) (settings store)) w1 with
    | (JS.Resolved _, w2) =>
        (JS.Resolved (with_id input (fresh_id now)), w2)
    | (JS.Rejected r, w2) => (JS.Rejected r, w2)
    end.
Proof.
  intros Hdown Hg. unfold createTrade. cbv zeta.
  unfold bind at 1, lift. rewrite Hdown.
  unfold bind at 1. rewrite Hg. unfold bind, ret.
  destruct (persist _ w1) as [[[] | r] w2]; reflexivity.
Qed.

End Fallback.

(** X19.  With the API unavailable and, where there is a browser storage,
    the storage accepting writes, [createTrade] returns the input under
    the id ["T-" + now] and a following [listTrades] returns that trade
    ahead of the trades the local store held. *)
Theorem createTrade_then_listTrades
    (stringify : Trade -> string) (now : Z)
    (fetchC : Fetch Trade) (fetchL : Fetch (list Trade))
    (input : Store.NewTrade) (w : Store.World)
    (Hok : Notion.storage_ok w = true)
    (HdownC :
       tryApi fetchC "/api/trades"
         (Some (mkInit "POST"
                  (stringify (Store.with_id input (Store.fresh_id now)))))
       = JS.Resolved None)
    (HdownL : tryApi fetchL "/api/trades" None = JS.Resolved None) :
  exists store w1 w2,
    Store.getLocal w = (JS.Resolved store, w1) /\
    Store.createTrade stringify now fetchC input w
    = (JS.Resolved (Store.with_id input (Store.fresh_id now)), w2) /\
    Store.listTrades fetchL w2
    = (JS.Resolved
         (Store.with_id input (Store.fresh_id now) :: Store.trades store),
       w2).
Proof.
  destruct (Store.getLocal w) as [[store | r] w1] eqn:Hg.
  - exists store, w1.
    destruct (getLocal_storage_ok w store w1 Hg) as [Hok1 _].
    rewrite Hok in Hok1.
    set (updated :=
      Store.mkStored
        (Store.with_id input (Store.fresh_id now) :: Store.trades store)
        (Store.sessions store) (Store.symbols store) (Store.settings store)).
    pose proof (persist_cases updated w1) as Hp.
    rewrite (createTrade_local stringify now fetchC input w store w1 HdownC Hg).
    fold updated.
    unfold Notion.storage_ok in Hok1.
    destruct (Store.localStorage w1) as [st |].
    + rewrite Hok1 in Hp. rewrite Hp. eexists. split; [reflexivity |].
      split; [reflexivity |].
      apply (listTrades_local fetchL _ updated HdownL). reflexivity.
    + rewrite Hp. eexists. split; [reflexivity |].
      split; [reflexivity |].
      apply (listTrades_local fetchL _ updated HdownL). reflexivity.
  - exfalso. rewrite (getLocal_rejects_not_ok w r w1 Hg) in Hok.
    discriminate Hok.
Qed.

Lemma createTrade_then_listTrades_witness :
  let stringify := fun t : Trade => id t in
  let offline T : Fetch T := fun _ _ => JS.Rejected "offline" in
  let input := Store.mkNew "2025-12-23" "Gold" Long 2010 None 1 0
                 (Some "London") (Some "") (Some true) in
  let w := Store.mkWorld None None in
  Notion.storage_ok w = true /\
  exists store w1 w2,
    Store.getLocal w = (JS.Resolved store, w1) /\
    Store.createTrade stringify 1766448000000 (offline Trade) input w
    = (JS.Resolved
         (Store.with_id input (Store.fresh_id 1766448000000)), w2) /\
    Store.listTrades (offline (list Trade)) w2
    = (JS.Resolved
         (Store.with_id input (Store.fresh_id 1766448000000)
          :: Store.trades store), w2).
Proof.
  intros stringify offline input w.
  assert (H : Notion.storage_ok w = true) by reflexivity.
  split; [exact H |].
  exact (createTrade_then_listTrades stringify 1766448000000
           (offline Trade) (offline (list Trade)) input w H
           eq_refl eq_refl).
Defined.

(** X20.  A trade created on the fallback path survives a page load
    exactly when there is a browser storage: after the load [listTrades]
    (the API still unavailable) returns it ahead of the earlier trades
    when a writable storage exists, and returns the seed trades, without
    it, when there is none. *)
Theorem created_trade_and_reload
    (stringify : Trade -> string) (now : Z)
    (fetchC : Fetch Trade) (fetchL : Fetch (list Trade))
    (input : Store.NewTrade) (w w1 w2 : Store.World)
    (store : Store.StoredData)
    (Hok : Notion.storage_ok w = true)
    (HdownC :
       tryApi fetchC "/api/trades"
         (Some (mkInit "POST"
                  (stringify (Store.with_id input (Store.fresh_id now)))))
       = JS.Resolved None)
    (HdownL : tryApi fetchL "/api/trades" None = JS.Resolved None)
    (Hget : Store.getLocal w = (JS.Resolved store, w1))
    (Hcreate : Store.createTrade stringify now fetchC input w
               = (JS.Resolved (Store.with_id input (Store.fresh_id now)),
                  w2)) :
  (Store.localStorage w <> None ->
   fst (Store.listTrades fetchL (Store.reload w2))
   = JS.Resolved
       (Store.with_id input (Store.fresh_id now) :: Store.trades store)) /\
  (Store.localStorage w = None ->
   fst (Store.listTrades fetchL (Store.reload w2))
   = JS.Resolved (Store.trades Store.seedData)).
Proof.
  destruct (getLocal_storage_ok w store w1 Hget) as [Hok1 Hnone].
  rewrite Hok in Hok1.
  set (updated :=
    Store.mkStored
      (Store.with_id input (Store.fresh_id now) :: Store.trades store)
      (Store.sessions store) (Store.symbols store) (Store.settings store)).
  pose proof (persist_cases updated w1) as Hp.
  rewrite (createTrade_local stringify now fetchC input w store w1 HdownC Hget)
    in Hcreate.
  fold updated in Hcreate.
  unfold Notion.storage_ok in Hok1.
  unfold Store.listTrades, Store.bind, Store.lift. rewrite HdownL.
  destruct (Store.localStorage w1) as [st |] eqn:El.
  - rewrite Hok1 in Hp. rewrite Hp in Hcreate. injection Hcreate as <-.
    split; [intros _; reflexivity |].
    intros Hn. apply Hnone in Hn. discriminate Hn.
  - rewrite Hp in Hcreate. injection Hcreate as <-.
    split; [| intros _; reflexivity].
    intros Hn. exfalso. apply Hn, Hnone. reflexivity.
Qed.

Lemma created_trade_and_reload_witness :
  let stringify := fun t : Trade => id t in
  let offline T : Fetch T := fun _ _ => JS.Rejected "offline" in
  let input := Store.mkNew "2025-12-23" "Gold" Long 2010 None 1 0
                 (Some "London") (Some "") (Some true) in
  let payload := Store.with_id input (Store.fresh_id 1766448000000) in
  let w := Store.mkWorld None (Some (Store.mkStorage None true)) in
  let w1 := Store.mkWorld (Some Store.seedData)
              (Some (Store.mkStorage (Some (Store.Encoded Store.seedData))
                       true)) in
  let updated := Store.mkStored (payload :: Store.trades Store.seedData)
                   (Store.sessions Store.seedData)
                   (Store.symbols Store.seedData)
                   (Store.settings Store.seedData) in
  let w2 := Store.mkWorld (Some updated)
              (Some (Store.mkStorage (Some (Store.Encoded updated)) true)) in
  Store.localStorage w <> None /\
  fst (Store.listTrades (offline (list Trade)) (Store.reload w2))
  = JS.Resolved (payload :: Store.trades Store.seedData).
Proof.
  intros stringify offline input payload w w1 updated w2.
  assert (H : Store.localStorage w <> None) by discriminate.
  split; [exact H |].
  exact (proj1
    (created_trade_and_reload stringify 1766448000000
       (offline Trade) (offline (list Trade)) input w w1 w2 Store.seedData
       eq_refl eq_refl eq_refl eq_refl eq_refl) H).
Defined.

(** X21.  When the browser storage refuses writes, [createTrade] on the
    fallback path always rejects, and the browser storage is left as it
    was.  If the local data could be loaded (the memory store was set, or
    the storage held a readable item), it is [persist] that throws, after
    it has put the trade into the memory store: a following [listTrades]
    returns the trade ahead of the earlier ones.  If loading itself failed
    (a first call that finds no readable item, so that writing the seed
    data throws inside [getLocal]), the trade is lost: a following
    [listTrades] returns the seed trades. *)
Theorem createTrade_rejects_after_storing
    (stringify : Trade -> string) (now : Z)
    (fetchC : Fetch Trade) (fetchL : Fetch (list Trade))
    (input : Store.NewTrade) (w : Store.World)
    (Hfull : Notion.storage_ok w = false)
    (HdownC :
       tryApi fetchC "/api/trades"
         (Some (mkInit "POST"
                  (stringify (Store.with_id input (Store.fresh_id now)))))
       = JS.Resolved None)
    (HdownL : tryApi fetchL "/api/trades" None = JS.Resolved None) :
  exists w2,
    Store.createTrade stringify now fetchC input w
    = (JS.Rejected "QuotaExceededError", w2) /\
    Store.localStorage w2 = Store.localStorage w /\
    (forall store w1,
       Store.getLocal w = (JS.Resolved store, w1) ->
       Store.listTrades fetchL w2
       = (JS.Resolved
            (Store.with_id input (Store.fresh_id now) :: Store.trades store),
          w2)) /\
    (forall r w1,
       Store.getLocal w = (JS.Rejected r, w1) ->
       Store.listTrades fetchL w2
       = (JS.Resolved (Store.trades Store.seedData), w2)).
Proof.
  destruct (Store.getLocal w) as [[store | r] w1] eqn:Hget.
  - destruct (getLocal_storage_ok w store w1 Hget) as [Hok1 _].
    rewrite Hfull in Hok1.
    assert (Hls : Store.localStorage w1 = Store.localStorage w).
    { destruct (getLocal_cases w)
        as [(m & Hm & E) | [(Hm & Hl & E) | [(st & d1 & Hm & Hl & Hi & E)
            | [(st & Hm & Hl & Hi & Hw & E) | (st & Hm & Hl & Hi & Hw & E)]]]];
        rewrite E in Hget; try discriminate Hget; injection Hget as <- <-;
        try reflexivity.
      - rewrite Hl. reflexivity.
      - rewrite Hl. reflexivity.
      - unfold Notion.storage_ok in Hfull. rewrite Hl, Hw in Hfull.
        discriminate Hfull. }
    set (updated :=
      Store.mkStored
        (Store.with_id input (Store.fresh_id now) :: Store.trades store)
        (Store.sessions store) (Store.symbols store) (Store.settings store)).
    pose proof (persist_cases updated w1) as Hp.
    rewrite (createTrade_local stringify now fetchC input w store w1 HdownC
               Hget).
    fold updated.
    unfold Notion.storage_ok in Hok1. rewrite <- Hls.
    destruct (Store.localStorage w1) as [st |]; [| discriminate Hok1].
    rewrite Hok1 in Hp. rewrite Hp. eexists. split; [reflexivity |].
    split; [reflexivity |]. split.
    + intros store' w1' E. injection E as <- _.
      apply (listTrades_local fetchL _ updated HdownL). reflexivity.
    + intros r' w1' E. discriminate E.
  - destruct (getLocal_cases w)
      as [(m & Hm & E) | [(Hm & Hl & E) | [(st & d1 & Hm & Hl & Hi & E)
          | [(st & Hm & Hl & Hi & Hw & E) | (st & Hm & Hl & Hi & Hw & E)]]]];
      rewrite E in Hget; try discriminate Hget; injection Hget as <- <-.
    exists (Store.mkWorld (Some Store.seedData) (Some st)).
    split.
    { unfold Store.createTrade. cbv zeta.
      unfold Store.bind at 1, Store.lift. rewrite HdownC.
      unfold Store.bind at 1. rewrite E. reflexivity. }
    split; [symmetry; exact Hl |]. split.
    + intros store' w1' E'. discriminate E'.
    + intros r' w1' _.
      apply (listTrades_local fetchL _ Store.seedData HdownL). reflexivity.
Qed.

Lemma createTrade_rejects_after_storing_witness :
  let stringify := fun t : Trade => id t in
  let offline T : Fetch T := fun _ _ => JS.Rejected "offline" in
  let input := Store.mkNew "2025-12-23" "Gold" Long 2010 None 1 0
                 (Some "London") (Some "") (Some true) in
  let payload := Store.with_id input (Store.fresh_id 1766448000000) in
  let loaded :=
    Store.mkWorld None
      (Some (Store.mkStorage (Some (Store.Encoded Store.seedData)) false)) in
  let empty := Store.mkWorld None (Some (Store.mkStorage None false)) in
  Notion.storage_ok loaded = false /\
  Notion.storage_ok empty = false /\
  (exists w2,
     Store.createTrade stringify 1766448000000 (offline Trade) input loaded
     = (JS.Rejected "QuotaExceededError", w2) /\
     Store.listTrades (offline (list Trade)) w2
     = (JS.Resolved (payload :: Store.trades Store.seedData), w2)) /\
  (exists w2,
     Store.createTrade stringify 1766448000000 (offline Trade) input empty
     = (JS.Rejected "QuotaExceededError", w2) /\
     Store.listTrades (offline (list Trade)) w2
     = (JS.Resolved (Store.trades Store.seedData), w2)).
Proof.
  intros stringify offline input payload loaded empty.
  assert (H1 : Notion.storage_ok loaded = false) by reflexivity.
  assert (H2 : Notion.storage_ok empty = false) by reflexivity.
  split; [exact H1 |]. split; [exact H2 |]. split.
  - destruct (createTrade_rejects_after_storing stringify 1766448000000
                (offline Trade) (offline (list Trade)) input loaded
                H1 eq_refl eq_refl) as (w2 & Hc & _ & Hl & _).
    exists w2. split; [exact Hc |].
    exact (Hl Store.seedData
             (Store.mkWorld (Some Store.seedData)
                (Store.localStorage loaded)) eq_refl).
  - destruct (createTrade_rejects_after_storing stringify 1766448000000
                (offline Trade) (offline (list Trade)) input empty
                H2 eq_refl eq_refl) as (w2 & Hc & _ & _ & Hl).
    exists w2. split; [exact Hc |].
    exact (Hl "QuotaExceededError"
             (Store.mkWorld (Some Store.seedData)
                (Store.localStorage empty)) eq_refl).
Defined.

(** X22.  With the API unavailable and the storage accepting writes,
    [updateSettings] returns the new settings, and the local store then
    holds them with the trades, sessions and symbols it had. *)
Theorem updateSettings_keeps_the_rest
    (stringify : Store.Settings.t -> string)
    (fetch : Fetch Store.Settings.t) (new_settings : Store.Settings.t)
    (w : Store.World)
    (Hok : Notion.storage_ok w = true)
    (Hdown :
       tryApi fetch "/api/settings"
         (Some (mkInit "POST" (stringify new_settings)))
       = JS.Resolved None) :
  exists store w1 w2,
    Store.getLocal w = (JS.Resolved store, w1) /\
    Store.updateSettings stringify fetch new_settings w
    = (JS.Resolved new_settings, w2) /\
    Store.getLocal w2
    = (JS.Resolved
         (Store.mkStored (Store.trades store) (Store.sessions store)
            (Store.symbols store) new_settings),
       w2).
Proof.
  destruct (Store.getLocal w) as [[store | r] w1] eqn:Hg.
  - exists store, w1.
    destruct (getLocal_storage_ok w store w1 Hg) as [Hok1 _].
    rewrite Hok in Hok1.
    set (updated :=
      Store.mkStored (Store.trades store) (Store.sessions store)
        (Store.symbols store) new_settings).
    pose proof (persist_cases updated w1) as Hp.
    unfold Store.updateSettings. unfold Store.bind at 1, Store.lift.
    rewrite Hdown. unfold Store.bind at 1. rewrite Hg.
    cbv zeta. fold updated. unfold Store.bind, Store.ret.
    unfold Notion.storage_ok in Hok1.
    destruct (Store.localStorage w1) as [st |].
    + rewrite Hok1 in Hp. rewrite Hp. eexists. split; [reflexivity |].
      split; reflexivity.
    + rewrite Hp. eexists. split; [reflexivity |]. split; reflexivity.
  - exfalso. rewrite (getLocal_rejects_not_ok w r w1 Hg) in Hok.
    discriminate Hok.
Qed.

Lemma updateSettings_keeps_the_rest_witness :
  let stringify := fun s : Store.Settings.t => Store.Settings.timezone s in
  let offline : Fetch Store.Settings.t := fun _ _ => JS.Rejected "offline" in
  let new_settings := Store.Settings.mk Store.USD "Europe/London" "Nov25" in
  let w := Store.mkWorld None (Some (Store.mkStorage None true)) in
  Notion.storage_ok w = true /\
  exists store w1 w2,
    Store.getLocal w = (JS.Resolved store, w1) /\
    Store.updateSettings stringify offline new_settings w
    = (JS.Resolved new_settings, w2) /\
    Store.getLocal w2
    = (JS.Resolved
         (Store.mkStored (Store.trades store) (Store.sessions store)
            (Store.symbols store) new_settings),
       w2).
Proof.
  intros stringify offline new_settings w.
  assert (H : Notion.storage_ok w = true) by reflexivity.
  split; [exact H |].
  exact (updateSettings_keeps_the_rest stringify offline new_settings w H
           eq_refl).
Defined.

(** ** The equity curve and the order of the input *)

Section CurveInputOrder.

Lemma filter_perm {A : Type} (p : A -> bool) l l' :
  Permutation l l' -> Permutation (filter p l) (filter p l').
Proof.
  induction 1 as [| x l l' _ IH | x y l | l1 l2 l3 _ IH1 _ IH2]; cbn [filter].
  - constructor.
  - destruct (p x); [constructor |]; exact IH.
  - destruct (p x); destruct (p y); try reflexivity. apply perm_swap.
  - exact (Permutation_trans IH1 IH2).
Qed.

(** Among trades of pairwise different calendar dates at most one has a
    given time value. *)
Lemma one_per_time l k :
  Forall (fun t => Ref.valid_date (date t) = true) l ->
  NoDup (map date l) ->
  (List.length
     (filter (fun t => (Ref.time_of (date t) =? k)%Z) l) <= 1)%nat.
Proof.
  induction l as [| t l IH]; intros Hv Hnd; cbn [filter List.length];
    [lia |].
  inversion Hv as [| ? ? Hvt Hvl]; subst.
  inversion Hnd as [| ? ? Hnin Hnd']; subst.
  specialize (IH Hvl Hnd').
  destruct (Z.eqb_spec (Ref.time_of (date t)) k) as [E | _]; [| exact IH].
  cbn [List.length].
  assert (Hnone : filter (fun u => (Ref.time_of (date u) =? k)%Z) l = []).
  { apply filter_none. intros u Hu. apply Z.eqb_neq. intros Eu.
    apply Hnin. rewrite Forall_forall in Hvl.
    rewrite (time_of_inj (date t) (date u) Hvt (Hvl u Hu)) by congruence.
    apply in_map, Hu. }
  rewrite Hnone. cbn. lia.
Qed.

Lemma short_perm_eq {A : Type} (l l' : list A) :
  Permutation l l' -> (List.length l <= 1)%nat -> l = l'.
Proof.
  intros Hp Hlen. destruct l as [| x [| y l]]; cbn in Hlen; try lia.
  - apply Permutation_nil in Hp. congruence.
  - apply Permutation_length_1_inv in Hp. congruence.
Qed.

End CurveInputOrder.

(** X23.  When the trades are dated by calendar dates and no two share a
    date, the equity curve does not depend on the order in which the
    trades arrive: any rearrangement of the input gives the same
    curve. *)
Theorem equityCurve_ignores_input_order (trades trades' : list Trade)
    (Hperm : Permutation trades trades')
    (Hdated : Ref.dated trades = true)
    (Hdistinct : NoDup (map date trades)) :
  equityCurve trades' = equityCurve trades.
Proof.
  pose proof (dated_Forall trades Hdated) as Hv.
  assert (Hv' : Forall (fun t => Ref.valid_date (date t) = true) trades')
    by (apply (Permutation_Forall Hperm), Hv).
  assert (Hcons : forall l,
    Forall (fun t => Ref.valid_date (date t) = true) l ->
    forall x y, In x l -> In y l ->
      JS.after (compareDates (date x) (date y))
      = (Ref.time_of (date y) <? Ref.time_of (date x))%Z).
  { intros l Hl x y Hx Hy. rewrite Forall_forall in Hl.
    apply compareDates_valid; auto. }
  unfold equityCurve. f_equal.
  apply (stable_sorted_unique (fun t => Ref.time_of (date t))).
  - apply sort_sorted, (Hcons trades' Hv').
  - apply sort_sorted, (Hcons trades Hv).
  - intros k.
    rewrite (sort_stable _ (fun t => Ref.time_of (date t)) trades' k
               (Hcons trades' Hv')).
    rewrite (sort_stable _ (fun t => Ref.time_of (date t)) trades k
               (Hcons trades Hv)).
    symmetry. apply short_perm_eq.
    + apply filter_perm, Hperm.
    + apply one_per_time; assumption.
Qed.

Lemma equityCurve_ignores_input_order_witness :
  let a := Scenario.december in
  let b := rev Scenario.december in
  Permutation a b /\ Ref.dated a = true /\ NoDup (map date a) /\
  equityCurve b = equityCurve a.
Proof.
  intros a b.
  assert (Hp : Permutation a b) by apply Permutation_rev.
  assert (Hd : Ref.dated a = true) by reflexivity.
  assert (Hn : NoDup (map date a)).
  { repeat constructor; cbn; intuition discriminate. }
  split; [exact Hp |]. split; [exact Hd |]. split; [exact Hn |].
  exact (equityCurve_ignores_input_order a b Hp Hd Hn).
Defined.

(* ================================================================== *)
(** * Rounding: the sums as the machine adds them *)
(* ================================================================== *)

Import PrimFloat.

(** The scenario of the specification, as the machine computes it. *)
Example december_stats_double :
  let t d p := Double.mkTrade "T" d "NAS100" Long 1%float None 1%float p
                 None None None in
  let december :=
    [t "2025-12-05" 284%float; t "2025-12-12" (-280)%float;
     t "2025-12-18" 250%float] in
  Double.stats december
  = Double.Stats.mk 254%float (2 / 3 * 100)%float 267%float (-280)%float
      3%nat (-280)%float /\
  Double.equityCurve december
  = [Double.EquityPoint.mk "2025-12-05" 284%float 284%float;
     Double.EquityPoint.mk "2025-12-12" 4%float (-280)%float;
     Double.EquityPoint.mk "2025-12-18" 254%float 250%float] /\
  Double.dailyPnL december
  = [Double.DailyPoint.mk "2025-12-05" 284%float;
     Double.DailyPoint.mk "2025-12-12" (-280)%float;
     Double.DailyPoint.mk "2025-12-18" 250%float].
Proof. cbv zeta. repeat split. Qed.

(** ** Additions that do not round *)

Section Exactness.

Lemma value_zero : Double.value 0%float = Some 0.
Proof. reflexivity. Qed.

(** A run of additions none of which rounds ends at the arithmetic sum. *)
Lemma sums_exactly_from_value ps : forall acc a,
  Double.value acc = Some a ->
  Double.sums_exactly_from acc ps = true ->
  Double.has_value (fold_left add ps acc) (a + Double.sum_amounts ps).
Proof.
  induction ps as [| p ps IH]; intros acc a Ha Hex.
  - exists a. split; [exact Ha | cbn; lra].
  - cbn [Double.sums_exactly_from] in Hex.
    apply andb_true_iff in Hex. destruct Hex as [Hadd Hrest].
    unfold Double.adds_exactly in Hadd. rewrite Ha in Hadd.
    destruct (Double.value p) as [b |] eqn:Ep; [| discriminate Hadd].
    destruct (Double.value (acc + p)%float) as [c |] eqn:Ec;
      [| discriminate Hadd].
    apply Qeq_bool_iff in Hadd.
    destruct (IH _ c Ec Hrest) as (q & Hv & Hq).
    exists q. split; [exact Hv |].
    cbn [Double.sum_amounts]. unfold Double.amount. rewrite Ep. lra.
Qed.

Lemma sum_pnl_fold l : forall acc,
  fold_left (fun a t => (a + Double.pnl t)%float) l acc
  = fold_left add (map Double.pnl l) acc.
Proof.
  induction l as [| t l IH]; intros acc; [reflexivity |].
  cbn [map fold_left]. apply IH.
Qed.

Lemma sums_exactly_total l :
  Double.sums_exactly (map Double.pnl l) = true ->
  Double.has_value (Double.sum_pnl l) (Double.total l).
Proof.
  intros H. unfold Double.sum_pnl. rewrite sum_pnl_fold.
  destruct (sums_exactly_from_value _ _ _ value_zero H) as (q & Hv & Hq).
  exists q. split; [exact Hv |]. unfold Double.total. lra.
Qed.

Lemma sum_amounts_perm ps ps' :
  Permutation ps ps' -> Double.sum_amounts ps == Double.sum_amounts ps'.
Proof.
  induction 1 as [| p ps ps' _ IH | a b ps | ps1 ps2 ps3 _ IH1 _ IH2];
    cbn [Double.sum_amounts].
  - reflexivity.
  - rewrite IH. reflexivity.
  - lra.
  - rewrite IH1. exact IH2.
Qed.

Lemma total_perm_double l l' :
  Permutation l l' -> Double.total l == Double.total l'.
Proof.
  intros H. apply sum_amounts_perm, Permutation_map, H.
Qed.

End Exactness.

(** ** Whole numbers below 2^53 add without rounding *)

Section WholeNumbers.

Import SpecFloat FloatOps FloatAxioms.

Section Mantissas.

Local Open Scope Z_scope.

Lemma digits2_size m : digits2_pos m = Pos.size m.
Proof. induction m; cbn; congruence. Qed.

Lemma digits_bounds m :
  2 ^ (Zpos (digits2_pos m) - 1) <= Zpos m < 2 ^ Zpos (digits2_pos m).
Proof.
  rewrite digits2_size. split.
  - pose proof (Pos.size_le m) as H.
    assert (H' : (2 ^ Zpos (Pos.size m) <= Zpos m~0)).
    { rewrite <- Pos2Z.inj_pow. apply Pos2Z.pos_le_pos. exact H. }
    replace (Zpos (Pos.size m)) with (Zpos (Pos.size m) - 1 + 1) in H' by lia.
    rewrite Z.pow_add_r in H' by lia. change (2 ^ 1) with 2 in H'. lia.
  - pose proof (Pos.size_gt m) as H.
    rewrite <- Pos2Z.inj_pow. apply Pos2Z.pos_lt_pos. exact H.
Qed.

Lemma iter_xO m d : Zpos (Pos.iter xO m d) = Zpos m * 2 ^ Zpos d.
Proof.
  induction d as [| d IH] using Pos.peano_ind.
  - cbn. lia.
  - rewrite Pos.iter_succ. rewrite Pos2Z.inj_succ, Z.pow_succ_r by lia.
    change (Zpos (Pos.iter xO m d)~0) with (2 * Zpos (Pos.iter xO m d)). lia.
Qed.

Lemma digits_iter_xO m d :
  Zpos (digits2_pos (Pos.iter xO m d)) = Zpos (digits2_pos m) + Zpos d.
Proof.
  induction d as [| d IH] using Pos.peano_ind.
  - cbn. lia.
  - rewrite Pos.iter_succ. cbn [digits2_pos]. lia.
Qed.

Lemma iter_pos_iter {A} (f : A -> A) n : forall x, iter_pos f n x = Pos.iter f x n.
Proof.
  induction n as [n IH | n IH |]; intros x; cbn.
  - rewrite !IH. rewrite <- Pos.iter_swap. rewrite <- Pos.iter_swap. reflexivity.
  - rewrite !IH. reflexivity.
  - reflexivity.
Qed.


Lemma shr_exact n : forall m2,
  Pos.iter shr_1 (Build_shr_record (Zpos (Pos.iter xO m2 n)) false false) n
  = Build_shr_record (Zpos m2) false false.
Proof.
  induction n as [| n IH] using Pos.peano_ind; intros m2.
  - reflexivity.
  - rewrite Pos.iter_succ_r. rewrite (Pos.iter_succ n positive xO m2). cbn [shr_1 orb]. apply IH.
Qed.

Lemma fexp64 x : -1021 <= x -> fexp prec emax x = x - 53.
Proof. intros H. unfold fexp, emin, prec, emax. lia. Qed.

Lemma aux_canonical s mz ez :
  fexp prec emax (Zpos (digits2_pos mz) + ez) = ez -> ez <= 971 ->
  binary_round_aux prec emax s (Zpos mz) ez loc_Exact = S754_finite s mz ez.
Proof.
  intros Hc Hb. unfold binary_round_aux, shr_fexp. cbn [Zdigits2].
  rewrite Hc, Z.sub_diag. cbn [shr shr_record_of_loc shr_m loc_of_shr_record round_nearest_even Zdigits2].
  rewrite Hc, Z.sub_diag. cbn [shr shr_record_of_loc shr_m].
  replace (ez <=? emax - prec) with true; [reflexivity |].
  symmetry. apply Z.leb_le. unfold emax, prec. lia.
Qed.

Lemma rep_digits m e z :
  Double.represents m e z -> 0 < z < 2 ^ 53 -> 1 <= Zpos (digits2_pos m) + e <= 53.
Proof.
  intros Hr Hz. pose proof (digits_bounds m) as [Hlo Hhi].
  set (d := Zpos (digits2_pos m)) in *.
  assert (Hd : 1 <= d) by (unfold d; lia).
  destruct Hr as [[He Hm] | [He Hm]].
  - split; [lia |].
    assert (H : 2 ^ (d - 1 + e) < 2 ^ 53).
    { rewrite Z.pow_add_r by lia. 
      assert (2 ^ (d - 1) * 2 ^ e <= Z.pos m * 2 ^ e) by (apply Z.mul_le_mono_nonneg_r; lia).
      lia. }
    apply Z.pow_lt_mono_r_iff in H; lia.
  - assert (H1 : 2 ^ (d - 1) < 2 ^ (53 - e)).
    { replace (53 - e) with (53 + - e) by lia. rewrite Z.pow_add_r by lia.
      assert (z * 2 ^ (- e) < 2 ^ 53 * 2 ^ (- e)) by (apply Z.mul_lt_mono_pos_r; lia).
      lia. }
    apply Z.pow_lt_mono_r_iff in H1; [| lia | lia].
    assert (H2 : 2 ^ (- e) < 2 ^ d).
    { assert (1 * 2 ^ (- e) <= z * 2 ^ (- e)) by (apply Z.mul_le_mono_nonneg_r; lia).
      lia. }
    apply Z.pow_lt_mono_r_iff in H2; lia.
Qed.

Lemma binary_round_whole s m e z :
  Double.represents m e z -> 0 < z < 2 ^ 53 ->
  exists m' e', binary_round prec emax s m e = S754_finite s m' e' /\ Double.represents m' e' z.
Proof.
  intros Hr Hz. pose proof (rep_digits m e z Hr Hz) as Hd.
  set (d := Zpos (digits2_pos m)) in *.
  assert (HE : fexp prec emax (d + e) = d + e - 53) by (apply fexp64; lia).
  unfold binary_round. fold d. rewrite HE. unfold shl_align.
  replace (d + e - 53 - e) with (d - 53) by lia.
  destruct (d - 53) as [| p | p] eqn:Edp.
  - (* d = 53 *)
    exists m, e. split; [| exact Hr].
    apply aux_canonical; [fold d; rewrite HE; lia | lia].
  - (* d > 53: shift right *)
    assert (He : e < 0) by lia.
    destruct Hr as [[He' _] | [_ Hm]]; [lia |].
    (* m = z * 2^(-e), -e = (53 - d - e) + p *)
    set (E := d + e - 53) in *.
    assert (HEle : E <= 0) by (unfold E; lia).
    assert (Hsplit : - e = - E + Zpos p) by (unfold E; lia).
    set (m2 := Z.to_pos (z * 2 ^ (- E))).
    assert (Hm2 : Zpos m2 = z * 2 ^ (- E)).
    { unfold m2. rewrite Z2Pos.id; [reflexivity |].
      apply Z.mul_pos_pos; [lia |]. apply Z.pow_pos_nonneg; lia. }
    assert (Hmm : m = Pos.iter xO m2 p).
    { apply Pos2Z.inj. rewrite iter_xO, Hm2, Hm, Hsplit.
      rewrite Z.pow_add_r by lia. lia. }
    exists m2, E. split.
    + assert (Hdig : Zpos (digits2_pos m2) + E = d + e).
      { unfold d. rewrite Hmm, digits_iter_xO.
        unfold E, d in *. rewrite Hmm, digits_iter_xO in Edp. 
        rewrite Hmm, digits_iter_xO. lia. }
      unfold binary_round_aux, shr_fexp. cbn [Zdigits2]. fold d.
      rewrite HE. fold E. replace (E - e) with (Zpos p) by (unfold E; lia).
      cbn [shr shr_record_of_loc]. rewrite iter_pos_iter, Hmm, shr_exact.
      cbn [shr_m loc_of_shr_record round_nearest_even Zdigits2].
      replace (e + Zpos p) with E by (unfold E; lia).
      rewrite Hdig, HE. fold E. rewrite Z.sub_diag.
      cbn [shr shr_record_of_loc shr_m].
      replace (E <=? emax - prec) with true; [reflexivity |].
      symmetry. apply Z.leb_le. unfold emax, prec. lia.
    + unfold Double.represents. destruct (Z.eq_dec E 0) as [E0 | En0].
      * left. split; [lia |]. rewrite Hm2, E0. cbn. lia.
      * right. split; [lia | exact Hm2].
  - (* d < 53: shift left *)
    exists (Pos.iter xO m p), (d + e - 53). split.
    + apply aux_canonical; [| lia].
      rewrite digits_iter_xO. fold d.
      replace (d + Zpos p + (d + e - 53)) with (d + e) by lia. exact HE.
    + unfold Double.represents. rewrite iter_xO.
      destruct Hr as [[He Hm] | [He Hm]].
      * destruct (Z_lt_le_dec (d + e - 53) 0) as [Hneg | Hpos].
        -- right. split; [lia |]. rewrite <- Hm.
           replace (- (d + e - 53)) with (Zpos p - e) by lia.
           replace (Zpos p) with (Zpos p - e + e) at 1 by lia.
           rewrite Z.pow_add_r by lia. lia.
        -- left. split; [lia |]. rewrite <- Hm.
           replace e with (Zpos p + (d + e - 53)) at 2 by lia.
           rewrite Z.pow_add_r by lia. lia.
      * right. split; [lia |]. rewrite Hm.
        replace (- (d + e - 53)) with (- e + Zpos p) by lia.
        rewrite Z.pow_add_r by lia. lia.
Qed.

End Mantissas.

Lemma Qpow2_nonneg e : (0 <= e)%Z -> 2 ^ e == inject_Z (2 ^ e).
Proof. intros H. rewrite Zpower_Qpower by exact H. reflexivity. Qed.

Lemma Qpow2_pos e : 0 < 2 ^ e.
Proof. apply Qpower_0_lt. reflexivity. Qed.

Lemma Qpow2_neg e : 2 ^ e * 2 ^ (- e) == 1.
Proof.
  rewrite <- Qpower_plus by discriminate. rewrite Z.add_opp_diag_r. reflexivity.
Qed.

Lemma scale_Z (M z e : Z) :
  inject_Z M * 2 ^ e == inject_Z z <->
  ((0 <= e)%Z /\ (M * 2 ^ e)%Z = z) \/ ((e < 0)%Z /\ M = (z * 2 ^ (- e))%Z).
Proof.
  destruct (Z_lt_le_dec e 0) as [Hneg | Hpos].
  - assert (Hq : inject_Z M * 2 ^ e == inject_Z z <->
                 inject_Z M == inject_Z (z * 2 ^ (- e))).
    { rewrite inject_Z_mult, <- (Qpow2_nonneg (- e)) by lia.
      pose proof (Qpow2_neg e) as H1. pose proof (Qpow2_pos e) as H2.
      pose proof (Qpow2_pos (- e)) as H3.
      split; intros H.
      - rewrite <- H. rewrite <- Qmult_assoc, H1. ring.
      - rewrite H. rewrite <- Qmult_assoc, (Qmult_comm (2 ^ (- e))), H1. ring. }
    rewrite Hq, inject_Z_injective. intuition lia.
  - rewrite Qpow2_nonneg, <- inject_Z_mult, inject_Z_injective by lia.
    intuition lia.
Qed.

Lemma shl_align_val m e ez :
  (ez <= e)%Z ->
  Zpos (fst (shl_align m e ez)) = (Zpos m * 2 ^ (e - ez))%Z.
Proof.
  intros H. unfold shl_align.
  destruct (ez - e)%Z as [| p | p] eqn:E; cbn [fst].
  - replace (e - ez)%Z with 0%Z by lia. cbn. lia.
  - lia.
  - rewrite iter_xO. replace (e - ez)%Z with (Zpos p) by lia. reflexivity.
Qed.

Lemma aligned_val s m e ez :
  (ez <= e)%Z ->
  inject_Z (cond_Zopp s (Zpos (fst (shl_align m e ez)))) * 2 ^ ez
  == (if s then -1 else 1) * inject_Z (Zpos m) * 2 ^ e.
Proof.
  intros H. rewrite (shl_align_val m e ez H).
  assert (Hp : 2 ^ e == inject_Z (2 ^ (e - ez)) * 2 ^ ez).
  { rewrite <- Qpow2_nonneg by lia. rewrite <- Qpower_plus by discriminate.
    replace (e - ez + ez)%Z with e by lia. reflexivity. }
  rewrite Hp. destruct s; cbn [cond_Zopp].
  - rewrite inject_Z_opp, inject_Z_mult. ring.
  - rewrite inject_Z_mult. ring.
Qed.

Lemma binary_normalize_whole M e z :
  inject_Z M * 2 ^ e == inject_Z z -> (Z.abs z < 2 ^ 53)%Z ->
  exists q, Double.spec_value (binary_normalize prec emax M e false) = Some q /\
            q == inject_Z z.
Proof.
  intros HM Hz. destruct M as [| m | m]; cbn [binary_normalize].
  - exists 0. split; [reflexivity |]. rewrite <- HM. ring.
  - assert (Hr : Double.represents m e z) by (apply scale_Z, HM).
    assert (Hpos : (0 < z)%Z).
    { destruct Hr as [[He Hm] | [He Hm]].
      - rewrite <- Hm. apply Z.mul_pos_pos; [lia | apply Z.pow_pos_nonneg; lia].
      - assert (0 < 2 ^ (- e))%Z by (apply Z.pow_pos_nonneg; lia). nia. }
    destruct (binary_round_whole false m e z Hr ltac:(lia)) as (m' & e' & E & Hr').
    rewrite E. cbn [Double.spec_value]. eexists. split; [reflexivity |].
    apply scale_Z in Hr'. rewrite <- Hr'. ring.
  - assert (HM' : inject_Z (Zpos m) * 2 ^ e == inject_Z (- z)).
    { rewrite inject_Z_opp, <- HM. change (Zneg m) with (- Zpos m)%Z.
      rewrite inject_Z_opp. ring. }
    assert (Hr : Double.represents m e (- z)) by (apply scale_Z, HM').
    assert (Hpos : (0 < - z)%Z).
    { destruct Hr as [[He Hm] | [He Hm]].
      - rewrite <- Hm. apply Z.mul_pos_pos; [lia | apply Z.pow_pos_nonneg; lia].
      - assert (0 < 2 ^ (- e))%Z by (apply Z.pow_pos_nonneg; lia). nia. }
    destruct (binary_round_whole true m e (- z) Hr ltac:(lia)) as (m' & e' & E & Hr').
    rewrite E. cbn [Double.spec_value]. eexists. split; [reflexivity |].
    apply scale_Z in Hr'. rewrite inject_Z_opp in Hr'.
    setoid_replace (inject_Z z) with (- (inject_Z (Zpos m') * 2 ^ e')) by (rewrite Hr'; ring).
    ring.
Qed.

Lemma SFadd_whole X Y a b qa qb :
  Double.spec_value X = Some qa -> qa == inject_Z a ->
  Double.spec_value Y = Some qb -> qb == inject_Z b ->
  (Z.abs (a + b) < 2 ^ 53)%Z ->
  exists qc, Double.spec_value (SF64add X Y) = Some qc /\ qc == inject_Z (a + b).
Proof.
  intros HX Ha HY Hb Hab.
  destruct X as [sx | sx | | sx mx ex]; try discriminate HX;
    destruct Y as [sy | sy | | sy my ey]; try discriminate HY;
    cbn [Double.spec_value] in HX, HY; injection HX as HX; injection HY as HY.
  - exists 0. split.
    + unfold SF64add, SFadd. destruct sx, sy; reflexivity.
    + rewrite inject_Z_plus, <- Ha, <- Hb, <- HX, <- HY. ring.
  - exists qb. split.
    + unfold SF64add, SFadd. cbn [Double.spec_value]. rewrite HY. reflexivity.
    + rewrite inject_Z_plus, <- Ha, <- Hb, <- HX. ring.
  - exists qa. split.
    + unfold SF64add, SFadd. cbn [Double.spec_value]. rewrite HX. reflexivity.
    + rewrite inject_Z_plus, <- Ha, <- Hb, <- HY. ring.
  - unfold SF64add, SFadd. cbv zeta.
    apply binary_normalize_whole; [| exact Hab].
    rewrite !inject_Z_plus, Qmult_plus_distr_l.
    rewrite (aligned_val sx mx ex (Z.min ex ey)) by lia.
    rewrite (aligned_val sy my ey (Z.min ex ey)) by lia.
    rewrite HX, HY, Ha, Hb. reflexivity.
Qed.

Lemma value_add x y :
  Double.value (x + y)%float
  = Double.spec_value (SF64add (Prim2SF x) (Prim2SF y)).
Proof. unfold Double.value. rewrite add_spec. reflexivity. Qed.

(** The sum of two doubles that are whole numbers is their sum, when it
    is below 2^53 in absolute value. *)
Lemma whole_add_exact x y a b :
  Double.has_value x (inject_Z a) -> Double.has_value y (inject_Z b) ->
  (Z.abs (a + b) < 2 ^ 53)%Z ->
  Double.adds_exactly x y = true /\
  Double.has_value (x + y)%float (inject_Z (a + b)).
Proof.
  intros (qa & Hx & Ha) (qb & Hy & Hb) Hab.
  destruct (SFadd_whole (Prim2SF x) (Prim2SF y) a b qa qb Hx Ha Hy Hb Hab)
    as (qc & Hc & Hqc).
  rewrite <- value_add in Hc.
  split.
  - unfold Double.adds_exactly. rewrite Hx, Hy, Hc.
    apply Qeq_bool_iff. rewrite Ha, Hb, Hqc, inject_Z_plus. reflexivity.
  - exists qc. split; [exact Hc | exact Hqc].
Qed.

Lemma whole_number_value x :
  Double.whole_number x = true ->
  exists z, Double.has_value x (inject_Z z).
Proof.
  unfold Double.whole_number. destruct (Double.value x) as [q |] eqn:E;
    [| discriminate].
  intros H. apply Qeq_bool_iff in H.
  exists (Qfloor q). exists q. split; [exact E | exact H].
Qed.

End WholeNumbers.

(** C8, as the claim states it, fails: the net is a sum of doubles, added
    in input order, and each addition rounds.  The three amounts 2^53, 1
    and -2^53 add up to 1; in the order 2^53, 1, -2^53 the code's net is 0
    (2^53 + 1 rounds to 2^53), in the order 2^53, -2^53, 1 it is 1. *)
Lemma stats_net_depends_on_order :
  let t p := Double.mkTrade "T" "2025-12-05" "NAS100" Long 1%float None
               1%float p None None None in
  let a := [t Double.two53; t 1%float; t (PrimFloat.opp Double.two53)] in
  let b := [t Double.two53; t (PrimFloat.opp Double.two53); t 1%float] in
  Permutation a b /\
  Double.total a == 1 /\
  Double.Stats.net (Double.stats a) = 0%float /\
  Double.Stats.net (Double.stats b) = 1%float /\
  PrimFloat.eqb (Double.Stats.net (Double.stats a))
    (Double.Stats.net (Double.stats b)) = false.
Proof.
  cbv zeta. split; [apply perm_skip, perm_swap |].
  split; [vm_compute; reflexivity |].
  repeat split.
Qed.

(** C8, amended.  The net is the [pnl] of the trades added one after the
    other, in input order, from 0, each addition rounding as doubles
    do.  When none of these additions rounds, the net is the arithmetic
    sum of the [pnl]; so two orders of the same trades in neither of which
    an addition rounds give the same net. *)
Theorem stats_net_adds_in_input_order
    (trades trades' : list Double.Trade)
    (Hperm : Permutation trades trades')
    (Hexact : Double.sums_exactly (map Double.pnl trades) = true)
    (Hexact' : Double.sums_exactly (map Double.pnl trades') = true) :
  Double.Stats.net (Double.stats []) = 0%float /\
  (forall l t,
     Double.Stats.net (Double.stats (l ++ [t]))
     = PrimFloat.add (Double.Stats.net (Double.stats l)) (Double.pnl t)) /\
  Double.has_value (Double.Stats.net (Double.stats trades))
    (Double.total trades) /\
  Double.has_value (Double.Stats.net (Double.stats trades'))
    (Double.total trades).
Proof.
  split; [reflexivity |].
  split.
  { intros l t. cbn [Double.stats Double.Stats.net]. unfold Double.sum_pnl.
    rewrite fold_left_app. reflexivity. }
  cbn [Double.stats Double.Stats.net].
  split; [apply sums_exactly_total, Hexact |].
  destruct (sums_exactly_total trades' Hexact') as (q & Hv & Hq).
  exists q. split; [exact Hv |].
  rewrite Hq. symmetry. apply total_perm_double, Hperm.
Qed.

Lemma stats_net_adds_in_input_order_witness :
  let t p := Double.mkTrade "T" "2025-12-05" "NAS100" Long 1%float None
               1%float p None None None in
  let a := [t 284%float; t (-280)%float; t 250%float] in
  let b := [t (-280)%float; t 284%float; t 250%float] in
  Permutation a b /\
  Double.sums_exactly (map Double.pnl a) = true /\
  Double.sums_exactly (map Double.pnl b) = true /\
  Double.total a == 254 /\
  Double.has_value (Double.Stats.net (Double.stats a)) (Double.total a) /\
  Double.has_value (Double.Stats.net (Double.stats b)) (Double.total a).
Proof.
  intros t a b.
  assert (Hp : Permutation a b) by apply perm_swap.
  assert (Ha : Double.sums_exactly (map Double.pnl a) = true)
    by (vm_compute; reflexivity).
  assert (Hb : Double.sums_exactly (map Double.pnl b) = true)
    by (vm_compute; reflexivity).
  split; [exact Hp |]. split; [exact Ha |]. split; [exact Hb |].
  split; [vm_compute; reflexivity |].
  exact (proj2 (proj2 (stats_net_adds_in_input_order a b Hp Ha Hb))).
Defined.

(** ** The equity curve on doubles *)

Section DoubleCurve.

(** Sorting on a comparator that looks at the elements through [g] only
    commutes with [g]. *)
Lemma insert_map {A B : Type} (g : A -> B) (c : B -> B -> option Z) x l :
  map g (JS.insert (fun a b => c (g a) (g b)) x l)
  = JS.insert c (g x) (map g l).
Proof.
  induction l as [| y l IH]; [reflexivity |].
  cbn [JS.insert map].
  destruct (JS.after (c (g x) (g y))); cbn [map]; [rewrite IH |];
    reflexivity.
Qed.

Lemma sort_map {A B : Type} (g : A -> B) (c : B -> B -> option Z) l :
  map g (JS.sort (fun a b => c (g a) (g b)) l) = JS.sort c (map g l).
Proof.
  induction l as [| x l IH]; [reflexivity |].
  cbn [JS.sort fold_right map].
  fold (JS.sort (fun a b => c (g a) (g b)) l). fold (JS.sort c (map g l)).
  rewrite insert_map, IH. reflexivity.
Qed.

Lemma double_curve_dates l : forall e,
  map Double.EquityPoint.date
    (map_with
       (fun running trade =>
          let running := (running + Double.pnl trade)%float in
          (running,
           Double.EquityPoint.mk (Double.date trade) running
             (Double.pnl trade)))
       e l)
  = map Double.date l.
Proof.
  induction l as [| t l' IH]; intros e; [reflexivity |].
  cbn [map_with map Double.EquityPoint.date]. f_equal. apply IH.
Qed.

Lemma double_curve_pnls l : forall e,
  map Double.EquityPoint.pnl
    (map_with
       (fun running trade =>
          let running := (running + Double.pnl trade)%float in
          (running,
           Double.EquityPoint.mk (Double.date trade) running
             (Double.pnl trade)))
       e l)
  = map Double.pnl l.
Proof.
  induction l as [| t l' IH]; intros e; [reflexivity |].
  cbn [map_with map Double.EquityPoint.pnl]. f_equal. apply IH.
Qed.

Lemma double_curve_equities l : forall e,
  map Double.EquityPoint.equity
    (map_with
       (fun running trade =>
          let running := (running + Double.pnl trade)%float in
          (running,
           Double.EquityPoint.mk (Double.date trade) running
             (Double.pnl trade)))
       e l)
  = Double.running_from e l.
Proof.
  induction l as [| t l' IH]; intros e; [reflexivity |].
  cbn [map_with map Double.EquityPoint.equity Double.running_from].
  f_equal. apply IH.
Qed.

(** The last running value is what the [reduce] of [stats] returns on the
    same list: the same additions in the same order. *)
Lemma double_running_last l : forall e,
  last (Double.running_from e l) e
  = fold_left (fun a t => (a + Double.pnl t)%float) l e.
Proof.
  induction l as [| t l IH]; intros e; [reflexivity |].
  cbn [Double.running_from fold_left].
  rewrite last_cons_default. apply IH.
Qed.

(** The traversal reads the date and the [pnl] of a trade, nothing else. *)
Lemma double_curve_reads l : forall l' e,
  map (fun t => (Double.date t, Double.pnl t)) l
  = map (fun t => (Double.date t, Double.pnl t)) l' ->
  map_with
    (fun running trade =>
       let running := (running + Double.pnl trade)%float in
       (running,
        Double.EquityPoint.mk (Double.date trade) running (Double.pnl trade)))
    e l
  = map_with
      (fun running trade =>
         let running := (running + Double.pnl trade)%float in
         (running,
          Double.EquityPoint.mk (Double.date trade) running
            (Double.pnl trade)))
      e l'.
Proof.
  induction l as [| t l IH]; intros [| t' l'] e H; try discriminate H;
    [reflexivity |].
  cbn [map] in H. injection H as Hd Hp Hl.
  cbn [map_with]. rewrite Hd, Hp. f_equal. apply IH, Hl.
Qed.

Lemma dates_and_pnls l : forall l',
  map Double.date l = map Double.date l' ->
  map Double.pnl l = map Double.pnl l' ->
  map (fun t => (Double.date t, Double.pnl t)) l
  = map (fun t => (Double.date t, Double.pnl t)) l'.
Proof.
  induction l as [| t l IH]; intros [| t' l'] Hd Hp;
    try discriminate Hd; [reflexivity |].
  cbn [map] in *. injection Hd as Hd1 Hd2. injection Hp as Hp1 Hp2.
  rewrite Hd1, Hp1. f_equal. apply IH; assumption.
Qed.

Lemma equityCurve_reads l l' :
  map Double.date l = map Double.date l' ->
  map Double.pnl l = map Double.pnl l' ->
  Double.equityCurve l = Double.equityCurve l'.
Proof.
  intros Hd Hp. pose proof (dates_and_pnls l l' Hd Hp) as H.
  unfold Double.equityCurve. apply double_curve_reads.
  set (g := fun t => (Double.date t, Double.pnl t)) in *.
  set (c := fun p q : string * Double.number =>
              compareDates (fst p) (fst q)).
  change (map g (JS.sort (fun a b => c (g a) (g b)) l)
          = map g (JS.sort (fun a b => c (g a) (g b)) l')).
  rewrite !sort_map, H. reflexivity.
Qed.

(** Date order is an order of dates: a list of two or more strings in date
    order holds calendar dates only. *)
Lemma date_order_needs_dates out d d' :
  StronglySorted Ref.date_le out -> In d out -> In d' out -> d <> d' ->
  Ref.valid_date d = true.
Proof.
  induction 1 as [| x l Hs IH Hx]; intros Hd Hd' Hne; [destruct Hd |].
  rewrite Forall_forall in Hx.
  destruct Hd as [<- | Hd].
  - destruct Hd' as [E | Hd']; [congruence |].
    apply (date_le_valid x d'), Hx, Hd'.
  - apply (date_le_valid x d), Hx, Hd.
Qed.

(** The curve ends at what the [reduce] of [stats] returns on the trades in
    the order of the curve. *)
Lemma double_curve_last trades :
  last (map Double.EquityPoint.equity (Double.equityCurve trades)) 0%float
  = Double.sum_pnl
      (JS.sort (fun a b => compareDates (Double.date a) (Double.date b))
         trades).
Proof.
  unfold Double.equityCurve. rewrite double_curve_equities.
  apply double_running_last.
Qed.

Lemma double_dated_Forall trades :
  Double.dated trades = true ->
  Forall (fun t => Ref.valid_date (Double.date t) = true) trades.
Proof. unfold Double.dated. rewrite forallb_forall, Forall_forall. auto. Qed.

End DoubleCurve.

(** C3, as the claim states it, fails, in two ways.  The curve adds the
    [pnl] in date order, the net in input order, and the additions round:
    of three trades given in the order 18 December (2^53), 5 December (1),
    12 December (-2^53), the net is 0, while the curve runs 1, 1 - 2^53, 1
    and ends at 1.  And a trade sequence is any list of trades, the date
    being a string: with a date that is no date among them the
    comparator yields [NaN], the sort leaves the 18th ahead of the 5th,
    and the points are in no date order however they are arranged. *)
Lemma equityCurve_last_equity_differs_from_net :
  let t d p := Double.mkTrade "T" d "NAS100" Long 1%float None 1%float p
                 None None None in
  let trades :=
    [t "2025-12-18" Double.two53; t "2025-12-05" 1%float;
     t "2025-12-12" (opp Double.two53)] in
  let undated :=
    [t "2025-12-18" 250%float; t "n/a" 284%float;
     t "2025-12-05" (-280)%float] in
  (Double.dated trades = true /\
   Double.equityCurve trades
   = [Double.EquityPoint.mk "2025-12-05" 1%float 1%float;
      Double.EquityPoint.mk "2025-12-12" (-9007199254740991)%float
        (opp Double.two53);
      Double.EquityPoint.mk "2025-12-18" 1%float Double.two53] /\
   last (map Double.EquityPoint.equity (Double.equityCurve trades)) 0%float
   = 1%float /\
   Double.Stats.net (Double.stats trades) = 0%float /\
   eqb 1%float 0%float = false) /\
  (Ref.valid_date "n/a" = false /\
   compareDates "n/a" "2025-12-05" = None /\
   map Double.EquityPoint.date (Double.equityCurve undated)
   = ["2025-12-18"; "n/a"; "2025-12-05"] /\
   (forall out,
      Permutation out (map Double.date undated) ->
      ~ StronglySorted Ref.date_le out)).
Proof.
  cbv zeta. split; [repeat split |].
  split; [reflexivity |]. split; [reflexivity |]. split; [reflexivity |].
  intros out Hperm Hs.
  assert (Hv : Ref.valid_date "n/a" = true).
  { apply (date_order_needs_dates out "n/a" "2025-12-18" Hs).
    - apply (Permutation_in _ (Permutation_sym Hperm)). right; left.
      reflexivity.
    - apply (Permutation_in _ (Permutation_sym Hperm)). left. reflexivity.
    - discriminate. }
  discriminate Hv.
Qed.

(** C3, amended.  The curve is determined by the dates and the [pnl] of
    the trades in input order: two inputs that agree on them, the same
    input given twice in particular, give the same curve.  It has one point
    per trade; its points are the trades in a rearranged order, each with
    its own [pnl] and the running sum of the [pnl] up to it, added in that
    order as doubles; when the trades are dated by calendar dates
    ([YYYY-MM-DD]) the points are in ascending date order.  The last
    running sum is the net of [stats] on the same trades when the trades
    are given in date order, and both are the arithmetic sum of the [pnl]
    when no addition rounds, neither in input order nor in the order of the
    curve. *)
Theorem equityCurve_running_sum_in_date_order (trades : list Double.Trade) :
  (forall again,
     map Double.date again = map Double.date trades ->
     map Double.pnl again = map Double.pnl trades ->
     Double.equityCurve again = Double.equityCurve trades) /\
  List.length (Double.equityCurve trades) = List.length trades /\
  (exists sorted,
     Permutation sorted trades /\
     map Double.EquityPoint.date (Double.equityCurve trades)
     = map Double.date sorted /\
     map Double.EquityPoint.pnl (Double.equityCurve trades)
     = map Double.pnl sorted /\
     map Double.EquityPoint.equity (Double.equityCurve trades)
     = Double.running_from 0%float sorted) /\
  (Double.dated trades = true ->
   StronglySorted
     (fun p q =>
        Ref.date_le (Double.EquityPoint.date p) (Double.EquityPoint.date q))
     (Double.equityCurve trades)) /\
  (StronglySorted
     (fun a b => Ref.date_le (Double.date a) (Double.date b)) trades ->
   last (map Double.EquityPoint.equity (Double.equityCurve trades)) 0%float
   = Double.Stats.net (Double.stats trades)) /\
  (Double.sums_exactly (map Double.pnl trades) = true ->
   Double.sums_exactly
     (map Double.EquityPoint.pnl (Double.equityCurve trades)) = true ->
   Double.has_value
     (last (map Double.EquityPoint.equity (Double.equityCurve trades))
        0%float)
     (Double.total trades) /\
   Double.has_value (Double.Stats.net (Double.stats trades))
     (Double.total trades)).
Proof.
  set (sorted :=
    JS.sort (fun a b => compareDates (Double.date a) (Double.date b)) trades).
  assert (Hperm : Permutation sorted trades) by apply sort_perm.
  assert (Hd : map Double.EquityPoint.date (Double.equityCurve trades)
               = map Double.date sorted) by apply double_curve_dates.
  assert (Hp : map Double.EquityPoint.pnl (Double.equityCurve trades)
               = map Double.pnl sorted) by apply double_curve_pnls.
  assert (He : map Double.EquityPoint.equity (Double.equityCurve trades)
               = Double.running_from 0%float sorted)
    by apply double_curve_equities.
  assert (Hlast :
    last (map Double.EquityPoint.equity (Double.equityCurve trades)) 0%float
    = Double.sum_pnl sorted) by apply double_curve_last.
  split; [intros again Ha Hb; apply equityCurve_reads; assumption |].
  split.
  { rewrite <- (length_map Double.EquityPoint.date), Hd, length_map.
    apply Permutation_length, Hperm. }
  split; [exists sorted; auto |].
  split.
  { intros Hv.
    apply (proj2 (StronglySorted_map Ref.date_le Double.EquityPoint.date _)).
    rewrite Hd.
    apply (proj1 (StronglySorted_map Ref.date_le Double.date sorted)).
    apply (sort_by_date_sorted Double.date), double_dated_Forall, Hv. }
  split.
  { intros Hs. rewrite Hlast. unfold sorted.
    rewrite (sort_by_date_id Double.date trades Hs). reflexivity. }
  intros Hex Hex'. rewrite Hp in Hex'. rewrite Hlast.
  cbn [Double.stats Double.Stats.net].
  split; [| apply sums_exactly_total, Hex].
  destruct (sums_exactly_total sorted Hex') as (q & Hv & Hq).
  exists q. split; [exact Hv |].
  rewrite Hq. apply total_perm_double, Hperm.
Qed.

Lemma equityCurve_running_sum_in_date_order_witness :
  let t d p := Double.mkTrade "T" d "NAS100" Long 1%float None 1%float p
                 None None None in
  let trades :=
    [t "2025-12-18" 250%float; t "2025-12-05" 284%float;
     t "2025-12-12" (-280)%float] in
  let ordered :=
    [t "2025-12-05" 284%float; t "2025-12-12" (-280)%float;
     t "2025-12-18" 250%float] in
  (Double.dated trades = true /\
   StronglySorted
     (fun p q =>
        Ref.date_le (Double.EquityPoint.date p) (Double.EquityPoint.date q))
     (Double.equityCurve trades)) /\
  (StronglySorted
     (fun a b => Ref.date_le (Double.date a) (Double.date b)) ordered /\
   last (map Double.EquityPoint.equity (Double.equityCurve ordered)) 0%float
   = Double.Stats.net (Double.stats ordered)) /\
  (Double.sums_exactly (map Double.pnl trades) = true /\
   Double.sums_exactly
     (map Double.EquityPoint.pnl (Double.equityCurve trades)) = true /\
   Double.total trades == 254 /\
   Double.has_value
     (last (map Double.EquityPoint.equity (Double.equityCurve trades))
        0%float)
     (Double.total trades)).
Proof.
  intros t trades ordered.
  assert (H1 : Double.dated trades = true) by reflexivity.
  assert (H2 : StronglySorted
                 (fun a b => Ref.date_le (Double.date a) (Double.date b))
                 ordered).
  { apply (sorted_by_time_date_le Double.date).
    - repeat constructor.
    - repeat constructor; unfold Ref.by_key; vm_compute; discriminate. }
  assert (H3 : Double.sums_exactly (map Double.pnl trades) = true)
    by (vm_compute; reflexivity).
  assert (H4 : Double.sums_exactly
                 (map Double.EquityPoint.pnl (Double.equityCurve trades))
               = true) by (vm_compute; reflexivity).
  split.
  { split; [exact H1 |].
    exact (proj1 (proj2 (proj2 (proj2
      (equityCurve_running_sum_in_date_order trades)))) H1). }
  split.
  { split; [exact H2 |].
    exact (proj1 (proj2 (proj2 (proj2 (proj2
      (equityCurve_running_sum_in_date_order ordered))))) H2). }
  split; [exact H3 |]. split; [exact H4 |].
  split; [vm_compute; reflexivity |].
  exact (proj1 (proj2 (proj2 (proj2 (proj2 (proj2
    (equityCurve_running_sum_in_date_order trades))))) H3 H4)).
Defined.

(** ** The daily series on doubles *)

Section DoubleDaily.

Lemma double_get_set_same m k v :
  Double.Map_get (Double.Map_set m k v) k = Some v.
Proof.
  induction m as [| [k' v'] m IH]; cbn [Double.Map_set Double.Map_get].
  - rewrite String.eqb_refl. reflexivity.
  - destruct (String.eqb k' k) eqn:E; cbn [Double.Map_get]; rewrite E;
      [reflexivity | exact IH].
Qed.

Lemma double_get_set_other m k v k0 :
  k0 <> k -> Double.Map_get (Double.Map_set m k v) k0 = Double.Map_get m k0.
Proof.
  intros Hne.
  assert (Hk : String.eqb k k0 = false)
    by (apply String.eqb_neq; congruence).
  induction m as [| [k' v'] m IH]; cbn [Double.Map_set Double.Map_get].
  - rewrite Hk. reflexivity.
  - destruct (String.eqb k' k) eqn:E; cbn [Double.Map_get].
    + apply String.eqb_eq in E; subst k'. rewrite Hk. reflexivity.
    + rewrite IH. reflexivity.
Qed.

Lemma double_set_keys m k v k0 :
  In k0 (Double.keys (Double.Map_set m k v)) <->
  In k0 (Double.keys m) \/ k0 = k.
Proof.
  unfold Double.keys.
  induction m as [| [k' v'] m IH]; cbn [Double.Map_set map fst In].
  - intuition congruence.
  - destruct (String.eqb_spec k' k) as [-> | Hne]; cbn [map fst In].
    + intuition congruence.
    + rewrite IH. tauto.
Qed.

Lemma double_set_nodup m k v :
  NoDup (Double.keys m) -> NoDup (Double.keys (Double.Map_set m k v)).
Proof.
  induction m as [| [k' v'] m IH]; cbn [Double.Map_set]; intros H.
  - repeat constructor. intros [].
  - inversion H as [| ? ? Hnin Hnd]; subst.
    destruct (String.eqb_spec k' k) as [-> | Hne].
    + constructor; assumption.
    + change (NoDup (k' :: Double.keys (Double.Map_set m k v))).
      constructor; [| apply IH, Hnd].
      rewrite double_set_keys.
      intros [Hin | ->]; [apply Hnin, Hin | apply Hne; reflexivity].
Qed.

Lemma double_get_entry m k v :
  NoDup (Double.keys m) -> In (k, v) m -> Double.Map_get m k = Some v.
Proof.
  induction m as [| [k' v'] m IH]; intros Hnd Hin; [destruct Hin |].
  inversion Hnd as [| ? ? Hnin Hnd']; subst.
  cbn [Double.Map_get]. destruct Hin as [E | Hin].
  - injection E as -> ->. rewrite String.eqb_refl. reflexivity.
  - destruct (String.eqb_spec k' k) as [-> | _]; [| apply IH; assumption].
    exfalso. apply Hnin. apply (in_map fst _ _ Hin).
Qed.

(** What the map holds under a date after the [forEach]: the [pnl] of the
    trades of that date, added in input order to what it held before. *)
Lemma double_daily_fold_get l : forall m k,
  Double.or_zero (Double.Map_get (fold_left Double.dailyPnL_step l m) k)
  = fold_left (fun a t => (a + Double.pnl t)%float) (Double.on_date k l)
      (Double.or_zero (Double.Map_get m k)).
Proof.
  induction l as [| t l IH]; intros m k; cbn [fold_left]; [reflexivity |].
  rewrite IH. unfold Double.dailyPnL_step. cbn [Double.on_date filter].
  destruct (String.eqb_spec (Double.date t) k) as [-> | Hne].
  - rewrite double_get_set_same. reflexivity.
  - rewrite double_get_set_other by congruence. reflexivity.
Qed.

Lemma double_daily_fold_keys l : forall m k,
  In k (Double.keys (fold_left Double.dailyPnL_step l m)) <->
  In k (Double.keys m) \/ In k (map Double.date l).
Proof.
  induction l as [| t l IH]; intros m k; cbn [fold_left map In].
  - tauto.
  - rewrite IH. unfold Double.dailyPnL_step. rewrite double_set_keys.
    intuition congruence.
Qed.

Lemma double_daily_fold_nodup l : forall m,
  NoDup (Double.keys m) ->
  NoDup (Double.keys (fold_left Double.dailyPnL_step l m)).
Proof.
  induction l as [| t l IH]; intros m H; cbn [fold_left]; [exact H |].
  apply IH, double_set_nodup, H.
Qed.

Lemma double_dailyMap_nodup trades :
  NoDup (Double.keys (Double.dailyMap trades)).
Proof. apply double_daily_fold_nodup. constructor. Qed.

Lemma double_dailyMap_keys trades k :
  In k (Double.keys (Double.dailyMap trades)) <->
  In k (map Double.date trades).
Proof.
  unfold Double.dailyMap. rewrite double_daily_fold_keys. cbn. tauto.
Qed.

Lemma double_dailyMap_entry trades k v :
  In (k, v) (Double.dailyMap trades) ->
  v = Double.sum_pnl (Double.on_date k trades).
Proof.
  intros Hin.
  pose proof (double_get_entry _ k v (double_dailyMap_nodup trades) Hin)
    as Hget.
  pose proof (double_daily_fold_get trades [] k) as H.
  fold (Double.dailyMap trades) in H. rewrite Hget in H. exact H.
Qed.

Lemma double_entries_perm trades :
  Permutation
    (JS.sort (fun a b => compareDates (fst a) (fst b))
       (Double.Map_entries (Double.dailyMap trades)))
    (Double.dailyMap trades).
Proof. apply sort_perm. Qed.

Lemma double_daily_dates m :
  map Double.DailyPoint.date
    (map (fun e => Double.DailyPoint.mk (fst e) (snd e)) m)
  = Double.keys m.
Proof. unfold Double.keys. rewrite map_map. reflexivity. Qed.

Lemma double_dailyPnL_dates_perm trades :
  Permutation (map Double.DailyPoint.date (Double.dailyPnL trades))
    (Double.keys (Double.dailyMap trades)).
Proof.
  unfold Double.dailyPnL. rewrite double_daily_dates.
  apply Permutation_map, double_entries_perm.
Qed.

(** The arithmetic sum, date by date: the trades of the listed dates and
    the others. *)
Lemma total_split_date k l :
  Double.total l
  == Double.total (Double.on_date k l)
     + Double.total
         (filter (fun t => negb (String.eqb (Double.date t) k)) l).
Proof.
  unfold Double.total, Double.on_date.
  induction l as [| t l IH]; cbn [filter map Double.sum_amounts]; [lra |].
  destruct (String.eqb (Double.date t) k); cbn [negb map Double.sum_amounts];
    lra.
Qed.

Lemma on_date_other k k' l :
  k' <> k ->
  Double.on_date k'
    (filter (fun t => negb (String.eqb (Double.date t) k)) l)
  = Double.on_date k' l.
Proof.
  intros Hne. unfold Double.on_date.
  induction l as [| t l IH]; [reflexivity |].
  cbn [filter].
  destruct (String.eqb_spec (Double.date t) k) as [E | _]; cbn [negb filter].
  - destruct (String.eqb_spec (Double.date t) k') as [E' | _];
      [congruence | exact IH].
  - rewrite IH. reflexivity.
Qed.

Lemma total_by_dates K : forall l,
  NoDup K ->
  (forall t, In t l -> In (Double.date t) K) ->
  fold_right Qplus 0
    (map (fun k => Double.total (Double.on_date k l)) K)
  == Double.total l.
Proof.
  induction K as [| k K IH]; intros l Hnd Hall.
  - destruct l as [| t l]; [reflexivity |].
    destruct (Hall t (or_introl eq_refl)).
  - inversion Hnd as [| ? ? Hnin Hnd']; subst.
    cbn [map fold_right].
    set (rest := filter (fun t => negb (String.eqb (Double.date t) k)) l).
    assert (Hext :
      map (fun k' => Double.total (Double.on_date k' l)) K
      = map (fun k' => Double.total (Double.on_date k' rest)) K).
    { apply map_ext_in. intros k' Hk'. unfold rest.
      rewrite on_date_other; [reflexivity |].
      intros ->. apply Hnin, Hk'. }
    rewrite Hext, (IH rest Hnd').
    + rewrite (total_split_date k l). fold rest. lra.
    + intros t Ht. unfold rest in Ht. apply filter_In in Ht.
      destruct Ht as [Ht Hk].
      destruct (Hall t Ht) as [E | Hin]; [| exact Hin].
      rewrite E, String.eqb_refl in Hk. discriminate Hk.
Qed.

Lemma days_sum_exactly_value trades d :
  Double.days_sum_exactly trades = true ->
  In d (map Double.date trades) ->
  Double.has_value (Double.sum_pnl (Double.on_date d trades))
    (Double.total (Double.on_date d trades)).
Proof.
  unfold Double.days_sum_exactly. rewrite forallb_forall.
  intros H Hd. apply sums_exactly_total, H, Hd.
Qed.

Lemma has_value_amount x q : Double.has_value x q -> Double.amount x == q.
Proof.
  intros (q' & Hv & Hq). unfold Double.amount. rewrite Hv. exact Hq.
Qed.

Lemma double_dailyPnL_nodup trades :
  NoDup (map Double.DailyPoint.date (Double.dailyPnL trades)).
Proof.
  apply (Permutation_NoDup
           (Permutation_sym (double_dailyPnL_dates_perm trades))),
    double_dailyMap_nodup.
Qed.

Lemma double_dailyPnL_dates trades d :
  In d (map Double.DailyPoint.date (Double.dailyPnL trades)) <->
  In d (map Double.date trades).
Proof.
  rewrite <- double_dailyMap_keys.
  split; apply Permutation_in; [| symmetry];
    exact (double_dailyPnL_dates_perm trades).
Qed.

Lemma double_dailyPnL_entry trades p :
  In p (Double.dailyPnL trades) ->
  Double.DailyPoint.pnl p
  = Double.sum_pnl (Double.on_date (Double.DailyPoint.date p) trades).
Proof.
  intros Hp. unfold Double.dailyPnL in Hp.
  apply in_map_iff in Hp. destruct Hp as ([k v] & <- & He).
  cbn [Double.DailyPoint.pnl Double.DailyPoint.date fst snd].
  apply double_dailyMap_entry.
  apply (Permutation_in _ (double_entries_perm trades)), He.
Qed.

Lemma double_dailyPnL_entry_value trades p :
  Double.days_sum_exactly trades = true ->
  In p (Double.dailyPnL trades) ->
  Double.has_value (Double.DailyPoint.pnl p)
    (Double.total (Double.on_date (Double.DailyPoint.date p) trades)).
Proof.
  intros Hdays Hp. rewrite (double_dailyPnL_entry trades p Hp).
  apply days_sum_exactly_value; [exact Hdays |].
  apply double_dailyPnL_dates, in_map, Hp.
Qed.

(** When the additions of no date round, the entries add up to the
    arithmetic sum of all [pnl]. *)
Lemma double_daily_total_exact trades :
  Double.days_sum_exactly trades = true ->
  Double.daily_total (Double.dailyPnL trades) == Double.total trades.
Proof.
  intros Hdays.
  pose proof (double_dailyPnL_entry_value trades) as Hval.
  rewrite <- (total_by_dates
                (map Double.DailyPoint.date (Double.dailyPnL trades))
                trades (double_dailyPnL_nodup trades)).
  - unfold Double.daily_total. rewrite map_map.
    specialize (fun p => Hval p Hdays).
    clear - Hval. induction (Double.dailyPnL trades) as [| p out IH];
      [reflexivity |].
    cbn [map Double.sum_amounts fold_right].
    rewrite (has_value_amount _ _ (Hval p (or_introl eq_refl))).
    rewrite IH; [reflexivity |].
    intros q Hq. apply Hval. right; exact Hq.
  - intros t Ht. apply double_dailyPnL_dates, in_map, Ht.
Qed.

End DoubleDaily.

(** C6, as the claim states it, fails, in two ways.  Each date's entry
    adds the [pnl] of that date only, the net adds all [pnl] in input
    order, and the additions round: of the trades 5 December (2^53),
    12 December (1), 5 December (-2^53) the daily entries are 0 and 1,
    which add up to 1, while the net is 0.  And with a date that is no
    date among the trades the comparator yields [NaN], the sort leaves
    the 18th ahead of the 5th, and the entries are in no date order
    however they are arranged. *)
Lemma dailyPnL_total_differs_from_net :
  let t d p := Double.mkTrade "T" d "NAS100" Long 1%float None 1%float p
                 None None None in
  let trades :=
    [t "2025-12-05" Double.two53; t "2025-12-12" 1%float;
     t "2025-12-05" (opp Double.two53)] in
  let undated :=
    [t "2025-12-18" 250%float; t "n/a" 284%float;
     t "2025-12-05" (-280)%float] in
  (Double.dated trades = true /\
   Double.dailyPnL trades
   = [Double.DailyPoint.mk "2025-12-05" 0%float;
      Double.DailyPoint.mk "2025-12-12" 1%float] /\
   Double.daily_total (Double.dailyPnL trades) == 1 /\
   (0 + 0 + 1)%float = 1%float /\
   Double.Stats.net (Double.stats trades) = 0%float /\
   eqb 1%float 0%float = false) /\
  (Ref.valid_date "n/a" = false /\
   compareDates "n/a" "2025-12-05" = None /\
   map Double.DailyPoint.date (Double.dailyPnL undated)
   = ["2025-12-18"; "n/a"; "2025-12-05"] /\
   (forall out,
      Permutation out (map Double.date undated) ->
      ~ StronglySorted Ref.date_le out)).
Proof.
  cbv zeta. split.
  { split; [reflexivity |]. split; [reflexivity |].
    split; [vm_compute; reflexivity |]. repeat split. }
  split; [reflexivity |]. split; [reflexivity |]. split; [reflexivity |].
  intros out Hperm Hs.
  assert (Hv : Ref.valid_date "n/a" = true).
  { apply (date_order_needs_dates out "n/a" "2025-12-18" Hs).
    - apply (Permutation_in _ (Permutation_sym Hperm)). right; left.
      reflexivity.
    - apply (Permutation_in _ (Permutation_sym Hperm)). left. reflexivity.
    - discriminate. }
  discriminate Hv.
Qed.

(** C6, amended.  [dailyPnL] emits exactly one entry per distinct date of
    the input, so as many entries as there are distinct dates; when the
    trades are dated by calendar dates ([YYYY-MM-DD]) the entries are in
    ascending date order; the [pnl] of an entry is the [pnl] of the trades
    of that date added in input order from 0, as doubles.  When no
    addition rounds, neither those of a date nor those of the net, each
    entry is the arithmetic sum of the [pnl] of its date, and the emitted
    [pnl] add up to the net of [stats] on the same trades. *)
Theorem dailyPnL_one_entry_per_date_in_date_order
    (trades : list Double.Trade) :
  NoDup (map Double.DailyPoint.date (Double.dailyPnL trades)) /\
  (forall d,
     In d (map Double.DailyPoint.date (Double.dailyPnL trades)) <->
     In d (map Double.date trades)) /\
  List.length (Double.dailyPnL trades)
  = List.length (nodup string_dec (map Double.date trades)) /\
  (Double.dated trades = true ->
   StronglySorted
     (fun p q =>
        Ref.date_le (Double.DailyPoint.date p) (Double.DailyPoint.date q))
     (Double.dailyPnL trades)) /\
  (forall p, In p (Double.dailyPnL trades) ->
     Double.DailyPoint.pnl p
     = Double.sum_pnl (Double.on_date (Double.DailyPoint.date p) trades)) /\
  (Double.sums_exactly (map Double.pnl trades) = true ->
   Double.days_sum_exactly trades = true ->
   (forall p, In p (Double.dailyPnL trades) ->
      Double.has_value (Double.DailyPoint.pnl p)
        (Double.total (Double.on_date (Double.DailyPoint.date p) trades))) /\
   Double.daily_total (Double.dailyPnL trades) == Double.total trades /\
   Double.has_value (Double.Stats.net (Double.stats trades))
     (Double.total trades)).
Proof.
  pose proof (double_dailyPnL_nodup trades) as Hnd.
  pose proof (double_dailyPnL_dates trades) as Hin.
  split; [exact Hnd |].
  split; [exact Hin |].
  split.
  { rewrite <- (length_map Double.DailyPoint.date).
    apply Permutation_length, NoDup_Permutation;
      [exact Hnd | apply NoDup_nodup |].
    intros d. rewrite Hin, nodup_In. reflexivity. }
  split.
  { intros Hv. unfold Double.dailyPnL.
    apply (proj2 (StronglySorted_map Ref.date_le Double.DailyPoint.date _)).
    rewrite double_daily_dates.
    apply (proj1 (StronglySorted_map Ref.date_le fst _)).
    apply (sort_by_date_sorted fst).
    apply Forall_forall. intros [k v] Hkv. cbn [fst].
    assert (Hk : In k (map Double.date trades)).
    { apply double_dailyMap_keys. apply (in_map fst _ _ Hkv). }
    apply in_map_iff in Hk. destruct Hk as (t & <- & Ht).
    pose proof (double_dated_Forall trades Hv) as Hall.
    rewrite Forall_forall in Hall. apply Hall, Ht. }
  split; [apply double_dailyPnL_entry |].
  intros Hex Hdays.
  split; [intros p; apply double_dailyPnL_entry_value, Hdays |].
  split; [apply double_daily_total_exact, Hdays |].
  cbn [Double.stats Double.Stats.net]. apply sums_exactly_total, Hex.
Qed.

Lemma dailyPnL_one_entry_per_date_in_date_order_witness :
  let t d p := Double.mkTrade "T" d "NAS100" Long 1%float None 1%float p
                 None None None in
  let trades :=
    [t "2025-12-18" 250%float; t "2025-12-05" 284%float;
     t "2025-12-12" (-280)%float; t "2025-12-05" 16%float] in
  Double.dailyPnL trades
  = [Double.DailyPoint.mk "2025-12-05" 300%float;
     Double.DailyPoint.mk "2025-12-12" (-280)%float;
     Double.DailyPoint.mk "2025-12-18" 250%float] /\
  (Double.dated trades = true /\
   StronglySorted
     (fun p q =>
        Ref.date_le (Double.DailyPoint.date p) (Double.DailyPoint.date q))
     (Double.dailyPnL trades)) /\
  (Double.sums_exactly (map Double.pnl trades) = true /\
   Double.days_sum_exactly trades = true /\
   Double.total trades == 270 /\
   Double.daily_total (Double.dailyPnL trades) == Double.total trades).
Proof.
  intros t trades.
  assert (H1 : Double.dated trades = true) by reflexivity.
  assert (H2 : Double.sums_exactly (map Double.pnl trades) = true)
    by (vm_compute; reflexivity).
  assert (H3 : Double.days_sum_exactly trades = true)
    by (vm_compute; reflexivity).
  split; [reflexivity |].
  split.
  { split; [exact H1 |].
    exact (proj1 (proj2 (proj2 (proj2
      (dailyPnL_one_entry_per_date_in_date_order trades)))) H1). }
  split; [exact H2 |]. split; [exact H3 |].
  split; [vm_compute; reflexivity |].
  exact (proj1 (proj2
    (proj2 (proj2 (proj2 (proj2 (proj2
       (dailyPnL_one_entry_per_date_in_date_order trades))))) H2 H3))).
Defined.

(** ** Whole-number amounts *)

Section WholeAmounts.

Lemma gross_nonneg l : 0 <= Double.gross l.
Proof.
  induction l as [| t l IH]; cbn [Double.gross]; [lra |].
  pose proof (Qabs_nonneg (Double.amount (Double.pnl t))). lra.
Qed.

Lemma gross_perm l l' : Permutation l l' -> Double.gross l == Double.gross l'.
Proof.
  induction 1 as [| t l l' _ IH | a b l | l1 l2 l3 _ IH1 _ IH2];
    cbn [Double.gross].
  - reflexivity.
  - rewrite IH. reflexivity.
  - lra.
  - rewrite IH1. exact IH2.
Qed.

Lemma gross_filter p l : Double.gross (filter p l) <= Double.gross l.
Proof.
  induction l as [| t l IH]; cbn [filter Double.gross]; [lra |].
  pose proof (Qabs_nonneg (Double.amount (Double.pnl t))).
  destruct (p t); cbn [Double.gross]; lra.
Qed.

Lemma whole_perm l l' :
  Permutation l l' ->
  forallb (fun t => Double.whole_number (Double.pnl t)) l = true ->
  forallb (fun t => Double.whole_number (Double.pnl t)) l' = true.
Proof.
  intros Hp. rewrite !forallb_forall. intros H t Ht.
  apply H, (Permutation_in _ (Permutation_sym Hp)), Ht.
Qed.

Lemma whole_filter p l :
  forallb (fun t => Double.whole_number (Double.pnl t)) l = true ->
  forallb (fun t => Double.whole_number (Double.pnl t)) (filter p l) = true.
Proof.
  rewrite !forallb_forall. intros H t Ht. apply filter_In in Ht. apply H, Ht.
Qed.

(** Whole-number amounts whose absolute values stay below 2^53 in total
    are added without rounding, from any whole number that leaves the
    room. *)
Lemma sums_exactly_whole l : forall acc za,
  Double.has_value acc (inject_Z za) ->
  forallb (fun t => Double.whole_number (Double.pnl t)) l = true ->
  inject_Z (Z.abs za) + Double.gross l < 2 ^ 53 ->
  Double.sums_exactly_from acc (map Double.pnl l) = true.
Proof.
  induction l as [| t l IH]; intros acc za Hacc Hw Hb; [reflexivity |].
  cbn [forallb] in Hw. apply andb_true_iff in Hw. destruct Hw as [Ht Hl].
  destruct (whole_number_value _ Ht) as (z & Hz).
  cbn [Double.gross] in Hb.
  assert (Habs : Qabs (Double.amount (Double.pnl t)) == inject_Z (Z.abs z)).
  { rewrite (has_value_amount _ _ Hz). reflexivity. }
  rewrite Habs in Hb. pose proof (gross_nonneg l) as Hg.
  assert (Hle : inject_Z (Z.abs (za + z))
                <= inject_Z (Z.abs za) + inject_Z (Z.abs z)).
  { rewrite <- inject_Z_plus. rewrite <- Zle_Qle. apply Z.abs_triangle. }
  assert (Hlt : inject_Z (Z.abs (za + z)) + Double.gross l < 2 ^ 53).
  { set (B := 2 ^ 53) in *. lra. }
  assert (Hsum : (Z.abs (za + z) < 2 ^ 53)%Z).
  { rewrite Zlt_Qlt.
    assert (H53 : inject_Z (2 ^ 53) == 2 ^ 53) by reflexivity.
    rewrite H53. set (B := 2 ^ 53) in *. lra. }
  destruct (whole_add_exact acc (Double.pnl t) za z Hacc Hz Hsum)
    as [Hadd Hnext].
  cbn [map Double.sums_exactly_from]. rewrite Hadd. cbn [andb].
  apply (IH _ (za + z)%Z Hnext Hl). exact Hlt.
Qed.

Lemma sums_exactly_whole_zero l :
  forallb (fun t => Double.whole_number (Double.pnl t)) l = true ->
  Double.gross l < 2 ^ 53 ->
  Double.sums_exactly (map Double.pnl l) = true.
Proof.
  intros Hw Hb. apply (sums_exactly_whole l 0%float 0%Z); [| exact Hw |].
  - exists 0. split; [reflexivity | reflexivity].
  - change (inject_Z (Z.abs 0)) with 0. set (B := 2 ^ 53) in *. lra.
Qed.

End WholeAmounts.

(** X24.  With whole-number [pnl] whose absolute values add up to less than
    2^53, no addition of the net, of the equity curve or of the daily
    series rounds, in whatever order the trades are given: the net, the
    last equity of the curve and the sum of the daily entries are then
    all the arithmetic sum of the [pnl], and do not depend on the order. *)
Theorem whole_amounts_add_without_rounding
    (trades trades' : list Double.Trade)
    (Hwhole :
       forallb (fun t => Double.whole_number (Double.pnl t)) trades = true)
    (Hsafe : Double.gross trades < 2 ^ 53)
    (Hperm : Permutation trades trades') :
  Double.sums_exactly (map Double.pnl trades') = true /\
  Double.sums_exactly
    (map Double.EquityPoint.pnl (Double.equityCurve trades')) = true /\
  Double.days_sum_exactly trades' = true /\
  Double.has_value (Double.Stats.net (Double.stats trades'))
    (Double.total trades) /\
  Double.has_value
    (last (map Double.EquityPoint.equity (Double.equityCurve trades'))
       0%float)
    (Double.total trades) /\
  Double.daily_total (Double.dailyPnL trades') == Double.total trades.
Proof.
  assert (Hany : forall l,
    Permutation trades l ->
    Double.sums_exactly (map Double.pnl l) = true /\
    Double.total l == Double.total trades).
  { intros l Hl. split.
    - apply sums_exactly_whole_zero; [apply (whole_perm _ _ Hl), Hwhole |].
      rewrite <- (gross_perm _ _ Hl). exact Hsafe.
    - symmetry. apply total_perm_double, Hl. }
  set (sorted :=
    JS.sort (fun a b => compareDates (Double.date a) (Double.date b))
      trades').
  assert (Hsorted : Permutation trades sorted).
  { apply (Permutation_trans Hperm), Permutation_sym, sort_perm. }
  destruct (Hany trades' Hperm) as [Hex Htot].
  destruct (Hany sorted Hsorted) as [Hexs Htots].
  assert (Hdays : Double.days_sum_exactly trades' = true).
  { unfold Double.days_sum_exactly. apply forallb_forall. intros d _.
    unfold Double.on_date. apply sums_exactly_whole_zero.
    - apply whole_filter, (whole_perm _ _ Hperm), Hwhole.
    - pose proof (gross_filter (fun t => String.eqb (Double.date t) d)
                    trades') as Hle.
      rewrite <- (gross_perm _ _ Hperm) in Hle.
      set (B := 2 ^ 53) in *. lra. }
  split; [exact Hex |].
  split.
  { unfold Double.equityCurve. rewrite double_curve_pnls. exact Hexs. }
  split; [exact Hdays |].
  split.
  { destruct (sums_exactly_total trades' Hex) as (q & Hv & Hq).
    exists q. split; [exact Hv |]. rewrite Hq. exact Htot. }
  split.
  { rewrite double_curve_last. fold sorted.
    destruct (sums_exactly_total sorted Hexs) as (q & Hv & Hq).
    exists q. split; [exact Hv |]. rewrite Hq. exact Htots. }
  rewrite (double_daily_total_exact trades' Hdays). exact Htot.
Qed.

Lemma whole_amounts_add_without_rounding_witness :
  let t d p := Double.mkTrade "T" d "NAS100" Long 1%float None 1%float p
                 None None None in
  let a :=
    [t "2025-12-05" 284%float; t "2025-12-12" (-280)%float;
     t "2025-12-18" 250%float; t "2025-12-05" 16%float] in
  let b :=
    [t "2025-12-18" 250%float; t "2025-12-05" 284%float;
     t "2025-12-12" (-280)%float; t "2025-12-05" 16%float] in
  forallb (fun t => Double.whole_number (Double.pnl t)) a = true /\
  Double.gross a < 2 ^ 53 /\
  Permutation a b /\
  Double.total a == 270 /\
  Double.has_value (Double.Stats.net (Double.stats b)) (Double.total a) /\
  Double.has_value
    (last (map Double.EquityPoint.equity (Double.equityCurve b)) 0%float)
    (Double.total a) /\
  Double.daily_total (Double.dailyPnL b) == Double.total a.
Proof.
  intros t a b.
  assert (H1 : forallb (fun t => Double.whole_number (Double.pnl t)) a
               = true) by (vm_compute; reflexivity).
  assert (H2 : Double.gross a < 2 ^ 53) by (vm_compute; reflexivity).
  assert (H3 : Permutation a b).
  { apply Permutation_sym.
    apply (Permutation_trans (perm_swap _ _ _)). apply perm_skip.
    apply perm_swap. }
  split; [exact H1 |]. split; [exact H2 |]. split; [exact H3 |].
  split; [vm_compute; reflexivity |].
  exact (proj2 (proj2 (proj2
    (whole_amounts_add_without_rounding a b H1 H2 H3)))).
Defined.
